(** * Letterboxd "top movies as rated by friends": a shallow embedding of main.go

    The embedding follows the source file top down: the integer and float64
    arithmetic the helpers rely on, the scoring helpers ([avg], [weighted]),
    the page fetcher [getPage] with its retry loop, the crawlers built on
    it, the merge and ranking steps, and the parallel collector.  Then come
    the vocabulary of the properties, sample data, and the properties.
    Console output ([fmt.Print...]) is not part of the model, except for the
    table that [showResults] prints. *)

From Stdlib Require Import ZArith List Bool Ascii String Permutation Lia.
From Stdlib Require Import OrderedTypeEx Zpower.
From Stdlib Require Import SpecFloat.
From stdpp Require Import base list sorting gmap strings.

Local Open Scope Z_scope.

(** ** Go's [int] on a 64-bit platform *)

Module GoInt.

Definition min_int : Z := - 2 ^ 63.
Definition max_int : Z := 2 ^ 63 - 1.

(** Two's-complement wrap-around of a mathematical integer into [int]. *)
Definition wrap (z : Z) : Z := (z + 2 ^ 63) mod 2 ^ 64 - 2 ^ 63.

Definition add (a b : Z) : Z := wrap (a + b).

(** [len(x)] of a slice, as an [int]. *)
Definition len {A} (l : list A) : Z := Z.of_nat (length l).

End GoInt.

(** ** Go's [float64]: IEEE 754 binary64, after the Standard Library's
    executable specification [SpecFloat] *)

Module Float64.

Definition prec : Z := 53.
Definition emax : Z := 1024.

Definition t := spec_float.

(** The constant [0] of type float64. *)
Definition zero : t := S754_zero false.

(** The conversion [float64(n)] of an [int]. *)
Definition of_int (n : Z) : t := binary_normalize prec emax n 0 false.

(** [x / y] *)
Definition div (x y : t) : t := SFdiv prec emax x y.

(** [x == y], [x != y], [x > y] *)
Definition eqb (x y : t) : bool := SFeqb x y.
Definition neqb (x y : t) : bool := negb (SFeqb x y).
Definition gtb (x y : t) : bool := SFltb y x.

Definition is_nan (x : t) : bool :=
  match x with S754_nan => true | _ => false end.

End Float64.

(** ** Data types of main.go *)

(** [type Movie struct { URL string; Rating int }] *)
Record Movie := mkMovie { URL : string; Rating : Z }.

(** [type MovieWithRatings struct { URL string; Ratings []int }] *)
Record MovieWithRatings := mkMovieWithRatings { mwrURL : string; mwrRatings : list Z }.

(** [type Result struct { AvgRating float64; VoteCount int; URL string; Ratings []int }] *)
Record Result := mkResult {
  AvgRating : Float64.t;
  VoteCount : Z;
  resURL : string;
  resRatings : list Z
}.

(** ** Helper functions for calculations *)

(** The loop [sum := 0; for _, v := range list { sum += v }]. *)
Definition sumInts (lst : list Z) : Z :=
  fold_left (fun sum v => GoInt.add sum v) lst 0.

(** [func avg(list []int) float64]; the parameter [list] is [lst] here. *)
Definition avg (lst : list Z) : Float64.t :=
  if GoInt.len lst =? 0 then Float64.zero
  else Float64.div (Float64.of_int (sumInts lst)) (Float64.of_int (GoInt.len lst)).

(** The table [weights] of [weighted]. *)
Definition weights : list Z := [100; 95; 80; 65; 40; 20; 5; 0; 0; 0].

(** One iteration of the loop of [weighted]:
    [if i >= 0 && i < len(weights) { wList = append(wList, weights[i]) }]. *)
Definition weightedStep (wList : list Z) (i : Z) : list Z :=
  if (i >=? 0) && (i <? GoInt.len weights)
  then wList ++ [nth (Z.to_nat i) weights 0]
  else wList.

(** The slice [wList] when the loop of [weighted] ends. *)
Definition weightedList (lst : list Z) : list Z :=
  fold_left weightedStep lst [].

(** [func weighted(list []int) float64] *)
Definition weighted (lst : list Z) : Float64.t :=
  if GoInt.len lst =? 0 then Float64.zero
  else avg (weightedList lst).

(** ** The worker count of [collectMoviesParallel]

    [lenFriends] is [len(friends)]; Go's [/] on [int] truncates, which is
    [Z.quot]. *)
Definition numWorkers (lenFriends : Z) : Z :=
  let numWorkers := lenFriends ÷ 3 + 1 in
  let numWorkers := if numWorkers >? 12 then 12 else numWorkers in
  if numWorkers <? 2 then lenFriends else numWorkers.

(** ** The parts of Go's [strings] and [strconv] packages that main.go calls *)

Module GoStrings.

(** [strings.ReplaceAll(s, old, new)] for a non-empty [old] (main.go only
    passes non-empty literals): the occurrences of [old] are replaced from
    left to right without overlap.  [skip] counts the bytes of a matched
    occurrence that are still to be dropped. *)
Fixpoint replaceFrom (old new : string) (skip : nat) (s : string) : string :=
  match s with
  | EmptyString => EmptyString
  | String c rest =>
      match skip with
      | S k => replaceFrom old new k rest
      | O =>
          if String.prefix old s
          then new +:+ replaceFrom old new (String.length old - 1) rest
          else String c (replaceFrom old new O rest)
      end
  end.

Definition ReplaceAll (s old new : string) : string := replaceFrom old new O s.

(** [strings.Split(s, sep)] for a non-empty [sep]: the pieces of [s]
    between the occurrences of [sep], found from left to right without
    overlap; [cur] is the piece being read. *)
Fixpoint splitFrom (sep : string) (skip : nat) (cur : string) (s : string) : list string :=
  match s with
  | EmptyString => [cur]
  | String c rest =>
      match skip with
      | S k => splitFrom sep k cur rest
      | O =>
          if String.prefix sep s
          then cur :: splitFrom sep (String.length sep - 1) EmptyString rest
          else splitFrom sep O (cur +:+ String c EmptyString) rest
      end
  end.

Definition Split (s sep : string) : list string := splitFrom sep O EmptyString s.

(** [c >= '0' && c <= '9'] *)
Definition isDigit (c : ascii) : bool :=
  let n := Z.of_N (N_of_ascii c) in (48 <=? n) && (n <=? 57).

(** [(c >= 'a' && c <= 'z') || (c >= 'A' && c <= 'Z') || (c >= '0' && c <= '9')] *)
Definition isAlnum (c : ascii) : bool :=
  let n := Z.of_N (N_of_ascii c) in
  ((97 <=? n) && (n <=? 122)) || ((65 <=? n) && (n <=? 90)) || ((48 <=? n) && (n <=? 57)).

Fixpoint filterString (f : ascii -> bool) (s : string) : string :=
  match s with
  | EmptyString => EmptyString
  | String c rest => if f c then String c (filterString f rest) else filterString f rest
  end.

Fixpoint allString (f : ascii -> bool) (s : string) : bool :=
  match s with
  | EmptyString => true
  | String c rest => f c && allString f rest
  end.

(** The two errors of [strconv]. *)
Inductive NumError := ErrSyntax | ErrRange.

(** The digit loop of [strconv.ParseUint(s, 10, 64)]: a byte that is not a
    decimal digit is a syntax error, a value that leaves [uint64] a range
    error, whichever the scan meets first. *)
Fixpoint parseDigits (s : string) (n : Z) : Z + NumError :=
  match s with
  | EmptyString => inl n
  | String c rest =>
      if isDigit c then
        let n1 := n * 10 + (Z.of_N (N_of_ascii c) - 48) in
        if n1 >=? 2 ^ 64 then inr ErrRange else parseDigits rest n1
      else inr ErrSyntax
  end.

(** [strconv.Atoi(s)]: the value and the error ([None] for [nil]).  On a
    range error the value is the nearest bound of [int], on a syntax
    error it is [0]. *)
Definition Atoi (s : string) : Z * option NumError :=
  let '(neg, digits) :=
    match s with
    | String "-"%char rest => (true, rest)
    | String "+"%char rest => (false, rest)
    | _ => (false, s)
    end in
  match digits with
  | EmptyString => (0, Some ErrSyntax)
  | _ =>
      match parseDigits digits 0 with
      | inr ErrSyntax => (0, Some ErrSyntax)
      | inr ErrRange =>
          if neg then (GoInt.min_int, Some ErrRange) else (GoInt.max_int, Some ErrRange)
      | inl un =>
          if negb neg && (un >=? 2 ^ 63) then (GoInt.max_int, Some ErrRange)
          else if neg && (un >? 2 ^ 63) then (GoInt.min_int, Some ErrRange)
          else (if neg then - un else un, None)
      end
  end.

End GoStrings.

Import GoStrings.

(** ** Pages

    A parsed page ([*goquery.Document]) is seen through the selections that
    main.go makes on it. *)

(** One [li.poster-container] element. *)
Record Poster := mkPoster {
  (** [s.Find("div").Attr("data-target-link")]: [None] when the attribute
      does not exist. *)
  dataTargetLink : option string;
  (** [s.Find("p span.rating")]: [None] when the selection is empty,
      otherwise the result of [Attr("class")] on it. *)
  ratingElem : option (option string)
}.

Record Document := mkDocument {
  (** [doc.Find("body header section").Length()] *)
  headerSections : Z;
  (** for each [td.table-person], [s.Find("h3 a").Attr("href")] *)
  tablePersons : list (option string);
  (** the [li.poster-container] elements, in document order *)
  posterContainers : list Poster;
  (** [doc.Find("div.pagination a.next").Attr("href")] *)
  paginationNext : option string;
  (** [doc.Find("span.replace-if-you").Parent().Text()] *)
  replaceIfYouText : string
}.

(** ** The network

    What one [client.Get(url)] gives back. *)
Inductive Response :=
| TransportError
    (** [err != nil] *)
| Reply (StatusCode : Z) (Body : option Document)
    (** [err == nil]; [Body] is what [goquery.NewDocumentFromReader(resp.Body)]
        makes of the body, [None] when it returns an error. *).

(** The requests sent so far, oldest first. *)
Definition Log := list string.

(** The remote side: its answer to a request may depend on every request
    sent before. *)
Definition Network := Log -> string -> Response.

Section Fetch.

Variable net : Network.

(** The loop [for retry := 0; retry < 10; retry++] of [getPage], with
    [remaining = 10 - retry]. *)
Fixpoint getPage_retry (remaining : nat) (url : string) (log : Log)
  : option Document * Log :=
  match remaining with
  | O => (None, log)
  | S remaining' =>
      let log' := log ++ [url] in
      match net log url with
      | Reply StatusCode Body =>
          if StatusCode =? 200 then (Body, log')
          else getPage_retry remaining' url log'
      | TransportError => getPage_retry remaining' url log'
      end
  end.

(** [func getPage(url string)], which returns a document and an error:
    [None] stands for [err != nil] (the document is [nil] then). *)
Definition getPage (url : string) (log : Log) : option Document * Log :=
  getPage_retry 10 url log.

(** [func checkUser(username string) (string, bool)] *)
Definition checkUser (username : string) (log : Log) : (string * bool) * Log :=
  let usernameC := ReplaceAll username "_" "" in
  if negb (allString isAlnum usernameC) then ((username, false), log)
  else
    let url := "https://letterboxd.com/" +:+ username in
    match getPage url log with
    | (None, log') => ((username, false), log')
    | (Some doc, log') =>
        if headerSections doc =? 0 then ((username, false), log')
        else ((username, true), log')
    end.

(** The callback of [doc.Find("td.table-person").Each] in [findFollowing]. *)
Definition followingStep (following : list string) (href : option string) : list string :=
  match href with
  | Some href => following ++ [ReplaceAll href "/" ""]
  | None => following
  end.

(** The [for] loop of [findFollowing]; [fuel] bounds the number of pages,
    [None] means that the loop is still running when it is used up. *)
Fixpoint findFollowing_loop (fuel : nat) (url : string) (following : list string)
    (log : Log) : option (list string * Log) :=
  match fuel with
  | O => None
  | S fuel' =>
      match getPage url log with
      | (None, log') => Some (following, log')
      | (Some doc, log') =>
          let following' := fold_left followingStep (tablePersons doc) following in
          match paginationNext doc with
          | None => Some (following', log')
          | Some nextLink =>
              findFollowing_loop fuel' ("https://letterboxd.com" +:+ nextLink) following' log'
          end
      end
  end.


(** What [getMovieCount] reads off a page: [None] when [movieCount[i]] is
    left as it is. *)
Definition countOnPage (doc : Document) : option Z :=
  let parts := Split (replaceIfYouText doc) "has" in
  if GoInt.len parts <? 2 then None
  else
    let numb := filterString isDigit (nth 1 parts EmptyString) in
    if String.eqb numb "" then None else Some (fst (Atoi numb)).

(** One iteration of [for i, friend := range friends] in [getMovieCount]. *)
Definition movieCountStep (st : list Z * Log) (x : nat * string) : list Z * Log :=
  let '(movieCount, log) := st in
  let '(i, friend) := x in
  let url := "https://letterboxd.com/" +:+ friend +:+ "/films/rated/.5-5/" in
  match getPage url log with
  | (None, log') => (movieCount, log')
  | (Some doc, log') =>
      match countOnPage doc with
      | None => (movieCount, log')
      | Some count => (<[i := count]> movieCount, log')
      end
  end.

(** [func getMovieCount(friends []string) []int] *)
Definition getMovieCount (friends : list string) (log : Log) : list Z * Log :=
  fold_left movieCountStep (zip (seq 0 (length friends)) friends)
    (replicate (length friends) 0, log).

(** The callback of [doc.Find("li.poster-container").Each] in [getAllMovies]. *)
Definition allMoviesStep (movies : list string) (s : Poster) : list string :=
  match dataTargetLink s with
  | Some link => movies ++ [link]
  | None => movies
  end.

(** The [for] loop of [getAllMovies]. *)
Fixpoint getAllMovies_loop (fuel : nat) (url : string) (movies : list string)
    (log : Log) : option (list string * Log) :=
  match fuel with
  | O => None
  | S fuel' =>
      match getPage url log with
      | (None, log') => Some (movies, log')
      | (Some doc, log') =>
          let movies' := fold_left allMoviesStep (posterContainers doc) movies in
          match paginationNext doc with
          | None => Some (movies', log')
          | Some nextLink =>
              getAllMovies_loop fuel' ("https://letterboxd.com" +:+ nextLink) movies' log'
          end
      end
  end.

(** [func getAllMovies(username string) []string] *)
Definition getAllMovies (fuel : nat) (username : string) (log : Log)
  : option (list string * Log) :=
  getAllMovies_loop fuel ("https://letterboxd.com/" +:+ username +:+ "/films/") [] log.

(** The map [excludeMap] of [getRatedMovies]. *)
Definition makeExcludeMap (excludeMovies : list string) : gmap string bool :=
  fold_left (fun excludeMap m => <[m := true]> excludeMap) excludeMovies ∅.

(** [excludeMap[newTitle]]: a key that is absent reads as [false]. *)
Definition excluded (excludeMap : gmap string bool) (newTitle : string) : bool :=
  default false (excludeMap !! newTitle).

(** The callback of [doc.Find("li.poster-container").Each] in
    [getRatedMovies]; the state is [movies] and the flag [moviesOnPage]. *)
Definition ratedStep (excludeMap : gmap string bool) (st : list Movie * bool)
    (s : Poster) : list Movie * bool :=
  let '(movies, moviesOnPage) := st in
  match dataTargetLink s with
  | None => (movies, moviesOnPage)
  | Some newTitle =>
      match ratingElem s with
      | None => (movies, moviesOnPage)
      | Some class =>
          let moviesOnPage := true in
          match class with
          | None => (movies, moviesOnPage)
          | Some ratingClass =>
              let parts := Split ratingClass " " in
              let ratingStr := ReplaceAll (List.last parts EmptyString) "rated-" "" in
              match Atoi ratingStr with
              | (_, Some _) => (movies, moviesOnPage)
              | (rating, None) =>
                  if negb (excluded excludeMap newTitle)
                  then (movies ++ [mkMovie newTitle rating], moviesOnPage)
                  else (movies, moviesOnPage)
              end
          end
      end
  end.

(** The [for] loop of [getRatedMovies]. *)
Fixpoint getRatedMovies_loop (fuel : nat) (excludeMap : gmap string bool)
    (url : string) (movies : list Movie) (log : Log) : option (list Movie * Log) :=
  match fuel with
  | O => None
  | S fuel' =>
      match getPage url log with
      | (None, log') => Some (movies, log')
      | (Some doc, log') =>
          let '(movies', moviesOnPage) :=
            fold_left (ratedStep excludeMap) (posterContainers doc) (movies, false) in
          if negb moviesOnPage then Some (movies', log')
          else
            match paginationNext doc with
            | None => Some (movies', log')
            | Some nextLink =>
                getRatedMovies_loop fuel' excludeMap
                  ("https://letterboxd.com" +:+ nextLink) movies' log'
            end
      end
  end.

(** [func getRatedMovies(username string, excludeMovies []string) []Movie] *)
Definition getRatedMovies (fuel : nat) (username : string)
    (excludeMovies : list string) (log : Log) : option (list Movie * Log) :=
  getRatedMovies_loop fuel (makeExcludeMap excludeMovies)
    ("https://letterboxd.com/" +:+ username +:+ "/films/by/member-rating/") [] log.

End Fetch.

(** ** [sort.Slice]

    [sort.Slice(x, less)] reorders the slice in place.  Package [sort] asks
    [less] to be a transitive ordering, and promises a sorted slice without
    saying where elements that [less] does not tell apart end up. *)

Section SortSlice.

Context {A : Type} (less : A -> A -> bool).

(** The requirement on [less], for the elements of the slice: no element
    is before itself, and both [less] and its negation are transitive. *)
Definition OrdersElements (l : list A) : Prop :=
  (∀ x, x ∈ l → less x x = false) ∧
  (∀ x y z, x ∈ l → y ∈ l → z ∈ l →
             less x y = true → less y z = true → less x z = true) ∧
  (∀ x y z, x ∈ l → y ∈ l → z ∈ l →
             less x y = false → less y z = false → less x z = false).

(** [a] may stand before [b]: [less] does not put [b] first. *)
Definition notAfter (a b : A) : Prop := less b a = false.

(** What the development uses of a sorting function: the result holds the
    same elements and, on a slice that [less] orders, no later element is
    [less] than an earlier one. *)
Definition SortsSlice (sort : list A -> list A) : Prop :=
  ∀ l, l ≡ₚ sort l ∧ (OrdersElements l → StronglySorted notAfter (sort l)).

(** The inner loop of the insertion sort of package [sort],
    [for j := i; j > a && less(data[j], data[j-1]); j-- { swap }]:
    [x] sinks into the sorted part before it, which is held with its last
    element first. *)
Fixpoint sink (x : A) (before : list A) : list A :=
  match before with
  | [] => [x]
  | y :: before' => if less x y then y :: sink x before' else x :: y :: before'
  end.

(** The insertion sort of package [sort], which is all that [sort.Slice]
    runs on a slice of at most 12 elements. *)
Definition insertionSort (l : list A) : list A :=
  rev (fold_left (fun before x => sink x before) l []).

(** The sorted part as [sink] holds it, last element first: no element is
    [less] than one that comes after it in this list. *)
Definition sunk (before : list A) : Prop :=
  StronglySorted (fun y z => less y z = false) before.

End SortSlice.

(** ** [sort.Slice] as package [sort] runs it

    main.go uses the builtin [min], so it is built with Go 1.21 or later,
    where [sort.Slice] runs the pattern-defeating quicksort of the file
    [zsortfunc.go] of package [sort].  [data] is the slice,
    [data.Less(i, j)] compares the elements at two indices with [less], and
    [data.Swap(i, j)] exchanges them.  An index outside the slice makes Go
    panic; package [sort] produces none, and here such a comparison is
    [false] and such a swap does nothing. *)

Section PackageSort.

Context {A : Type} (less : A -> A -> bool).

(** [func (r *xorshift) Next() uint64], the pseudo-random generator of
    [breakPatterns_func], from the state before to the state after, which
    is also the number returned.  Which numbers it gives plays no part in
    what follows. *)
Variable Next : Z -> Z.

Definition elemAt (data : list A) (i : Z) : option A :=
  if i <? 0 then None else data !! Z.to_nat i.

Definition Less (data : list A) (i j : Z) : bool :=
  match elemAt data i, elemAt data j with
  | Some x, Some y => less x y
  | _, _ => false
  end.

Definition Swap (data : list A) (i j : Z) : list A :=
  match elemAt data i, elemAt data j with
  | Some x, Some y => <[Z.to_nat j := x]> (<[Z.to_nat i := y]> data)
  | _, _ => data
  end.

(** The inner loop [for j := i; j > a && data.Less(j, j-1); j--] of
    [insertionSort_func]; it ends after at most [j - a] rounds. *)
Fixpoint insertionSort_inner (rounds : nat) (data : list A) (a j : Z) : list A :=
  match rounds with
  | O => data
  | S rounds' =>
      if (j >? a) && Less data j (j - 1)
      then insertionSort_inner rounds' (Swap data j (j - 1)) a (j - 1)
      else data
  end.

(** [func insertionSort_func(data lessSwap, a, b int)] *)
Definition insertionSort_func (data : list A) (a b : Z) : list A :=
  fold_left (fun data i => insertionSort_inner (Z.to_nat (i - a)) data a i)
    (seqZ (a + 1) (b - (a + 1))) data.

(** The loop of [siftDown_func]; every round moves [root] to a child below
    [hi], so [hi] rounds are enough. *)
Fixpoint siftDown_loop (rounds : nat) (data : list A) (root hi first : Z) : list A :=
  match rounds with
  | O => data
  | S rounds' =>
      let child := 2 * root + 1 in
      if child >=? hi then data
      else
        let child :=
          if (child + 1 <? hi) && Less data (first + child) (first + child + 1)
          then child + 1 else child in
        if negb (Less data (first + root) (first + child)) then data
        else siftDown_loop rounds' (Swap data (first + root) (first + child))
               child hi first
  end.

(** [func siftDown_func(data lessSwap, lo, hi, first int)] *)
Definition siftDown_func (data : list A) (lo hi first : Z) : list A :=
  siftDown_loop (Z.to_nat hi) data lo hi first.

(** [func heapSort_func(data lessSwap, a, b int)]: the loops
    [for i := (hi - 1) / 2; i >= 0; i--] and [for i := hi - 1; i >= 0; i--]. *)
Definition heapSort_func (data : list A) (a b : Z) : list A :=
  let first := a in
  let lo := 0 in
  let hi := b - a in
  let data :=
    fold_left (fun data i => siftDown_func data i hi first)
      (rev (seqZ 0 ((hi - 1) ÷ 2 + 1))) data in
  fold_left (fun data i => siftDown_func (Swap data first (first + i)) lo i first)
    (rev (seqZ 0 hi)) data.

(** The loop [for i <= j && data.Less(i, a) { i++ }] of [partition_func];
    it ends after at most [j + 1 - i] rounds. *)
Fixpoint partition_up (rounds : nat) (data : list A) (a i j : Z) : Z :=
  match rounds with
  | O => i
  | S rounds' =>
      if (i <=? j) && Less data i a then partition_up rounds' data a (i + 1) j else i
  end.

(** The loop [for i <= j && !data.Less(j, a) { j-- }]. *)
Fixpoint partition_down (rounds : nat) (data : list A) (a i j : Z) : Z :=
  match rounds with
  | O => j
  | S rounds' =>
      if (i <=? j) && negb (Less data j a) then partition_down rounds' data a i (j - 1)
      else j
  end.

(** The last loop of [partition_func]; every round but the last moves [i]
    and [j] towards each other. *)
Fixpoint partition_loop (rounds : nat) (data : list A) (a i j : Z) : list A * Z :=
  match rounds with
  | O => (data, j)
  | S rounds' =>
      let i := partition_up (Z.to_nat (j + 1 - i)) data a i j in
      let j := partition_down (Z.to_nat (j + 1 - i)) data a i j in
      if i >? j then (data, j)
      else partition_loop rounds' (Swap data i j) a (i + 1) (j - 1)
  end.

(** [func partition_func(data lessSwap, a, b, pivot int)
    (newpivot int, alreadyPartitioned bool)] *)
Definition partition_func (data : list A) (a b pivot : Z) : list A * Z * bool :=
  let data := Swap data a pivot in
  let i := a + 1 in
  let j := b - 1 in
  let i := partition_up (Z.to_nat (j + 1 - i)) data a i j in
  let j := partition_down (Z.to_nat (j + 1 - i)) data a i j in
  if i >? j then (Swap data j a, j, true)
  else
    let data := Swap data i j in
    let i := i + 1 in
    let j := j - 1 in
    let '(data, j) := partition_loop (S (Z.to_nat (j + 1 - i))) data a i j in
    (Swap data j a, j, false).

(** The loops [for i <= j && !data.Less(a, i) { i++ }] and
    [for i <= j && data.Less(a, j) { j-- }] of [partitionEqual_func]. *)
Fixpoint partitionEqual_up (rounds : nat) (data : list A) (a i j : Z) : Z :=
  match rounds with
  | O => i
  | S rounds' =>
      if (i <=? j) && negb (Less data a i) then partitionEqual_up rounds' data a (i + 1) j
      else i
  end.

Fixpoint partitionEqual_down (rounds : nat) (data : list A) (a i j : Z) : Z :=
  match rounds with
  | O => j
  | S rounds' =>
      if (i <=? j) && Less data a j then partitionEqual_down rounds' data a i (j - 1)
      else j
  end.

Fixpoint partitionEqual_loop (rounds : nat) (data : list A) (a i j : Z) : list A * Z :=
  match rounds with
  | O => (data, i)
  | S rounds' =>
      let i := partitionEqual_up (Z.to_nat (j + 1 - i)) data a i j in
      let j := partitionEqual_down (Z.to_nat (j + 1 - i)) data a i j in
      if i >? j then (data, i)
      else partitionEqual_loop rounds' (Swap data i j) a (i + 1) (j - 1)
  end.

(** [func partitionEqual_func(data lessSwap, a, b, pivot int) (newpivot int)] *)
Definition partitionEqual_func (data : list A) (a b pivot : Z) : list A * Z :=
  let data := Swap data a pivot in
  let i := a + 1 in
  let j := b - 1 in
  partitionEqual_loop (S (Z.to_nat (j + 1 - i))) data a i j.

(** The loops of [partialInsertionSort_func]:
    [for i < b && !data.Less(i, i-1) { i++ }], *)
Fixpoint partialInsertionSort_scan (rounds : nat) (data : list A) (i b : Z) : Z :=
  match rounds with
  | O => i
  | S rounds' =>
      if (i <? b) && negb (Less data i (i - 1))
      then partialInsertionSort_scan rounds' data (i + 1) b else i
  end.

(** [for j := i - 1; j >= 1; j-- { if !data.Less(j, j-1) { break }; data.Swap(j, j-1) }], *)
Fixpoint partialInsertionSort_left (rounds : nat) (data : list A) (j : Z) : list A :=
  match rounds with
  | O => data
  | S rounds' =>
      if j >=? 1 then
        if negb (Less data j (j - 1)) then data
        else partialInsertionSort_left rounds' (Swap data j (j - 1)) (j - 1)
      else data
  end.

(** and [for j := i + 1; j < b; j++ { if !data.Less(j, j-1) { break }; data.Swap(j, j-1) }]. *)
Fixpoint partialInsertionSort_right (rounds : nat) (data : list A) (j b : Z) : list A :=
  match rounds with
  | O => data
  | S rounds' =>
      if j <? b then
        if negb (Less data j (j - 1)) then data
        else partialInsertionSort_right rounds' (Swap data j (j - 1)) (j + 1) b
      else data
  end.

(** The loop [for j := 0; j < maxSteps; j++] with [steps] rounds to go. *)
Fixpoint partialInsertionSort_loop (steps : nat) (data : list A) (a b i : Z)
  : list A * bool :=
  match steps with
  | O => (data, false)
  | S steps' =>
      let i := partialInsertionSort_scan (Z.to_nat (b - i)) data i b in
      if i =? b then (data, true)
      else if b - a <? 50 then (data, false)
      else
        let data := Swap data i (i - 1) in
        let data :=
          if i - a >=? 2 then partialInsertionSort_left (Z.to_nat i) data (i - 1)
          else data in
        let data :=
          if b - i >=? 2 then partialInsertionSort_right (Z.to_nat (b - i)) data (i + 1) b
          else data in
        partialInsertionSort_loop steps' data a b i
  end.

(** [func partialInsertionSort_func(data lessSwap, a, b int) bool], with
    [maxSteps = 5] and [shortestShifting = 50]. *)
Definition partialInsertionSort_func (data : list A) (a b : Z) : list A * bool :=
  partialInsertionSort_loop 5 data a b (a + 1).

(** [bits.Len(uint(x))] for [x >= 0]. *)
Definition bitsLen (x : Z) : Z := if x =? 0 then 0 else Z.log2 x + 1.

(** [func nextPowerOfTwo(length int) uint] *)
Definition nextPowerOfTwo (length : Z) : Z := Z.shiftl 1 (bitsLen length).

(** [func breakPatterns_func(data lessSwap, a, b int)]; [random] starts as
    [xorshift(length)]. *)
Definition breakPatterns_func (data : list A) (a b : Z) : list A :=
  let length := b - a in
  if length >=? 8 then
    let random := length in
    let modulus := nextPowerOfTwo length in
    let idx := a + (length ÷ 4) * 2 - 1 in
    fst (fold_left
           (fun (st : list A * Z) i =>
              let '(data, random) := st in
              let random := Next random in
              let other := Z.land random (modulus - 1) in
              let other := if other >=? length then other - length else other in
              (Swap data (idx - 1 + i) (a + other), random))
           [0; 1; 2] (data, random))
  else data.

(** [type sortedHint int] *)
Inductive sortedHint := unknownHint | increasingHint | decreasingHint.

(** [func order2_func(data lessSwap, a, b int, swaps *int) (int, int)];
    the counter [*swaps] is handed through. *)
Definition order2_func (data : list A) (a b : Z) (swaps : Z) : Z * Z * Z :=
  if Less data b a then (b, a, swaps + 1) else (a, b, swaps).

(** [func median_func(data lessSwap, a, b, c int, swaps *int) int] *)
Definition median_func (data : list A) (a b c : Z) (swaps : Z) : Z * Z :=
  let '(a, b, swaps) := order2_func data a b swaps in
  let '(b, c, swaps) := order2_func data b c swaps in
  let '(a, b, swaps) := order2_func data a b swaps in
  (b, swaps).

(** [func medianAdjacent_func(data lessSwap, a int, swaps *int) int] *)
Definition medianAdjacent_func (data : list A) (a : Z) (swaps : Z) : Z * Z :=
  median_func data (a - 1) a (a + 1) swaps.

(** [func choosePivot_func(data lessSwap, a, b int) (pivot int, hint sortedHint)],
    with [shortestNinther = 50] and [maxSwaps = 4 * 3]. *)
Definition choosePivot_func (data : list A) (a b : Z) : Z * sortedHint :=
  let l := b - a in
  let swaps := 0 in
  let i := a + l ÷ 4 * 1 in
  let j := a + l ÷ 4 * 2 in
  let k := a + l ÷ 4 * 3 in
  let '(j, swaps) :=
    if l >=? 8 then
      let '(i, j, k, swaps) :=
        if l >=? 50 then
          let '(i, swaps) := medianAdjacent_func data i swaps in
          let '(j, swaps) := medianAdjacent_func data j swaps in
          let '(k, swaps) := medianAdjacent_func data k swaps in
          (i, j, k, swaps)
        else (i, j, k, swaps) in
      median_func data i j k swaps
    else (j, swaps) in
  if swaps =? 0 then (j, increasingHint)
  else if swaps =? 4 * 3 then (j, decreasingHint)
  else (j, unknownHint).

(** The loop [for i < j { data.Swap(i, j); i++; j-- }] of
    [reverseRange_func]. *)
Fixpoint reverseRange_loop (rounds : nat) (data : list A) (i j : Z) : list A :=
  match rounds with
  | O => data
  | S rounds' =>
      if i <? j then reverseRange_loop rounds' (Swap data i j) (i + 1) (j - 1)
      else data
  end.

(** [func reverseRange_func(data lessSwap, a, b int)] *)
Definition reverseRange_func (data : list A) (a b : Z) : list A :=
  reverseRange_loop (Z.to_nat (b - a)) data a (b - 1).

(** The [for] loop of [pdqsort_func], from the values that [wasBalanced]
    and [wasPartitioned] have at the top of a round, with [maxInsertion =
    12].  Every round ends the loop or goes on with a shorter range, and
    the call of [pdqsort_func] inside it is for a shorter range too;
    [fuel] bounds the depth of both, [None] means that it is used up. *)
Fixpoint pdqsort_loop (fuel : nat) (data : list A) (a b limit : Z)
    (wasBalanced wasPartitioned : bool) : option (list A) :=
  match fuel with
  | O => None
  | S fuel' =>
      let length := b - a in
      if length <=? 12 then Some (insertionSort_func data a b)
      else if limit =? 0 then Some (heapSort_func data a b)
      else
        let '(data, limit) :=
          if negb wasBalanced then (breakPatterns_func data a b, limit - 1)
          else (data, limit) in
        let '(pivot, hint) := choosePivot_func data a b in
        let '(data, pivot, hint) :=
          match hint with
          | decreasingHint =>
              (reverseRange_func data a b, (b - 1) - (pivot - a), increasingHint)
          | _ => (data, pivot, hint)
          end in
        let '(data, sorted) :=
          match hint with
          | increasingHint =>
              if wasBalanced && wasPartitioned then partialInsertionSort_func data a b
              else (data, false)
          | _ => (data, false)
          end in
        if sorted then Some data
        else if (a >? 0) && negb (Less data (a - 1) pivot) then
          let '(data, mid) := partitionEqual_func data a b pivot in
          pdqsort_loop fuel' data mid b limit wasBalanced wasPartitioned
        else
          let '(data, mid, alreadyPartitioned) := partition_func data a b pivot in
          let wasPartitioned := alreadyPartitioned in
          let leftLen := mid - a in
          let rightLen := b - mid in
          let balanceThreshold := length ÷ 8 in
          if leftLen <? rightLen then
            let wasBalanced := leftLen >=? balanceThreshold in
            match pdqsort_loop fuel' data a mid limit true true with
            | None => None
            | Some data =>
                pdqsort_loop fuel' data (mid + 1) b limit wasBalanced wasPartitioned
            end
          else
            let wasBalanced := rightLen >=? balanceThreshold in
            match pdqsort_loop fuel' data (mid + 1) b limit true true with
            | None => None
            | Some data => pdqsort_loop fuel' data a mid limit wasBalanced wasPartitioned
            end
  end.

(** [func pdqsort_func(data lessSwap, a, b, limit int)] *)
Definition pdqsort_func (fuel : nat) (data : list A) (a b limit : Z)
  : option (list A) :=
  pdqsort_loop fuel data a b limit true true.

(** [func Slice(x any, less func(i, j int) bool)]: the slice when the call
    returns.  A range of [n] elements needs no more fuel than [n + 1]. *)
Definition Slice (x : list A) : list A :=
  let length := GoInt.len x in
  let limit := bitsLen length in
  default x (pdqsort_func (S (List.length x)) x 0 length limit).

End PackageSort.

(** ** Merging *)

(** The comparison given to [sort.Slice] in [mergeMovies]:
    [movies[i].URL < movies[j].URL], byte-wise. *)
Definition urlLess (a b : Movie) : bool := String.ltb (URL a) (URL b).

(** The inner loop of [mergeMovies],
    [for j < len(movies) && movies[j].URL == movie.URL], on the movies from
    index [j] on: the ratings gathered and the movies from the final [j] on. *)
Fixpoint gatherRun (url : string) (rest : list Movie) (ratings : list Z)
  : list Z * list Movie :=
  match rest with
  | [] => (ratings, [])
  | m :: rest' =>
      if String.eqb (URL m) url then gatherRun url rest' (ratings ++ [Rating m])
      else (ratings, rest)
  end.

(** The outer loop [for i < len(movies)], on the movies from index [i] on.
    Every round moves [i] forward, so [len(movies)] rounds are enough. *)
Fixpoint mergeLoop (rounds : nat) (rest : list Movie)
    (uniqueMovies : list MovieWithRatings) : list MovieWithRatings :=
  match rounds with
  | O => uniqueMovies
  | S rounds' =>
      match rest with
      | [] => uniqueMovies
      | movie :: tail =>
          let '(ratings, rest') := gatherRun (URL movie) tail [Rating movie] in
          mergeLoop rounds' rest'
            (uniqueMovies ++ [mkMovieWithRatings (URL movie) ratings])
      end
  end.

(** [func mergeMovies(movies []Movie) []MovieWithRatings], over the sorting
    function that stands for [sort.Slice]. *)
Definition mergeMovies (sort : list Movie -> list Movie) (movies : list Movie)
  : list MovieWithRatings :=
  let movies := sort movies in
  mergeLoop (length movies) movies [].

(** [func processResults(uniqueMovies []MovieWithRatings) []Result] *)
Definition processResults (uniqueMovies : list MovieWithRatings) : list Result :=
  fold_left
    (fun results movie =>
       let avgRating := avg (mwrRatings movie) in
       results ++ [mkResult avgRating (GoInt.len (mwrRatings movie))
                     (mwrURL movie) (mwrRatings movie)])
    uniqueMovies [].

(** ** Ranking: the filter and the sort of [showResults] *)

(** [for _, movie := range moviesList { if movie.VoteCount >= threshold {...} }] *)
Definition filterByThreshold (moviesList : list Result) (threshold : Z) : list Result :=
  fold_left
    (fun moviesFiltered movie =>
       if VoteCount movie >=? threshold then moviesFiltered ++ [movie]
       else moviesFiltered)
    moviesList [].

(** The comparison given to [sort.Slice] in [showResults]. *)
Definition resultLess (a b : Result) : bool :=
  if Float64.neqb (AvgRating a) (AvgRating b)
  then Float64.gtb (AvgRating a) (AvgRating b)
  else VoteCount a >? VoteCount b.

(** [moviesFiltered] as [showResults] prints it for one threshold. *)
Definition rankResults (sort : list Result -> list Result)
    (moviesList : list Result) (threshold : Z) : list Result :=
  sort (filterByThreshold moviesList threshold).

(** ** The parallel collector

    [collectMoviesParallel] starts one goroutine per friend.  A goroutine
    takes a slot of [semaphore] (capacity [numWorkers]), runs
    [getRatedMovies], sends its slice to [moviesChan] (buffered for
    [len(friends)] slices, so the send never blocks) and gives the slot
    back.  The main goroutine appends what it receives to [allMovies] until
    the channel is closed, which happens once every goroutine is done.
    The scheduler is free to pick the next step. *)

Record Collector := mkCollector {
  (** goroutines that have not got a slot yet *)
  waiting : list string;
  (** goroutines that hold a slot *)
  running : list string;
  (** slices sent and not yet received, oldest first *)
  moviesChan : list (list Movie);
  allMovies : list Movie
}.

(** A slice that [getRatedMovies(username, excludeMovies)] can return: the
    crawl ends with it against some behaviour of the remote side. *)
Definition ratedMoviesOf (username : string) (excludeMovies : list string)
    (movies : list Movie) : Prop :=
  ∃ (net : Network) (fuel : nat) (log log' : Log),
    getRatedMovies net fuel username excludeMovies log = Some (movies, log').

Inductive collectorStep (capacity : Z) (excludeMovies : list string)
  : Collector -> Collector -> Prop :=
| step_acquire w1 username w2 r c a :
    GoInt.len r < capacity →
    collectorStep capacity excludeMovies
      (mkCollector (w1 ++ username :: w2) r c a)
      (mkCollector (w1 ++ w2) (username :: r) c a)
| step_finish w r1 username r2 c a movies :
    ratedMoviesOf username excludeMovies movies →
    collectorStep capacity excludeMovies
      (mkCollector w (r1 ++ username :: r2) c a)
      (mkCollector w (r1 ++ r2) (c ++ [movies]) a)
| step_receive w r movies c a :
    collectorStep capacity excludeMovies
      (mkCollector w r (movies :: c) a)
      (mkCollector w r c (a ++ movies)).

(** [collectMoviesParallel(friends, excludeMovies)] can return [out]. *)
Definition collectMoviesParallel (friends : list string)
    (excludeMovies : list string) (out : list Movie) : Prop :=
  rtc (collectorStep (numWorkers (GoInt.len friends)) excludeMovies)
    (mkCollector friends [] [] [])
    (mkCollector [] [] [] out).

(** ** The quadratic mean *)

(** [v * v] on [int]. *)
Definition mulInt (a b : Z) : Z := GoInt.wrap (a * b).

(** The loop [sum := 0; for _, v := range list { sum += v * v }]. *)
Definition sumSquares (lst : list Z) : Z :=
  fold_left (fun sum v => GoInt.add sum (mulInt v v)) lst 0.

(** [func leastSquare(list []int) float64]; [math.Sqrt] is the IEEE 754
    square root. *)
Definition leastSquare (lst : list Z) : Float64.t :=
  if GoInt.len lst =? 0 then Float64.zero
  else SFsqrt Float64.prec Float64.emax
         (Float64.div (Float64.of_int (sumSquares lst)) (Float64.of_int (GoInt.len lst))).

(** ** Standard input

    Every function that prompts builds a [bufio.NewReader(os.Stdin)] of its
    own.  [Stdin] is what such a reader hands out: the successive
    [strings.TrimSpace(reader.ReadString('\n'))]; once the input has ended,
    every read gives the empty string.  A reader may take more from
    [os.Stdin] than the lines it hands out, and what it took is gone with
    it, so the state of [os.Stdin] after a call is not part of the model.
    Where a function below returns lines besides its result, they are the
    lines that its own reader has not handed out. *)
Definition Stdin := list string.

Definition readLine (stdin : Stdin) : string * Stdin :=
  match stdin with
  | [] => (EmptyString, [])
  | line :: stdin' => (line, stdin')
  end.

(** [func askExcludeWatched() bool], over the lines that its reader hands
    out; [fuel] bounds the number of rounds of the [for] loop, as for the
    crawlers. *)
Fixpoint askExcludeWatched (fuel : nat) (stdin : Stdin) : option bool :=
  match fuel with
  | O => None
  | S fuel' =>
      let '(exc, stdin') := readLine stdin in
      if String.eqb exc "n" then Some false
      else if String.eqb exc "y" then Some true
      else askExcludeWatched fuel' stdin'
  end.

Section Prompts.

Variable net : Network.

(** [func getUser() string], over the lines that its reader hands out. *)
Fixpoint getUser (fuel : nat) (stdin : Stdin) (log : Log)
  : option (string * Log) :=
  match fuel with
  | O => None
  | S fuel' =>
      let '(user, stdin') := readLine stdin in
      if String.eqb user "" then getUser fuel' stdin' log
      else
        match checkUser net user log with
        | ((validUser, true), log') => Some (validUser, log')
        | ((_, false), log') => getUser fuel' stdin' log'
        end
  end.



End Prompts.

(** ** The threshold dialogue of [showResults] *)

(** [func checkNumber(thresholdStr string, friendsNr int) (int, bool)] *)
Definition checkNumber (thresholdStr : string) (friendsNr : Z) : Z * bool :=
  match Atoi thresholdStr with
  | (_, Some _) => (0, false)
  | (threshold, None) =>
      if threshold >? friendsNr then (0, false) else (threshold, true)
  end.

(** What [showResults] does that can be seen from outside. *)
Inductive ShowEvent :=
| Shown (moviesNr : Z) (threshold : Z) (rows : list Result)
    (** the table printed for [threshold]: [moviesNr] movies pass it, and
        [rows] are the ones listed *)
| Saved (data : list Result) (threshold : Z)
    (** the call [saveResults(moviesFiltered, threshold)] *)
| Ended.
    (** the end without saving *)

(** The loop [for threshold == 0] of [showResults]. *)
Fixpoint askThreshold (fuel : nat) (friendsNr : Z) (threshold : Z) (stdin : Stdin)
  : option (Z * Stdin) :=
  if threshold =? 0 then
    match fuel with
    | O => None
    | S fuel' =>
        let '(thresholdStr, stdin') := readLine stdin in
        let '(threshold, valid) := checkNumber thresholdStr friendsNr in
        let threshold := if valid then threshold else 0 in
        askThreshold fuel' friendsNr threshold stdin'
    end
  else Some (threshold, stdin).

(** The outer [for] loop of [showResults], from the value [threshold] has at
    the top of a round; [events] is what has happened so far. *)
Fixpoint showResults_loop (fuel : nat) (sort : list Result -> list Result)
    (moviesList : list Result) (friendsNr : Z) (threshold : Z) (stdin : Stdin)
    (events : list ShowEvent) : option (list ShowEvent * Stdin) :=
  match fuel with
  | O => None
  | S fuel' =>
      match askThreshold fuel' friendsNr threshold stdin with
      | None => None
      | Some (threshold, stdin) =>
          let moviesFiltered := rankResults sort moviesList threshold in
          let moviesNr := GoInt.len moviesFiltered in
          let events :=
            events ++ [Shown moviesNr threshold
                         (take (Z.to_nat (Z.min moviesNr 15)) moviesFiltered)] in
          let '(question, stdin) := readLine stdin in
          if String.eqb question "x" then
            let '(r, stdin) := readLine stdin in
            if String.eqb r "y" then Some (events ++ [Ended], stdin)
            else showResults_loop fuel' sort moviesList friendsNr threshold stdin events
          else if String.eqb question "s" then
            Some (events ++ [Saved moviesFiltered threshold], stdin)
          else showResults_loop fuel' sort moviesList friendsNr 0 stdin events
      end
  end.

(** [func showResults(moviesList []Result, friendsNr int)] *)
Definition showResults (fuel : nat) (sort : list Result -> list Result)
    (moviesList : list Result) (friendsNr : Z) (stdin : Stdin)
  : option (list ShowEvent * Stdin) :=
  showResults_loop fuel sort moviesList friendsNr 0 stdin [].

(** ** The order of the friends in [main] *)

(** The comparison given to [sort.Slice] in [main]:
    [combinedList[i].Count > combinedList[j].Count]. *)
Definition countLess (a b : string * Z) : bool := a.2 >? b.2.

(** The friends as [main] hands them to [collectMoviesParallel]: paired with
    their counts, sorted, and unpaired. *)
Definition sortFriends (sort : list (string * Z) -> list (string * Z))
    (friends : list string) (movieCount : list Z) : list string :=
  let combinedList := zip friends movieCount in
  (sort combinedList).*1.

(** * Vocabulary of the properties *)

(** The exact sum of a list of integers. *)
Definition exactSum (lst : list Z) : Z := foldr Z.add 0 lst.

(** What [weighted] appends for one rating. *)
Definition mapped (i : Z) : list Z :=
  if bool_decide (0 <= i <= 9) then [nth (Z.to_nat i) weights 0] else [].

(** [Grouped movies groups]: [groups] lists the maximal runs of equal URLs
    of [movies], in order. *)
Inductive Grouped : list Movie -> list MovieWithRatings -> Prop :=
| Grouped_nil : Grouped [] []
| Grouped_run movie run rest groups :
    Forall (fun m => URL m = URL movie) run →
    (∀ m, head rest = Some m → URL m ≠ URL movie) →
    Grouped rest groups →
    Grouped (movie :: run ++ rest)
      (mkMovieWithRatings (URL movie) (Rating movie :: (Rating <$> run)) :: groups).

(** A slice sorted by URL. *)
Definition urlSorted (movies : list Movie) : Prop :=
  StronglySorted (notAfter urlLess) movies.

(** The ratings that [movies] holds for one URL, in order. *)
Definition ratingsOf (url : string) (movies : list Movie) : list Z :=
  Rating <$> filter (fun m => URL m = url) movies.

(** The result that [processResults] makes of one group. *)
Definition toResult (movie : MovieWithRatings) : Result :=
  mkResult (avg (mwrRatings movie)) (GoInt.len (mwrRatings movie))
    (mwrURL movie) (mwrRatings movie).

(** Item key, score and number of observations of a result. *)
Definition scoreTriple (r : Result) : string * Float64.t * Z :=
  (resURL r, AvgRating r, VoteCount r).

(** The triple that the observations [movies] give the URL [k]. *)
Definition tripleOf (movies : list Movie) (k : string) : string * Float64.t * Z :=
  (k, avg (ratingsOf k movies), GoInt.len (ratingsOf k movies)).

(** [SFcompare] orders the float64 values that are not NaN by class
    (negative infinity, negative, zero, positive, positive infinity), then
    by exponent, then by mantissa; the three keys of a value: *)
Definition fclass (x : Float64.t) : Z :=
  match x with
  | S754_zero _ => 0
  | S754_infinity s => if s then -2 else 2
  | S754_nan => 0
  | S754_finite s _ _ => if s then -1 else 1
  end.

Definition fexpo (x : Float64.t) : Z :=
  match x with
  | S754_finite s _ e => if s then - e else e
  | _ => 0
  end.

Definition fmant (x : Float64.t) : Z :=
  match x with
  | S754_finite s m _ => if s then Z.neg m else Z.pos m
  | _ => 0
  end.

(** [x < y] and [x == y] on these keys. *)
Definition FLt (x y : Float64.t) : Prop :=
  fclass x < fclass y
  ∨ (fclass x = fclass y
     ∧ (fexpo x < fexpo y ∨ (fexpo x = fexpo y ∧ fmant x < fmant y))).

Definition FEq (x y : Float64.t) : Prop :=
  fclass x = fclass y ∧ fexpo x = fexpo y ∧ fmant x = fmant y.

(** [a] is ranked strictly before [b]: a higher score, or the same score
    and more votes. *)
Definition RLt (a b : Result) : Prop :=
  FLt (AvgRating b) (AvgRating a)
  ∨ (FEq (AvgRating a) (AvgRating b) ∧ VoteCount b < VoteCount a).

(** The score of [r] is not NaN. *)
Definition scoreIsNumber (r : Result) : Prop :=
  Float64.is_nan (AvgRating r) = false.

(** [a] may stand before [b] in the ranking: [a] has the higher score, or
    the scores are equal and [a] has at least as many votes. *)
Definition ranksBefore (a b : Result) : Prop :=
  Float64.gtb (AvgRating a) (AvgRating b) = true
  ∨ (Float64.eqb (AvgRating a) (AvgRating b) = true ∧ VoteCount a >= VoteCount b).

(** Results that tie on score and votes stand in the order of their URLs. *)
Definition tiesByURL (out : list Result) : Prop :=
  ∀ (i j : nat) a b,
    (i < j)%nat → out !! i = Some a → out !! j = Some b →
    Float64.eqb (AvgRating a) (AvgRating b) = true →
    VoteCount a = VoteCount b →
    String.ltb (resURL b) (resURL a) = false.

(** An attempt that [getPage] retries: a transport error, or a status that
    is not 200. *)
Definition failed (r : Response) : Prop :=
  match r with
  | TransportError => True
  | Reply StatusCode _ => StatusCode ≠ 200
  end.

(** The flag [moviesOnPage] after a page: some poster has a target link and
    a rating element. *)
Definition ratedOnPage (doc : Document) : bool :=
  existsb (fun s => bool_decide (is_Some (dataTargetLink s))
                    && bool_decide (is_Some (ratingElem s)))
    (posterContainers doc).

(** The slice [movies] after a page. *)
Definition pageMovies (excludeMap : gmap string bool) (doc : Document)
    (movies : list Movie) : list Movie :=
  (fold_left (ratedStep excludeMap) (posterContainers doc) (movies, false)).1.

(** No movie of the slice is excluded. *)
Definition noneExcluded (excludeMovies : list string) (movies : list Movie) : Prop :=
  Forall (fun m => URL m ∉ excludeMovies) movies.

(** What holds in every state of the collector: nothing excluded is in the
    channel or in [allMovies], and no more goroutines hold a slot than the
    semaphore has. *)
Definition collectorInv (capacity : Z) (excludeMovies : list string)
    (st : Collector) : Prop :=
  Forall (noneExcluded excludeMovies) (moviesChan st)
  ∧ noneExcluded excludeMovies (allMovies st)
  ∧ GoInt.len (running st) <= Z.max capacity 0.

(** A name that [checkUser] looks up: letters, digits and underscores. *)
Definition validName (username : string) : bool :=
  allString (fun c => isAlnum c || Ascii.eqb c "_") username.

(** The pages that a crawl meets from [url] on, one after the other along
    the next links, until a page has no next link or cannot be fetched;
    [log'] is the log at the end. *)
Inductive PageChain (net : Network) : string -> Log -> list Document -> Log -> Prop :=
| chain_unreachable url log log' :
    getPage net url log = (None, log') →
    PageChain net url log [] log'
| chain_last url log doc log' :
    getPage net url log = (Some doc, log') →
    paginationNext doc = None →
    PageChain net url log [doc] log'
| chain_next url log doc log1 nextLink docs log' :
    getPage net url log = (Some doc, log1) →
    paginationNext doc = Some nextLink →
    PageChain net ("https://letterboxd.com" +:+ nextLink) log1 docs log' →
    PageChain net url log (doc :: docs) log'.

(** The same for the crawl of the rated movies, which also ends at a page
    without a rated entry. *)
Inductive RatedChain (net : Network) : string -> Log -> list Document -> Log -> Prop :=
| rated_unreachable url log log' :
    getPage net url log = (None, log') →
    RatedChain net url log [] log'
| rated_unrated url log doc log' :
    getPage net url log = (Some doc, log') →
    ratedOnPage doc = false →
    RatedChain net url log [doc] log'
| rated_last url log doc log' :
    getPage net url log = (Some doc, log') →
    ratedOnPage doc = true →
    paginationNext doc = None →
    RatedChain net url log [doc] log'
| rated_next url log doc log1 nextLink docs log' :
    getPage net url log = (Some doc, log1) →
    ratedOnPage doc = true →
    paginationNext doc = Some nextLink →
    RatedChain net ("https://letterboxd.com" +:+ nextLink) log1 docs log' →
    RatedChain net url log (doc :: docs) log'.

(** The names that [findFollowing] reads off a page. *)
Definition pageFollowing (doc : Document) : list string :=
  (fun href => ReplaceAll href "/" "") <$> omap id (tablePersons doc).

(** The links that [getAllMovies] reads off a page. *)
Definition pageLinks (doc : Document) : list string :=
  omap dataTargetLink (posterContainers doc).

(** The requests that a crawl sends for its pages, one page after the
    other: the address of each page with the number of requests for it. *)
Definition requestsOf (visits : list (string * nat)) : Log :=
  flat_map (fun v => replicate v.2 v.1) visits.

(** The addresses that a crawl from [url] over the pages [docs] can ask
    for: [url], then for each page with a next link [https://letterboxd.com]
    with that link appended as it stands. *)
Definition pageAddresses (url : string) (docs : list Document) : list string :=
  url :: omap (fun doc => (fun nextLink => "https://letterboxd.com" +:+ nextLink)
                            <$> paginationNext doc) docs.

(** A float64 that is zero or positive, finite or not. *)
Definition notNegative (x : Float64.t) : Prop :=
  match x with
  | S754_zero s | S754_infinity s | S754_finite s _ _ => s = false
  | S754_nan => False
  end.

(** A line that [askExcludeWatched] takes for an answer. *)
Definition isAnswer (line : string) : bool :=
  String.eqb line "n" || String.eqb line "y".

(** A threshold that leaves the loop [for threshold == 0] of [showResults]. *)
Definition accepted (friendsNr threshold : Z) : Prop :=
  threshold ≠ 0 ∧ threshold <= friendsNr.

(** A line after which that loop asks again: not a number, the number 0, or
    a number above [friendsNr]. *)
Definition rejected (friendsNr : Z) (line : string) : Prop :=
  match Atoi line with
  | (threshold, None) => threshold = 0 ∨ friendsNr < threshold
  | (_, Some _) => True
  end.

(** The table for [threshold]: how many movies pass it, and the first 15 of
    their ranking. *)
Definition tableFor (sort : list Result -> list Result) (moviesList : list Result)
    (threshold : Z) : ShowEvent :=
  let ranking := rankResults sort moviesList threshold in
  Shown (Z.of_nat (length ranking)) threshold (take 15 ranking).

(** The number that the decimal digits [digits] write after digits that
    wrote [n]. *)
Fixpoint decimal (digits : string) (n : Z) : Z :=
  match digits with
  | EmptyString => n
  | String c rest => decimal rest (n * 10 + (Z.of_N (N_of_ascii c) - 48))
  end.

(** A string without blank. *)
Definition noBlank (s : string) : bool :=
  allString (fun c => negb (Ascii.eqb c " ")) s.

(** * Sample data *)

(** Two friends rate [/film/x/] 7 and 8, one of them rates [/film/a/] 5. *)
Definition sampleMovies : list Movie :=
  [mkMovie "/film/x/" 7; mkMovie "/film/a/" 5; mkMovie "/film/x/" 8].

Definition sampleMoviesShuffled : list Movie :=
  [mkMovie "/film/x/" 8; mkMovie "/film/x/" 7; mkMovie "/film/a/" 5].

(** The float64 values of the constants [0.9] and [0.95]. *)
Definition f0_9 : Float64.t := S754_finite false 8106479329266893 (-53).
Definition f0_95 : Float64.t := S754_finite false 8556839292003942 (-53).

(** The input [(A, 0.9, 3), (B, 0.9, 5), (C, 0.95, 1)]; the ratings play no
    part in the ranking. *)
Definition resultA : Result := mkResult f0_9 3 "A" [].
Definition resultB : Result := mkResult f0_9 5 "B" [].
Definition resultC : Result := mkResult f0_95 1 "C" [].

(** One friend has rated thirteen movies: [/film/a/] to [/film/l/] with 8,
    [/film/m/] with 9. *)
Definition thirteenMovies : list Movie :=
  ((fun c => mkMovie ("/film/" +:+ String c "/") 8)
     <$> ["a"; "b"; "c"; "d"; "e"; "f"; "g"; "h"; "i"; "j"; "k"; "l"]%char)
  ++ [mkMovie "/film/m/" 9].

(** A listing of three pages and a fourth one behind them. *)
Definition ratedPoster (link class : string) : Poster :=
  mkPoster (Some link) (Some (Some class)).
Definition unratedPoster (link : string) : Poster :=
  mkPoster (Some link) None.
Definition listing (posters : list Poster) (next : option string) : Document :=
  mkDocument 1 [] posters next "".

Definition page1 : Document :=
  listing [ratedPoster "/film/a/" "rating -micro -darker rated-8"]
    (Some "/u/films/by/member-rating/page/2/").
Definition page2 : Document :=
  listing [ratedPoster "/film/b/" "rating -micro -darker rated-6";
           unratedPoster "/film/e/"]
    (Some "/u/films/by/member-rating/page/3/").
Definition page3unrated : Document :=
  listing [unratedPoster "/film/c/"] (Some "/u/films/by/member-rating/page/4/").
Definition page3excluded : Document :=
  listing [ratedPoster "/film/c/" "rating -micro -darker rated-4"]
    (Some "/u/films/by/member-rating/page/4/").
Definition page4 : Document :=
  listing [unratedPoster "/film/d/"] None.

(** The remote side serves the four pages; the second request that it gets
    meets a transport error. *)
Definition sampleNet (page3 : Document) : Network :=
  fun log url =>
    if (length log =? 1)%nat then TransportError
    else if String.eqb url "https://letterboxd.com/u/films/by/member-rating/"
    then Reply 200 (Some page1)
    else if String.eqb url "https://letterboxd.com/u/films/by/member-rating/page/2/"
    then Reply 200 (Some page2)
    else if String.eqb url "https://letterboxd.com/u/films/by/member-rating/page/3/"
    then Reply 200 (Some page3)
    else if String.eqb url "https://letterboxd.com/u/films/by/member-rating/page/4/"
    then Reply 200 (Some page4)
    else Reply 404 None.

(** A remote side that never answers. *)
Definition deadNet : Network := fun _ _ => TransportError.

(** The one page on which [u] has rated the thirteen movies, and the remote
    side that serves it. *)
Definition thirteenPage : Document :=
  listing
    (((fun c => ratedPoster ("/film/" +:+ String c "/") "rating -micro -darker rated-8")
        <$> ["a"; "b"; "c"; "d"; "e"; "f"; "g"; "h"; "i"; "j"; "k"; "l"]%char)
     ++ [ratedPoster "/film/m/" "rating -micro -darker rated-9"])
    None.

Definition thirteenNet : Network :=
  fun _ url =>
    if String.eqb url "https://letterboxd.com/u/films/by/member-rating/"
    then Reply 200 (Some thirteenPage)
    else Reply 404 None.

(** A profile page, and the three pages of the list of the persons that [u]
    follows; the second one lists nobody. *)
Definition profile : Document := mkDocument 1 [] [] None "".
Definition followPage (persons : list (option string)) (next : option string)
  : Document :=
  mkDocument 0 persons [] next "".

Definition follow1 : Document :=
  followPage [Some "/alice/"; None; Some "/bob_1/"] (Some "/u/following/page/2/").
Definition follow2 : Document := followPage [] (Some "/u/following/page/3/").
Definition follow3 : Document := followPage [Some "/carol/"] None.

(** The page that tells how many films a member has rated. *)
Definition countPage (text : string) : Document := mkDocument 1 [] [] None text.

(** The remote side knows the members [u], [alice] and [bob_1]. *)
Definition memberNet : Network :=
  fun _ url =>
    if String.eqb url "https://letterboxd.com/u" then Reply 200 (Some profile)
    else if String.eqb url "https://letterboxd.com/alice" then Reply 200 (Some profile)
    else if String.eqb url "https://letterboxd.com/bob_1" then Reply 200 (Some profile)
    else if String.eqb url "https://letterboxd.com/alice/films/rated/.5-5/"
    then Reply 200 (Some (countPage "alice has rated 12 films"))
    else if String.eqb url "https://letterboxd.com/bob_1/films/rated/.5-5/"
    then Reply 200 (Some (countPage "bob_1 has rated 1,340 films"))
    else if String.eqb url "https://letterboxd.com/u/following/"
    then Reply 200 (Some follow1)
    else if String.eqb url "https://letterboxd.com/u/following/page/2/"
    then Reply 200 (Some follow2)
    else if String.eqb url "https://letterboxd.com/u/following/page/3/"
    then Reply 200 (Some follow3)
    else Reply 404 None.

(** * Properties *)

(** ** Loops that append to a slice *)

Lemma fold_left_appends {A B} (step : list A -> B -> list A) (f : B -> list A) :
  (∀ acc x, step acc x = acc ++ f x) →
  ∀ l acc, fold_left step l acc = acc ++ flat_map f l.
Proof.
  intros Hstep l. induction l as [|x l IH]; intros acc; simpl.
  - by rewrite app_nil_r.
  - rewrite IH, Hstep. by rewrite <- app_assoc.
Qed.

(** ** Integer sums *)

Lemma wrap_small z : GoInt.min_int <= z <= GoInt.max_int → GoInt.wrap z = z.
Proof.
  unfold GoInt.wrap, GoInt.min_int, GoInt.max_int. intros H.
  rewrite Z.mod_small; lia.
Qed.

Lemma wrap_add_wrap_l a b : GoInt.wrap (GoInt.wrap a + b) = GoInt.wrap (a + b).
Proof.
  unfold GoInt.wrap. f_equal.
  replace ((a + 2 ^ 63) `mod` 2 ^ 64 - 2 ^ 63 + b + 2 ^ 63)
    with ((a + 2 ^ 63) `mod` 2 ^ 64 + b) by lia.
  rewrite Zplus_mod_idemp_l. f_equal. lia.
Qed.

Lemma sumInts_from lst s :
  fold_left (fun sum v => GoInt.add sum v) lst (GoInt.wrap s) = GoInt.wrap (s + exactSum lst).
Proof.
  revert s. induction lst as [|v lst IH]; intros s; simpl.
  - by rewrite Z.add_0_r.
  - unfold GoInt.add at 2. rewrite wrap_add_wrap_l, IH. f_equal. lia.
Qed.

Lemma sumInts_wrap lst : sumInts lst = GoInt.wrap (exactSum lst).
Proof.
  unfold sumInts. change 0 with (GoInt.wrap 0) at 1.
  by rewrite sumInts_from.
Qed.

Lemma exactSum_perm l1 l2 : l1 ≡ₚ l2 → exactSum l1 = exactSum l2.
Proof.
  induction 1; simpl; lia.
Qed.

Lemma avg_perm l1 l2 : l1 ≡ₚ l2 → avg l1 = avg l2.
Proof.
  intros H. unfold avg, GoInt.len.
  rewrite !sumInts_wrap, (exactSum_perm _ _ H), (Permutation_length H). done.
Qed.

(** ** The worker count *)

(** C1: the worker count is [floor(len/3) + 1], capped at 12, and replaced by
    [len] itself when the formula gives less than 2; it is 2 for 5 sources,
    1 for 1 source and 12 for 40 sources. *)
Theorem numWorkers_formula (friends : list string) :
  let n := GoInt.len friends in
  numWorkers n = (if n / 3 + 1 <? 2 then n else Z.min (n / 3 + 1) 12)
  ∧ numWorkers 5 = 2 ∧ numWorkers 1 = 1 ∧ numWorkers 40 = 12.
Proof.
  intros n. split; [|done].
  assert (0 <= n) as Hn by (unfold n, GoInt.len; lia).
  unfold numWorkers. rewrite Z.quot_div_nonneg by lia.
  generalize (n / 3 + 1). intros w.
  destruct (Z.gtb_spec w 12), (Z.ltb_spec w 2); try lia;
    destruct (Z.ltb_spec 12 2); lia.
Qed.

(** ** Weighted scoring *)

Lemma weightedStep_mapped wList i : weightedStep wList i = wList ++ mapped i.
Proof.
  unfold weightedStep, mapped, GoInt.len. simpl length.
  case_bool_decide as H.
  - destruct (Z.geb_spec i 0), (Z.ltb_spec i (Z.of_nat 10)); simpl; try done; lia.
  - destruct (Z.geb_spec i 0), (Z.ltb_spec i (Z.of_nat 10)); simpl;
      rewrite ?app_nil_r; try done; lia.
Qed.

Lemma weightedList_flat_map lst : weightedList lst = flat_map mapped lst.
Proof.
  unfold weightedList.
  by rewrite (fold_left_appends _ mapped weightedStep_mapped).
Qed.

Lemma len_zero_nil {A} (l : list A) : (GoInt.len l =? 0) = true → l = [].
Proof.
  unfold GoInt.len. destruct l; [done|]. simpl length. intros H%Z.eqb_eq. lia.
Qed.

Lemma mapped_bounds i : Forall (fun w => 0 <= w <= 100) (mapped i).
Proof.
  unfold mapped. case_bool_decide; [|constructor].
  constructor; [|constructor].
  unfold weights.
  destruct (Z.to_nat i) as [|n]; [simpl; lia|].
  do 9 (destruct n as [|n]; [simpl; lia|]). destruct n; simpl; lia.
Qed.

Lemma exactSum_bounds lst :
  Forall (fun w => 0 <= w <= 100) lst →
  0 <= exactSum lst <= 100 * Z.of_nat (length lst).
Proof.
  induction 1 as [|w lst Hw _ IH]; simpl; lia.
Qed.

Lemma weightedList_bounds lst : Forall (fun w => 0 <= w <= 100) (weightedList lst).
Proof.
  rewrite weightedList_flat_map. induction lst as [|i lst IH]; [constructor|].
  simpl. apply Forall_app. split; [apply mapped_bounds|done].
Qed.

(** C5: [weighted] sends the ratings in [0..9] through the table, drops the
    others (they do not count in the divisor), and returns the mean of what
    is left: the sum of the table values divided by their number, where the
    sum is exact unless the slice is too long for [int]; [[2; 15]] is mapped
    to [[80]] and scores 80. *)
Theorem weighted_table (lst : list Z) :
  weights = [100; 95; 80; 65; 40; 20; 5; 0; 0; 0]
  ∧ weightedList lst
    = flat_map (fun i => if bool_decide (0 <= i <= 9)
                         then [nth (Z.to_nat i) weights 0] else []) lst
  ∧ length (weightedList lst) = length (filter (fun i => 0 <= i <= 9) lst)
  ∧ weighted lst = avg (weightedList lst)
  ∧ avg (weightedList lst)
    = (if bool_decide (weightedList lst = []) then Float64.zero
       else Float64.div (Float64.of_int (sumInts (weightedList lst)))
              (Float64.of_int (Z.of_nat (length (weightedList lst)))))
  ∧ (100 * Z.of_nat (length (weightedList lst)) <= GoInt.max_int →
     sumInts (weightedList lst) = exactSum (weightedList lst))
  ∧ weightedList [2; 15] = [80]
  ∧ weighted [2; 15] = Float64.of_int 80.
Proof.
  split; [done|]. split; [apply weightedList_flat_map|].
  split.
  { rewrite weightedList_flat_map. induction lst as [|i lst IH]; [done|].
    simpl. rewrite length_app, IH, filter_cons. unfold mapped.
    case_bool_decide; destruct (decide (0 <= i <= 9)); simpl; try done; lia. }
  split.
  { unfold weighted. destruct (GoInt.len lst =? 0) eqn:E; [|done].
    by rewrite (len_zero_nil _ E). }
  split; [|split; [|by vm_compute]].
  - unfold avg, GoInt.len.
    destruct (weightedList lst) as [|w ws]; [done|].
    rewrite bool_decide_eq_false_2 by done.
    simpl length. destruct (Z.eqb_spec (Z.of_nat (S (length ws))) 0); [lia|done].
  - intros Hlen. rewrite sumInts_wrap. apply wrap_small.
    pose proof (exactSum_bounds _ (weightedList_bounds lst)).
    unfold GoInt.min_int, GoInt.max_int in *. lia.
Qed.

Lemma weighted_table_witness :
  100 * Z.of_nat (length (weightedList [2; 15])) <= GoInt.max_int
  ∧ sumInts (weightedList [2; 15]) = exactSum (weightedList [2; 15])
  ∧ weighted [2; 15] = Float64.of_int 80.
Proof.
  assert (100 * Z.of_nat (length (weightedList [2; 15])) <= GoInt.max_int) as H
    by (by vm_compute).
  pose proof (weighted_table [2; 15]) as (_ & _ & _ & _ & _ & Hsum & _ & H80).
  split; [exact H|]. split; [exact (Hsum H)|exact H80].
Defined.

(** C10: when no rating lies in [0..9] (an empty list included), [weighted]
    returns exactly 0. *)
Theorem weighted_out_of_domain (lst : list Z) :
  Forall (fun i => i < 0 ∨ 9 < i) lst → weighted lst = Float64.zero.
Proof.
  intros H.
  assert (weightedList lst = []) as Hnil.
  { rewrite weightedList_flat_map. induction H as [|i lst Hi _ IH]; [done|].
    simpl. rewrite IH, app_nil_r. unfold mapped.
    rewrite bool_decide_eq_false_2; [done|lia]. }
  unfold weighted. rewrite Hnil. by destruct (GoInt.len lst =? 0).
Qed.

Lemma weighted_out_of_domain_witness :
  Forall (fun i => i < 0 ∨ 9 < i) [15; -1; 10]
  ∧ weighted [15; -1; 10] = Float64.zero.
Proof.
  assert (Forall (fun i => i < 0 ∨ 9 < i) [15; -1; 10]) as H.
  { repeat constructor; lia. }
  split; [exact H|]. exact (weighted_out_of_domain [15; -1; 10] H).
Defined.

(** ** The threshold filter *)

Lemma filterByThreshold_filter moviesList threshold :
  filterByThreshold moviesList threshold
  = filter (fun movie => threshold <= VoteCount movie) moviesList.
Proof.
  unfold filterByThreshold.
  rewrite (fold_left_appends _
    (fun movie => if bool_decide (threshold <= VoteCount movie) then [movie] else [])).
  - simpl. induction moviesList as [|m l IH]; [done|].
    simpl. rewrite filter_cons, IH.
    case_bool_decide; destruct (decide (threshold <= VoteCount m)); done.
  - intros acc x. case_bool_decide;
      destruct (Z.geb_spec (VoteCount x) threshold); rewrite ?app_nil_r; try done; lia.
Qed.

(** C3: the filter keeps exactly the results with [VoteCount >= threshold],
    and a larger threshold never gives a longer output. *)
Theorem filterByThreshold_exact (moviesList : list Result) (t t1 t2 : Z) :
  filterByThreshold moviesList t = filter (fun movie => t <= VoteCount movie) moviesList
  ∧ (∀ movie, movie ∈ filterByThreshold moviesList t
              ↔ movie ∈ moviesList ∧ (t <= VoteCount movie))
  ∧ (t1 <= t2 →
     filterByThreshold moviesList t2 `sublist_of` filterByThreshold moviesList t1
     ∧ (length (filterByThreshold moviesList t2) <= length (filterByThreshold moviesList t1))%nat).
Proof.
  split; [apply filterByThreshold_filter|]. split.
  - intros movie. rewrite filterByThreshold_filter, list_elem_of_filter. tauto.
  - intros Ht.
    assert (filterByThreshold moviesList t2 `sublist_of` filterByThreshold moviesList t1) as Hsub.
    { rewrite !filterByThreshold_filter.
      induction moviesList as [|m l IH]; [done|].
      rewrite !filter_cons.
      destruct (decide (t2 <= VoteCount m)), (decide (t1 <= VoteCount m)); try lia.
      - by constructor.
      - by constructor.
      - done. }
    split; [done|]. by apply sublist_length.
Qed.

(** Membership in a list written with [::] and [++]. *)
Ltac in_list :=
  repeat first [rewrite elem_of_cons in * | rewrite elem_of_app in * ];
  intuition (subst; auto).

(** ** Insertion sort meets the contract of [sort.Slice] *)

Section InsertionSort.

Context {A : Type} (less : A -> A -> bool).

Lemma sink_perm x before : sink less x before ≡ₚ x :: before.
Proof.
  induction before as [|y before IH]; simpl; [done|].
  destruct (less x y); [|done].
  rewrite IH. apply Permutation_swap.
Qed.

Lemma insertion_fold_perm l before :
  fold_left (fun before x => sink less x before) l before ≡ₚ l ++ before.
Proof.
  revert before. induction l as [|x l IH]; intros before; simpl; [done|].
  rewrite IH, sink_perm. by rewrite Permutation_middle.
Qed.

Lemma insertionSort_perm l : l ≡ₚ insertionSort less l.
Proof.
  unfold insertionSort. rewrite <- Permutation_rev, insertion_fold_perm.
  by rewrite app_nil_r.
Qed.

Lemma OrdersElements_asym l x y :
  OrdersElements less l → x ∈ l → y ∈ l → less x y = true → less y x = false.
Proof.
  intros (Hirr & Htrans & _) Hx Hy Hxy.
  destruct (less y x) eqn:Hyx; [|done].
  rewrite <- (Hirr x Hx). symmetry. by apply (Htrans x y x).
Qed.

Lemma OrdersElements_subseteq l k :
  k ⊆ l → OrdersElements less l → OrdersElements less k.
Proof.
  intros Hsub (Hirr & Htrans & Hneg). repeat split.
  - intros x Hx. apply Hirr. by apply Hsub.
  - intros x y z Hx Hy Hz. apply Htrans; by apply Hsub.
  - intros x y z Hx Hy Hz. apply Hneg; by apply Hsub.
Qed.

Lemma sink_sunk x before :
  OrdersElements less (x :: before) → sunk less before → sunk less (sink less x before).
Proof.
  intros Hord. induction before as [|y before IH]; intros Hs; simpl.
  - repeat constructor.
  - apply StronglySorted_cons in Hs as [Hy Hs].
    destruct (less x y) eqn:Hxy.
    + apply StronglySorted_cons. split.
      * rewrite (sink_perm x before). constructor; [|done].
        apply (OrdersElements_asym _ x y Hord); [in_list..|done].
      * apply IH; [|done].
        eapply OrdersElements_subseteq; [|done]. intros z. in_list.
    + apply StronglySorted_cons. split.
      * constructor; [done|].
        rewrite Forall_forall in Hy |- *. intros z Hz.
        destruct Hord as (_ & _ & Hneg).
        apply (Hneg x y z); [in_list..|done|by apply Hy].
      * apply StronglySorted_cons. done.
Qed.

Lemma insertion_fold_sunk l before :
  OrdersElements less (l ++ before) → sunk less before →
  sunk less (fold_left (fun before x => sink less x before) l before).
Proof.
  revert before. induction l as [|x l IH]; intros before Hord Hs; simpl; [done|].
  apply IH.
  - eapply OrdersElements_subseteq; [|done].
    intros z. rewrite elem_of_app, (sink_perm x before). in_list.
  - apply sink_sunk; [|done].
    eapply OrdersElements_subseteq; [|done]. intros z. in_list.
Qed.

Lemma sunk_rev before : sunk less before → StronglySorted (notAfter less) (rev before).
Proof.
  induction before as [|y before IH]; intros Hs; simpl; [constructor|].
  apply StronglySorted_cons in Hs as [Hy Hs].
  apply StronglySorted_app. split; [|split].
  - intros x1 x2 Hx1 ->%list_elem_of_singleton.
    rewrite Forall_forall in Hy. apply Hy.
    by apply list_elem_of_In, in_rev, list_elem_of_In.
  - by apply IH.
  - repeat constructor.
Qed.

Lemma insertionSort_sorts : SortsSlice less (insertionSort less).
Proof.
  intros l. split; [apply insertionSort_perm|].
  intros Hord. unfold insertionSort. apply sunk_rev.
  apply insertion_fold_sunk; [by rewrite app_nil_r|constructor].
Qed.

End InsertionSort.

(** ** The order of URLs *)

Lemma ltb_irrefl s : String.ltb s s = false.
Proof.
  unfold String.ltb.
  pose proof (proj2 (String_as_OT.cmp_eq s s) eq_refl) as H.
  unfold String_as_OT.cmp in H. by rewrite H.
Qed.

Lemma ltb_lt s1 s2 : String.ltb s1 s2 = true ↔ String_as_OT.lt s1 s2.
Proof.
  rewrite <- String_as_OT.cmp_lt. unfold String.ltb, String_as_OT.cmp.
  destruct (String.compare s1 s2); split; congruence.
Qed.

Lemma ltb_trans s1 s2 s3 :
  String.ltb s1 s2 = true → String.ltb s2 s3 = true → String.ltb s1 s3 = true.
Proof. rewrite !ltb_lt. apply String_as_OT.lt_trans. Qed.

Lemma ltb_trichotomy s1 s2 :
  String.ltb s1 s2 = true ∨ s1 = s2 ∨ String.ltb s2 s1 = true.
Proof.
  unfold String.ltb. rewrite (String.compare_antisym s2 s1).
  destruct (String.compare s1 s2) eqn:E; simpl; auto.
  right. left. by apply String.compare_eq_iff.
Qed.

Lemma ltb_asym s1 s2 : String.ltb s1 s2 = true → String.ltb s2 s1 = false.
Proof.
  intros H. destruct (String.ltb s2 s1) eqn:E; [|done].
  rewrite <- (ltb_irrefl s1). symmetry. by apply (ltb_trans s1 s2 s1).
Qed.

Lemma ltb_neg_trans s1 s2 s3 :
  String.ltb s1 s2 = false → String.ltb s2 s3 = false → String.ltb s1 s3 = false.
Proof.
  intros H12 H23. destruct (String.ltb s1 s3) eqn:H13; [|done].
  destruct (ltb_trichotomy s2 s3) as [H|[->|H]]; [congruence..|].
  rewrite <- H12. symmetry. by apply (ltb_trans s1 s3 s2).
Qed.

Lemma urlLess_orders l : OrdersElements urlLess l.
Proof.
  unfold urlLess. repeat split.
  - intros x _. apply ltb_irrefl.
  - intros x y z _ _ _. apply ltb_trans.
  - intros x y z _ _ _. apply ltb_neg_trans.
Qed.

(** ** Merging: the runs of a sorted slice *)

Lemma gatherRun_spec url rest ratings :
  ∃ run rest',
    gatherRun url rest ratings = (ratings ++ (Rating <$> run), rest')
    ∧ rest = run ++ rest'
    ∧ Forall (fun m => URL m = url) run
    ∧ (∀ m, head rest' = Some m → URL m ≠ url).
Proof.
  revert ratings. induction rest as [|m rest IH]; intros ratings; simpl.
  - exists [], []. simpl. rewrite app_nil_r. by repeat split.
  - destruct (String.eqb_spec (URL m) url) as [Heq|Hne].
    + destruct (IH (ratings ++ [Rating m])) as (run & rest' & -> & -> & Hrun & Hhd).
      exists (m :: run), rest'. simpl. rewrite <- app_assoc. simpl.
      repeat split; [by constructor|done].
    + exists [], (m :: rest). simpl. rewrite app_nil_r.
      repeat split; [constructor|]. intros m' [= <-]. done.
Qed.

Lemma mergeLoop_acc rounds rest uniqueMovies :
  mergeLoop rounds rest uniqueMovies = uniqueMovies ++ mergeLoop rounds rest [].
Proof.
  revert rest uniqueMovies.
  induction rounds as [|rounds IH]; intros rest uniqueMovies; simpl.
  - by rewrite app_nil_r.
  - destruct rest as [|movie tail]; [by rewrite app_nil_r|].
    destruct (gatherRun (URL movie) tail [Rating movie]) as [ratings rest'].
    rewrite IH, (IH _ [_]). by rewrite <- app_assoc.
Qed.

Lemma mergeLoop_Grouped rounds rest :
  (length rest <= rounds)%nat → Grouped rest (mergeLoop rounds rest []).
Proof.
  revert rest. induction rounds as [|rounds IH]; intros rest Hlen.
  - destruct rest; [constructor|simpl in Hlen; lia].
  - destruct rest as [|movie tail]; [constructor|]. simpl.
    destruct (gatherRun_spec (URL movie) tail [Rating movie])
      as (run & rest' & -> & -> & Hrun & Hhd).
    rewrite mergeLoop_acc. simpl.
    constructor; [done..|]. apply IH.
    simpl in Hlen. rewrite length_app in Hlen. lia.
Qed.

Lemma Grouped_total movies groups :
  Grouped movies groups →
  sum_list ((fun g => length (mwrRatings g)) <$> groups) = length movies.
Proof.
  induction 1 as [|movie run rest groups _ _ _ IH]; [done|].
  rewrite fmap_cons. cbn [sum_list foldr mwrRatings length].
  rewrite IH, length_fmap, length_app. done.
Qed.

Lemma urlSorted_above movie run rest :
  urlSorted (movie :: run ++ rest) →
  (∀ m, head rest = Some m → URL m ≠ URL movie) →
  ∀ x, x ∈ rest → String.ltb (URL movie) (URL x) = true.
Proof.
  intros Hs Hhd x Hx. destruct rest as [|h rest]; [by apply elem_of_nil in Hx|].
  apply StronglySorted_cons in Hs as [Hmovie Hs].
  apply StronglySorted_app in Hs as (_ & _ & Hs).
  apply StronglySorted_cons in Hs as [Hh _].
  rewrite Forall_forall in Hmovie, Hh.
  assert (String.ltb (URL movie) (URL h) = true) as Hlt.
  { destruct (ltb_trichotomy (URL movie) (URL h)) as [H|[H|H]]; [done|..].
    - by destruct (Hhd h).
    - assert (notAfter urlLess movie h) as Hn by (apply Hmovie; in_list).
      unfold notAfter, urlLess in Hn. congruence. }
  apply elem_of_cons in Hx as [->|Hx]; [done|].
  specialize (Hh x Hx). unfold notAfter, urlLess in Hh.
  destruct (ltb_trichotomy (URL movie) (URL x)) as [H|[H|H]]; [done|..].
  - rewrite <- H, Hlt in Hh. done.
  - rewrite (ltb_trans _ _ _ H Hlt) in Hh. done.
Qed.

Lemma ltb_neq s1 s2 : String.ltb s1 s2 = true → s1 ≠ s2.
Proof. intros H ->. by rewrite ltb_irrefl in H. Qed.

Lemma filter_all {A} (P : A → Prop) `{∀ x, Decision (P x)} l :
  Forall P l → filter P l = l.
Proof.
  induction 1 as [|x l Hx _ IH]; [done|]. by rewrite filter_cons_True, IH.
Qed.

Lemma filter_none {A} (P : A → Prop) `{∀ x, Decision (P x)} l :
  Forall (fun x => ¬ P x) l → filter P l = [].
Proof.
  induction 1 as [|x l Hx _ IH]; [done|]. by rewrite filter_cons_False, IH.
Qed.

Lemma Grouped_sorted movies groups :
  Grouped movies groups → urlSorted movies →
  StronglySorted (fun a b => String.ltb a b = true) (mwrURL <$> groups)
  ∧ (∀ k, k ∈ mwrURL <$> groups ↔ k ∈ URL <$> movies)
  ∧ Forall (fun g => mwrRatings g = ratingsOf (mwrURL g) movies) groups.
Proof.
  induction 1 as [|movie run rest groups Hrun Hhd HG IH]; intros Hs.
  - repeat split; try constructor; done.
  - pose proof (urlSorted_above _ _ _ Hs Hhd) as Habove.
    assert (urlSorted rest) as Hrest.
    { apply StronglySorted_cons in Hs as [_ Hs].
      by apply StronglySorted_app in Hs as (_ & _ & Hs). }
    destruct (IH Hrest) as (IHs & IHk & IHr).
    rewrite Forall_forall in Hrun.
    split; [|split].
    + simpl. constructor; [done|].
      rewrite Forall_forall. intros k Hk%IHk.
      apply list_elem_of_fmap in Hk as (x & -> & Hx). by apply Habove.
    + intros k. simpl. rewrite fmap_app, !elem_of_cons, elem_of_app, IHk.
      split; [tauto|]. intros [H|[H|H]]; auto.
      apply list_elem_of_fmap in H as (x & -> & Hx). left. by apply Hrun.
    + constructor.
      * simpl. unfold ratingsOf.
        rewrite filter_cons_True by done. rewrite filter_app.
        rewrite (filter_all _ run) by by rewrite Forall_forall.
        rewrite (filter_none _ rest), app_nil_r; [done|].
        rewrite Forall_forall. intros x Hx Heq.
        apply Habove in Hx. by apply ltb_neq in Hx.
      * rewrite Forall_forall in IHr |- *. intros g Hg.
        rewrite (IHr g Hg). unfold ratingsOf.
        assert (mwrURL g ∈ mwrURL <$> groups) as Hk by by apply list_elem_of_fmap_2.
        apply IHk, list_elem_of_fmap in Hk as (x & Hkx & Hx).
        apply Habove, ltb_neq in Hx. rewrite <- Hkx in Hx.
        rewrite filter_cons_False by done. rewrite filter_app.
        rewrite (filter_none _ run); [done|].
        rewrite Forall_forall. intros y Hy. rewrite (Hrun y Hy). done.
Qed.

Lemma ltb_sorted_NoDup keys :
  StronglySorted (fun a b => String.ltb a b = true) keys → NoDup keys.
Proof.
  induction 1 as [|k keys _ IH Hk]; constructor; [|done].
  intros Hin. rewrite Forall_forall in Hk.
  specialize (Hk k Hin). by rewrite ltb_irrefl in Hk.
Qed.

Lemma NoDup_fmap_count {A B} `{EqDecision B} (f : A → B) l x :
  NoDup (f <$> l) → x ∈ l → length (filter (fun y => f y = f x) l) = 1%nat.
Proof.
  induction l as [|y l IH]; intros Hnd Hx; [by apply elem_of_nil in Hx|].
  simpl in Hnd. apply NoDup_cons in Hnd as [Hy Hnd].
  rewrite filter_cons. destruct (decide (f y = f x)) as [Heq|Hne].
  - simpl. rewrite filter_none; [done|].
    rewrite Forall_forall. intros z Hz Hzx. apply Hy.
    rewrite Heq, <- Hzx. by apply list_elem_of_fmap_2.
  - apply IH; [done|]. apply elem_of_cons in Hx as [->|Hx]; done.
Qed.

(** What [mergeMovies] returns, for a sorting function that meets the
    contract of [sort.Slice]. *)
Lemma mergeMovies_spec sort movies :
  SortsSlice urlLess sort →
  let groups := mergeMovies sort movies in
  Grouped (sort movies) groups
  ∧ StronglySorted (fun a b => String.ltb a b = true) (mwrURL <$> groups)
  ∧ (∀ k, k ∈ mwrURL <$> groups ↔ k ∈ URL <$> movies)
  ∧ Forall (fun g => mwrRatings g ≡ₚ ratingsOf (mwrURL g) movies) groups.
Proof.
  intros Hsort groups. destruct (Hsort movies) as [Hperm Hsorted].
  specialize (Hsorted (urlLess_orders movies)).
  assert (Grouped (sort movies) groups) as HG by by apply mergeLoop_Grouped.
  destruct (Grouped_sorted _ _ HG Hsorted) as (Hs & Hk & Hr).
  split; [done|]. split; [done|]. split.
  - intros k. rewrite Hk. by rewrite <- Hperm.
  - eapply Forall_impl; [exact Hr|]. intros g ->. unfold ratingsOf.
    by rewrite <- Hperm.
Qed.

(** C2: the groups of [mergeMovies] partition the observations: the ratings
    of all groups add up to the number of observations, every URL of the
    input is the URL of exactly one group, and a group holds the ratings
    that the input has for its URL. *)
Theorem mergeMovies_partition (sort : list Movie -> list Movie) (movies : list Movie) :
  SortsSlice urlLess sort →
  let groups := mergeMovies sort movies in
  sum_list ((fun g => length (mwrRatings g)) <$> groups) = length movies
  ∧ NoDup (mwrURL <$> groups)
  ∧ (∀ m, m ∈ movies →
       ∃ g, g ∈ groups ∧ mwrURL g = URL m
            ∧ length (filter (fun g' => mwrURL g' = mwrURL g) groups) = 1%nat)
  ∧ (∀ g, g ∈ groups →
       (∃ m, m ∈ movies ∧ URL m = mwrURL g)
       ∧ mwrRatings g ≡ₚ ratingsOf (mwrURL g) movies).
Proof.
  intros Hsort groups.
  destruct (mergeMovies_spec sort movies Hsort) as (HG & Hs & Hk & Hr).
  fold groups in HG, Hs, Hk, Hr.
  pose proof (ltb_sorted_NoDup _ Hs) as Hnd.
  split; [|split; [done|split]].
  - rewrite (Grouped_total _ _ HG). symmetry. apply Permutation_length.
    by destruct (Hsort movies).
  - intros m Hm.
    assert (URL m ∈ mwrURL <$> groups) as Hin by (apply Hk; by apply list_elem_of_fmap_2).
    apply list_elem_of_fmap in Hin as (g & Hg & Hin).
    exists g. split; [done|]. split; [done|]. by apply NoDup_fmap_count.
  - intros g Hg. split.
    + assert (mwrURL g ∈ URL <$> movies) as Hin by (apply Hk; by apply list_elem_of_fmap_2).
      apply list_elem_of_fmap in Hin as (m & Hm & Hin). by exists m.
    + rewrite Forall_forall in Hr. by apply Hr.
Qed.

(** ** Aggregation does not depend on the order of the observations *)

Lemma processResults_fmap uniqueMovies :
  processResults uniqueMovies = toResult <$> uniqueMovies.
Proof.
  unfold processResults.
  rewrite (fold_left_appends _ (fun movie => [toResult movie])) by done.
  simpl. induction uniqueMovies as [|g l IH]; [done|]. simpl. by rewrite IH.
Qed.

Lemma tripleOf_perm movies1 movies2 k :
  movies1 ≡ₚ movies2 → tripleOf movies1 k = tripleOf movies2 k.
Proof.
  intros H. unfold tripleOf.
  assert (ratingsOf k movies1 ≡ₚ ratingsOf k movies2) as Hr
    by (unfold ratingsOf; by rewrite H).
  unfold GoInt.len. by rewrite (avg_perm _ _ Hr), (Permutation_length Hr).
Qed.

Lemma triples_of_keys sort movies :
  SortsSlice urlLess sort →
  scoreTriple <$> processResults (mergeMovies sort movies)
  = tripleOf movies <$> (mwrURL <$> mergeMovies sort movies).
Proof.
  intros Hsort.
  destruct (mergeMovies_spec sort movies Hsort) as (_ & _ & _ & Hr).
  rewrite processResults_fmap, <- !list_fmap_compose.
  apply Forall_fmap_ext. eapply Forall_impl; [exact Hr|].
  intros g Hg. unfold compose, scoreTriple, tripleOf, toResult, GoInt.len. simpl.
  by rewrite (avg_perm _ _ Hg), (Permutation_length Hg).
Qed.

Lemma merged_keys_unique sort1 sort2 movies1 movies2 :
  SortsSlice urlLess sort1 → SortsSlice urlLess sort2 → movies1 ≡ₚ movies2 →
  mwrURL <$> mergeMovies sort1 movies1 = mwrURL <$> mergeMovies sort2 movies2.
Proof.
  intros H1 H2 Hperm.
  destruct (mergeMovies_spec sort1 movies1 H1) as (_ & Hs1 & Hk1 & _).
  destruct (mergeMovies_spec sort2 movies2 H2) as (_ & Hs2 & Hk2 & _).
  eapply (StronglySorted_unique_strong _ _ _ _ Hs1 Hs2).
  apply NoDup_Permutation; [by apply ltb_sorted_NoDup..|].
  intros k. rewrite Hk1, Hk2. by rewrite Hperm.
  Unshelve.
  intros k1 k2 _ _ Hlt Hgt. apply ltb_asym in Hlt. congruence.
Qed.

(** C8: merging and mean scoring give the same (URL, score, count) triples
    for every order of the observations and for every run of the sort, so
    aggregating the same observations again gives the same triples. *)
Theorem aggregation_order_insensitive
    (sort1 sort2 : list Movie -> list Movie) (movies1 movies2 : list Movie) :
  SortsSlice urlLess sort1 → SortsSlice urlLess sort2 →
  movies1 ≡ₚ movies2 →
  scoreTriple <$> processResults (mergeMovies sort1 movies1)
  = scoreTriple <$> processResults (mergeMovies sort2 movies2).
Proof.
  intros H1 H2 Hperm.
  rewrite !triples_of_keys by done.
  rewrite (merged_keys_unique sort1 sort2 movies1 movies2) by done.
  apply Forall_fmap_ext, Forall_forall. intros k _. by apply tripleOf_perm.
Qed.

Lemma sampleMovies_perm : sampleMovies ≡ₚ sampleMoviesShuffled.
Proof.
  unfold sampleMovies, sampleMoviesShuffled.
  etrans; [apply perm_skip, perm_swap|]. apply perm_swap.
Qed.

Example sampleMovies_merged :
  mergeMovies (insertionSort urlLess) sampleMovies
  = [mkMovieWithRatings "/film/a/" [5]; mkMovieWithRatings "/film/x/" [7; 8]].
Proof. vm_compute. reflexivity. Qed.

Example sampleMovies_results :
  processResults (mergeMovies (insertionSort urlLess) sampleMovies)
  = [mkResult (Float64.of_int 5) 1 "/film/a/" [5];
     mkResult (Float64.div (Float64.of_int 15) (Float64.of_int 2)) 2 "/film/x/" [7; 8]].
Proof. vm_compute. reflexivity. Qed.

(** With threshold 2 the movie rated 7 and 8 is shown, with threshold 3 it
    is not. *)
Example sampleMovies_thresholds :
  let results := processResults (mergeMovies (insertionSort urlLess) sampleMovies) in
  rankResults (insertionSort resultLess) results 2
  = [mkResult (Float64.div (Float64.of_int 15) (Float64.of_int 2)) 2 "/film/x/" [7; 8]]
  ∧ rankResults (insertionSort resultLess) results 3 = []
  ∧ Float64.div (Float64.of_int 15) (Float64.of_int 2)
    = S754_finite false (15 * 2 ^ 49) (-50).
Proof. vm_compute. done. Qed.

Lemma mergeMovies_partition_witness :
  SortsSlice urlLess (insertionSort urlLess)
  ∧ sum_list ((fun g => length (mwrRatings g))
               <$> mergeMovies (insertionSort urlLess) sampleMovies)
    = length sampleMovies.
Proof.
  split; [apply insertionSort_sorts|].
  exact (proj1 (mergeMovies_partition (insertionSort urlLess) sampleMovies
                  (insertionSort_sorts urlLess))).
Defined.

Lemma aggregation_order_insensitive_witness :
  SortsSlice urlLess (insertionSort urlLess)
  ∧ sampleMovies ≡ₚ sampleMoviesShuffled
  ∧ scoreTriple <$> processResults (mergeMovies (insertionSort urlLess) sampleMovies)
    = scoreTriple <$> processResults (mergeMovies (insertionSort urlLess) sampleMoviesShuffled).
Proof.
  split; [apply insertionSort_sorts|]. split; [apply sampleMovies_perm|].
  exact (aggregation_order_insensitive _ _ _ _
           (insertionSort_sorts urlLess) (insertionSort_sorts urlLess)
           sampleMovies_perm).
Defined.

Lemma filterByThreshold_exact_witness :
  let results := processResults (mergeMovies (insertionSort urlLess) sampleMovies) in
  2 <= 3
  ∧ filterByThreshold results 3 `sublist_of` filterByThreshold results 2
  ∧ (length (filterByThreshold results 3) <= length (filterByThreshold results 2))%nat.
Proof.
  intros results.
  assert (2 <= 3) as H by lia.
  split; [exact H|].
  exact (proj2 (proj2 (filterByThreshold_exact results 2 2 3)) H).
Defined.

(** ** The order of float64 values *)

Lemma SFcompare_spec x y :
  Float64.is_nan x = false → Float64.is_nan y = false →
  match SFcompare x y with
  | Some Lt => FLt x y
  | Some Eq => FEq x y
  | Some Gt => FLt y x
  | None => False
  end.
Proof.
  unfold FLt, FEq.
  destruct x as [[]|[]| |[] m1 e1], y as [[]|[]| |[] m2 e2];
    simpl; intros Hx Hy; try discriminate; try lia.
  - destruct (Z.compare_spec e1 e2); try lia.
    change (Pos.compare_cont Eq m1 m2) with (Pos.compare m1 m2).
    destruct (Pos.compare_spec m1 m2); simpl; lia.
  - destruct (Z.compare_spec e1 e2); try lia.
    change (Pos.compare_cont Eq m1 m2) with (Pos.compare m1 m2).
    destruct (Pos.compare_spec m1 m2); simpl; lia.
Qed.

Lemma resultLess_RLt a b :
  scoreIsNumber a → scoreIsNumber b →
  (resultLess a b = true ↔ RLt a b).
Proof.
  unfold scoreIsNumber, resultLess, RLt, Float64.neqb, Float64.gtb, SFeqb, SFltb.
  intros Ha Hb.
  pose proof (SFcompare_spec _ _ Ha Hb) as Hab.
  pose proof (SFcompare_spec _ _ Hb Ha) as Hba.
  unfold FLt, FEq in *.
  destruct (SFcompare (AvgRating a) (AvgRating b)) as [[]|];
    destruct (SFcompare (AvgRating b) (AvgRating a)) as [[]|];
    simpl; try done; try lia;
    try (split; [intros; lia | intros; exfalso; lia]);
    try (split; [intros; exfalso; done | intros; exfalso; lia]).
Qed.

Lemma resultLess_orders l :
  Forall scoreIsNumber l → OrdersElements resultLess l.
Proof.
  rewrite Forall_forall. intros Hnum.
  assert (∀ x y, x ∈ l → y ∈ l → resultLess x y = false ↔ ¬ RLt x y) as Hfalse.
  { intros x y Hx Hy. rewrite <- resultLess_RLt by auto.
    destruct (resultLess x y); split; congruence. }
  repeat split.
  - intros x Hx. apply Hfalse; [done..|]. unfold RLt, FLt, FEq. lia.
  - intros x y z Hx Hy Hz. rewrite !resultLess_RLt by auto.
    unfold RLt, FLt, FEq. lia.
  - intros x y z Hx Hy Hz. rewrite !Hfalse by auto.
    unfold RLt, FLt, FEq. lia.
Qed.

Lemma notAfter_ranksBefore a b :
  scoreIsNumber a → scoreIsNumber b →
  notAfter resultLess a b → ranksBefore a b.
Proof.
  unfold notAfter, ranksBefore, resultLess, Float64.neqb, Float64.gtb,
    Float64.eqb, SFeqb, SFltb, scoreIsNumber.
  intros Ha Hb.
  pose proof (SFcompare_spec _ _ Ha Hb) as Hab.
  pose proof (SFcompare_spec _ _ Hb Ha) as Hba.
  unfold FLt, FEq in *.
  destruct (SFcompare (AvgRating a) (AvgRating b)) as [[]|];
    destruct (SFcompare (AvgRating b) (AvgRating a)) as [[]|];
    simpl; try done; try lia; auto.
Qed.

(** ** [avg] never returns NaN

    The rounding functions of [SpecFloat] keep a mantissa that is not
    negative, and bring a positive mantissa to 53 bits without losing it. *)

Lemma digits2_size p : digits2_pos p = Pos.size p.
Proof. induction p; simpl; congruence. Qed.

Lemma Zdigits2_log2 m : 0 < m → Zdigits2 m = Z.log2 m + 1.
Proof.
  destruct m as [|p|p]; try lia. intros _. simpl. rewrite digits2_size.
  destruct p; simpl; try reflexivity; lia.
Qed.

Lemma shr_1_m mrs : 0 <= shr_m mrs → shr_m (shr_1 mrs) = Z.shiftr (shr_m mrs) 1.
Proof.
  destruct mrs as [m r s]. simpl. intros H. rewrite <- Z.div2_spec.
  destruct m as [|[p|p|]|]; try reflexivity; lia.
Qed.

Lemma iter_shr_m p mrs :
  0 <= shr_m mrs →
  shr_m (SpecFloat.iter_pos shr_1 p mrs) = Z.shiftr (shr_m mrs) (Z.pos p).
Proof.
  revert mrs. induction p as [p IH|p IH|]; intros mrs H; simpl.
  - assert (0 <= shr_m (shr_1 mrs)) as H1
      by (rewrite shr_1_m by lia; apply Z.shiftr_nonneg; lia).
    assert (0 <= shr_m (SpecFloat.iter_pos shr_1 p (shr_1 mrs))) as H2
      by (rewrite IH by lia; apply Z.shiftr_nonneg; lia).
    rewrite IH, IH, shr_1_m by lia.
    rewrite !Z.shiftr_shiftr by lia. f_equal. lia.
  - assert (0 <= shr_m (SpecFloat.iter_pos shr_1 p mrs)) as H2
      by (rewrite IH by lia; apply Z.shiftr_nonneg; lia).
    rewrite IH, IH by lia.
    rewrite !Z.shiftr_shiftr by lia. f_equal. lia.
  - apply shr_1_m. lia.
Qed.

Lemma shr_record_of_loc_m m l : shr_m (shr_record_of_loc m l) = m.
Proof. destruct l as [|[]]; reflexivity. Qed.

Lemma shr_fexp_nonneg m e l :
  0 <= m → 0 <= shr_m (shr_fexp Float64.prec Float64.emax m e l).1.
Proof.
  intros Hm. unfold shr_fexp, shr.
  destruct (fexp Float64.prec Float64.emax (Zdigits2 m + e) - e) as [|p|p]; simpl;
    rewrite ?shr_record_of_loc_m; try lia.
  rewrite iter_shr_m by (rewrite shr_record_of_loc_m; lia).
  apply Z.shiftr_nonneg. rewrite shr_record_of_loc_m. lia.
Qed.

(** A positive mantissa stays positive, and its exponent moves up to where
    53 bits are left. *)
Lemma shr_fexp_pos m e l :
  0 < m → emin Float64.prec Float64.emax <= e →
  0 < shr_m (shr_fexp Float64.prec Float64.emax m e l).1
  ∧ (shr_fexp Float64.prec Float64.emax m e l).2
    = Z.max e (Z.log2 m + 1 + e - 53)
  ∧ Z.log2 (shr_m (shr_fexp Float64.prec Float64.emax m e l).1)
    + (shr_fexp Float64.prec Float64.emax m e l).2
    = Z.log2 m + e.
Proof.
  intros Hm He. unfold shr_fexp, shr, fexp.
  rewrite (Zdigits2_log2 m Hm).
  unfold emin, Float64.prec, Float64.emax in *.
  destruct (Z.max (Z.log2 m + 1 + e - 53) (3 - 1024 - 53) - e) as [|p|p] eqn:En;
    simpl fst; simpl snd; rewrite ?shr_record_of_loc_m; try lia.
  rewrite iter_shr_m by (rewrite shr_record_of_loc_m; lia).
  rewrite shr_record_of_loc_m.
  pose proof (Z.log2_nonneg m).
  assert (Z.log2 (Z.shiftr m (Z.pos p)) = 52) as Hlog
    by (rewrite Z.log2_shiftr by lia; lia).
  split; [|lia].
  destruct (Z.le_gt_cases (Z.shiftr m (Z.pos p)) 0) as [Hle|]; [|lia].
  apply Z.log2_nonpos in Hle. lia.
Qed.

Lemma round_nearest_even_bounds m l :
  m <= round_nearest_even m l <= m + 1.
Proof.
  destruct l as [|[]]; simpl; try lia. destruct (Z.even m); lia.
Qed.

Lemma binary_round_aux_nonneg s m e l :
  0 <= m → Float64.is_nan (binary_round_aux Float64.prec Float64.emax s m e l) = false.
Proof.
  intros Hm. unfold binary_round_aux.
  pose proof (shr_fexp_nonneg m e l Hm) as H1.
  destruct (shr_fexp Float64.prec Float64.emax m e l) as [mrs' e']. simpl in H1.
  pose proof (round_nearest_even_bounds (shr_m mrs') (loc_of_shr_record mrs')) as Hr.
  pose proof (shr_fexp_nonneg (round_nearest_even (shr_m mrs') (loc_of_shr_record mrs'))
                e' loc_Exact ltac:(lia)) as H2.
  destruct (shr_fexp Float64.prec Float64.emax _ e' loc_Exact) as [mrs'' e''].
  simpl in H2.
  destruct (shr_m mrs''); try lia; try reflexivity.
  destruct (e'' <=? Float64.emax - Float64.prec); reflexivity.
Qed.

Lemma log2_succ_le m : 0 < m → Z.log2 (m + 1) <= Z.log2 m + 1.
Proof.
  intros Hm. change (Z.log2 m + 1) with (Z.succ (Z.log2 m)).
  rewrite <- Z.log2_double by lia. apply Z.log2_le_mono. lia.
Qed.

(** Rounding a positive mantissa gives a number that is not zero, and a
    finite one unless the magnitude is out of reach for an [int]. *)
Lemma binary_round_aux_pos s m e :
  0 < m → emin Float64.prec Float64.emax <= e →
  match binary_round_aux Float64.prec Float64.emax s m e loc_Exact with
  | S754_finite _ _ _ => True
  | S754_infinity _ => ¬ (e <= 900 ∧ Z.log2 m + e <= 1000)
  | _ => False
  end.
Proof.
  intros Hm He. unfold binary_round_aux.
  pose proof (shr_fexp_pos m e loc_Exact Hm He) as (H1 & H1e & H1l).
  destruct (shr_fexp Float64.prec Float64.emax m e loc_Exact) as [mrs' e'].
  simpl in H1, H1e, H1l.
  pose proof (round_nearest_even_bounds (shr_m mrs') (loc_of_shr_record mrs')) as Hr.
  set (m2 := round_nearest_even (shr_m mrs') (loc_of_shr_record mrs')) in *.
  assert (Z.log2 m2 <= Z.log2 (shr_m mrs') + 1) as Hlog2.
  { etransitivity; [apply Z.log2_le_mono; apply Hr|]. apply log2_succ_le. lia. }
  assert (emin Float64.prec Float64.emax <= e') as He2 by lia.
  pose proof (shr_fexp_pos m2 e' loc_Exact ltac:(lia) He2) as (H2 & H2e & H2l).
  destruct (shr_fexp Float64.prec Float64.emax m2 e' loc_Exact) as [mrs'' e''].
  simpl in H2, H2e, H2l.
  destruct (shr_m mrs''); try lia.
  unfold Float64.prec, Float64.emax in *.
  destruct (Z.leb_spec e'' (1024 - 53)); [done|lia].
Qed.

Lemma shl_align_spec mx ex ex' :
  (shl_align mx ex ex').2 = Z.min ex ex'
  ∧ Z.log2 (Z.pos (shl_align mx ex ex').1) + (shl_align mx ex ex').2
    = Z.log2 (Z.pos mx) + ex.
Proof.
  unfold shl_align. destruct (ex' - ex) as [|d|d] eqn:E; cbn [fst snd];
    try (split; lia).
  split; [lia|].
  change (Pos.iter xO mx d) with (shift_pos d mx).
  rewrite shift_pos_correct, Z.pow_pos_fold, Z.mul_comm.
  rewrite Z.log2_mul_pow2 by lia. lia.
Qed.

Lemma binary_round_int s mx :
  match binary_round Float64.prec Float64.emax s mx 0 with
  | S754_finite _ _ _ => True
  | S754_infinity _ => ¬ (Z.log2 (Z.pos mx) <= 1000)
  | _ => False
  end.
Proof.
  unfold binary_round.
  pose proof (shl_align_spec mx 0
                (fexp Float64.prec Float64.emax (Z.pos (digits2_pos mx) + 0)))
    as [Hez Hlog].
  destruct (shl_align mx 0 _) as [mz ez]. cbn [fst snd] in Hez, Hlog.
  assert (emin Float64.prec Float64.emax <= ez ∧ ez <= 0) as [He He'].
  { rewrite Hez. unfold fexp, emin, Float64.prec, Float64.emax. lia. }
  pose proof (binary_round_aux_pos s (Z.pos mz) ez ltac:(lia) He) as H.
  destruct (binary_round_aux _ _ s (Z.pos mz) ez loc_Exact); try done.
  intros Hmx. apply H. lia.
Qed.

Lemma wrap_range z : GoInt.min_int <= GoInt.wrap z <= GoInt.max_int.
Proof.
  unfold GoInt.wrap, GoInt.min_int, GoInt.max_int.
  pose proof (Z.mod_pos_bound (z + 2 ^ 63) (2 ^ 64) ltac:(lia)). lia.
Qed.

(** [float64(n)] of an [int] is zero or another finite number. *)
Lemma of_int_finite n :
  GoInt.min_int <= n <= GoInt.max_int →
  match Float64.of_int n with
  | S754_zero _ | S754_finite _ _ _ => True
  | _ => False
  end.
Proof.
  intros Hn. unfold Float64.of_int, binary_normalize.
  destruct n as [|p|p]; [done|..].
  - pose proof (binary_round_int false p) as H.
    destruct (binary_round _ _ false p 0); try done.
    apply H. assert (Z.log2 (Z.pos p) < 64); [|lia].
    apply Z.log2_lt_pow2; unfold GoInt.max_int in Hn; lia.
  - pose proof (binary_round_int true p) as H.
    destruct (binary_round _ _ true p 0); try done.
    apply H. assert (Z.log2 (Z.pos p) < 64); [|lia].
    apply Z.log2_lt_pow2; unfold GoInt.min_int in Hn; lia.
Qed.

(** [float64(n)] of a positive [n] is neither zero nor NaN. *)
Lemma of_int_positive n :
  0 < n →
  match Float64.of_int n with
  | S754_finite _ _ _ | S754_infinity _ => True
  | _ => False
  end.
Proof.
  intros Hn. unfold Float64.of_int, binary_normalize.
  destruct n as [|p|p]; try lia.
  pose proof (binary_round_int false p) as H.
  by destruct (binary_round _ _ false p 0).
Qed.

Lemma div_is_number x y :
  match x with S754_zero _ | S754_finite _ _ _ => True | _ => False end →
  match y with S754_finite _ _ _ | S754_infinity _ => True | _ => False end →
  Float64.is_nan (Float64.div x y) = false.
Proof.
  destruct x as [sx|sx| |sx mx ex], y as [sy|sy| |sy my ey]; try done.
  intros _ _. unfold Float64.div, SFdiv, SFdiv_core_binary.
  set (m' := match _ - _ - _ with Z0 => _ | Z.pos _ => _ | Z.neg _ => _ end).
  assert (0 <= m') as Hm'.
  { unfold m'. destruct (_ - _ - _); [lia| |lia]. apply Z.shiftl_nonneg. lia. }
  pose proof (Z.div_pos m' (Z.pos my) Hm' ltac:(lia)) as Hq.
  unfold Z.div in Hq. destruct (Z.div_eucl m' (Z.pos my)) as [q r].
  by apply binary_round_aux_nonneg.
Qed.

Lemma avg_is_number lst : Float64.is_nan (avg lst) = false.
Proof.
  unfold avg, GoInt.len. destruct (Z.eqb_spec (Z.of_nat (length lst)) 0); [done|].
  apply div_is_number.
  - apply of_int_finite. rewrite sumInts_wrap. apply wrap_range.
  - apply of_int_positive. lia.
Qed.

Lemma processResults_scoreIsNumber uniqueMovies :
  Forall scoreIsNumber (processResults uniqueMovies).
Proof.
  rewrite processResults_fmap, Forall_fmap. apply Forall_forall.
  intros g _. apply avg_is_number.
Qed.

(** ** The ranking of [showResults] *)

Example f0_9_is_9_tenths :
  f0_9 = Float64.div (Float64.of_int 9) (Float64.of_int 10)
  ∧ f0_95 = Float64.div (Float64.of_int 95) (Float64.of_int 100).
Proof. vm_compute. done. Qed.

Lemma filterByThreshold_scoreIsNumber moviesList threshold :
  Forall scoreIsNumber moviesList →
  Forall scoreIsNumber (filterByThreshold moviesList threshold).
Proof.
  rewrite filterByThreshold_filter, !Forall_forall.
  intros H r Hr%list_elem_of_filter. apply H. tauto.
Qed.

(** C4, as the code has it: the ranking holds the filtered results, ordered
    by score descending and, for equal scores, by vote count descending,
    whenever no score is NaN, as is the case for the results that
    [processResults] computes; the comparison does not look at the URL.  The
    input [A, B, C] above is ranked [C, B, A]. *)
Theorem rankResults_order (sort : list Result -> list Result) :
  SortsSlice resultLess sort →
  (∀ moviesList threshold,
     Forall scoreIsNumber moviesList →
     rankResults sort moviesList threshold ≡ₚ filterByThreshold moviesList threshold
     ∧ StronglySorted ranksBefore (rankResults sort moviesList threshold))
  ∧ (∀ uniqueMovies threshold,
       rankResults sort (processResults uniqueMovies) threshold
         ≡ₚ filterByThreshold (processResults uniqueMovies) threshold
       ∧ StronglySorted ranksBefore
           (rankResults sort (processResults uniqueMovies) threshold))
  ∧ (∀ a b, resultLess a b = resultLess (mkResult (AvgRating a) (VoteCount a) "" [])
                                         (mkResult (AvgRating b) (VoteCount b) "" []))
  ∧ rankResults sort [resultA; resultB; resultC] 1 = [resultC; resultB; resultA].
Proof.
  intros Hsort.
  assert (∀ moviesList threshold,
     Forall scoreIsNumber moviesList →
     rankResults sort moviesList threshold ≡ₚ filterByThreshold moviesList threshold
     ∧ StronglySorted ranksBefore (rankResults sort moviesList threshold)) as Hgen.
  { intros moviesList threshold Hnum. unfold rankResults.
    pose proof (filterByThreshold_scoreIsNumber _ threshold Hnum) as Hnum'.
    destruct (Hsort (filterByThreshold moviesList threshold)) as [Hperm Hsorted].
    split; [done|].
    specialize (Hsorted (resultLess_orders _ Hnum')).
    rewrite Hperm in Hnum'. clear Hperm.
    induction Hsorted as [|r l _ IH Hr]; [constructor|].
    apply Forall_cons in Hnum' as [Hr' Hl].
    constructor; [by apply IH|].
    rewrite Forall_forall in Hr, Hl |- *. intros x Hx.
    apply notAfter_ranksBefore; auto. }
  split; [exact Hgen|]. split; [|split; [done|]].
  - intros uniqueMovies threshold. apply Hgen, processResults_scoreIsNumber.
  - unfold rankResults.
    change (filterByThreshold [resultA; resultB; resultC] 1)
      with [resultA; resultB; resultC].
    destruct (Hsort [resultA; resultB; resultC]) as [Hperm Hsorted].
    assert (Forall scoreIsNumber [resultA; resultB; resultC]) as Hnum
      by (repeat constructor).
    specialize (Hsorted (resultLess_orders _ Hnum)).
    assert (StronglySorted (notAfter resultLess) [resultC; resultB; resultA]) as Hcba
      by (repeat constructor).
    eapply (StronglySorted_unique_strong _ _ _ _ Hsorted Hcba).
    rewrite <- Hperm.
    etrans; [apply perm_swap|]. etrans; [apply perm_skip, perm_swap|].
    apply perm_swap.
    Unshelve.
    intros x1 x2 Hx1 Hx2. rewrite <- Hperm in Hx1.
    clear -Hx1 Hx2. unfold notAfter.
    repeat (apply elem_of_cons in Hx1 as [->|Hx1]);
      try (by apply elem_of_nil in Hx1);
      repeat (apply elem_of_cons in Hx2 as [->|Hx2]);
      try (by apply elem_of_nil in Hx2);
      try done; intros H1 H2; vm_compute in H1, H2; congruence.
Qed.

Lemma rankResults_order_witness :
  SortsSlice resultLess (insertionSort resultLess)
  ∧ Forall scoreIsNumber [resultA; resultB; resultC]
  ∧ StronglySorted ranksBefore
      (rankResults (insertionSort resultLess) [resultA; resultB; resultC] 1)
  ∧ rankResults (insertionSort resultLess) [resultA; resultB; resultC] 1
    = [resultC; resultB; resultA].
Proof.
  assert (Forall scoreIsNumber [resultA; resultB; resultC]) as Hnum
    by (repeat constructor).
  pose proof (rankResults_order (insertionSort resultLess)
                (insertionSort_sorts resultLess)) as (Hgen & _ & _ & Hex).
  split; [apply insertionSort_sorts|]. split; [exact Hnum|].
  split; [exact (proj2 (Hgen _ 1 Hnum))|exact Hex].
Defined.

(** *** The quicksort of [sort.Slice] returns a rearrangement

    Every round of [pdqsort_func] ends or goes on with a shorter range, so
    the fuel that [Slice] gives it is enough; and the slice is only ever
    changed by [data.Swap]. *)

Section PackageSortReturns.

Context {A : Type} (less : A -> A -> bool) (Next : Z -> Z).

Lemma partition_up_bounds rounds (data : list A) a i j :
  i <= partition_up less rounds data a i j.
Proof.
  revert i. induction rounds as [|rounds IH]; intros i; simpl; [lia|].
  destruct (_ && _); [|lia]. specialize (IH (i + 1)). lia.
Qed.

Lemma partition_down_bounds rounds (data : list A) a i j :
  Z.min j (i - 1) <= partition_down less rounds data a i j <= j.
Proof.
  revert j. induction rounds as [|rounds IH]; intros j; simpl; [lia|].
  destruct (Z.leb_spec i j); simpl; [|lia].
  destruct (negb _); [|lia]. specialize (IH (j - 1)). lia.
Qed.

Lemma partition_loop_bounds rounds (data : list A) a i j :
  Z.min j (i - 1) <= (partition_loop less rounds data a i j).2 <= j.
Proof.
  revert data i j. induction rounds as [|rounds IH]; intros data i j; simpl; [lia|].
  pose proof (partition_up_bounds (Z.to_nat (j + 1 - i)) data a i j) as Hi.
  set (i1 := partition_up less _ data a i j) in *.
  pose proof (partition_down_bounds (Z.to_nat (j + 1 - i1)) data a i1 j) as Hj.
  set (j1 := partition_down less _ data a i1 j) in *.
  destruct (Z.gtb_spec i1 j1); simpl; [lia|].
  specialize (IH (Swap data i1 j1) (i1 + 1) (j1 - 1)). lia.
Qed.

Lemma partition_func_bounds (data : list A) a b pivot :
  a < b → a <= (partition_func less data a b pivot).1.2 <= b - 1.
Proof.
  intros Hab. unfold partition_func. cbv zeta.
  set (data1 := Swap data a pivot).
  pose proof (partition_up_bounds (Z.to_nat (b - 1 + 1 - (a + 1))) data1 a (a + 1) (b - 1))
    as Hi.
  set (i1 := partition_up less _ data1 a (a + 1) (b - 1)) in *.
  pose proof (partition_down_bounds (Z.to_nat (b - 1 + 1 - i1)) data1 a i1 (b - 1)) as Hj.
  set (j1 := partition_down less _ data1 a i1 (b - 1)) in *.
  destruct (Z.gtb_spec i1 j1); [cbn [fst snd]; lia|].
  pose proof (partition_loop_bounds (S (Z.to_nat (j1 - 1 + 1 - (i1 + 1))))
                (Swap data1 i1 j1) a (i1 + 1) (j1 - 1)) as Hl.
  destruct (partition_loop less _ (Swap data1 i1 j1) a (i1 + 1) (j1 - 1)) as [data2 j2].
  cbn [fst snd] in *. lia.
Qed.

Lemma partitionEqual_up_bounds rounds (data : list A) a i j :
  i <= partitionEqual_up less rounds data a i j.
Proof.
  revert i. induction rounds as [|rounds IH]; intros i; simpl; [lia|].
  destruct (_ && _); [|lia]. specialize (IH (i + 1)). lia.
Qed.

Lemma partitionEqual_loop_bounds rounds (data : list A) a i j :
  i <= (partitionEqual_loop less rounds data a i j).2.
Proof.
  revert data i j. induction rounds as [|rounds IH]; intros data i j; simpl; [lia|].
  pose proof (partitionEqual_up_bounds (Z.to_nat (j + 1 - i)) data a i j) as Hi.
  set (i1 := partitionEqual_up less _ data a i j) in *.
  set (j1 := partitionEqual_down less _ data a i1 j).
  destruct (i1 >? j1); simpl; [lia|].
  specialize (IH (Swap data i1 j1) (i1 + 1) (j1 - 1)). lia.
Qed.

Lemma partitionEqual_func_bounds (data : list A) a b pivot :
  a + 1 <= (partitionEqual_func less data a b pivot).2.
Proof. unfold partitionEqual_func. apply partitionEqual_loop_bounds. Qed.

Lemma pdqsort_loop_returns fuel (data : list A) a b limit wasBalanced wasPartitioned :
  Z.max 0 (b - a) < Z.of_nat fuel →
  is_Some (pdqsort_loop less Next fuel data a b limit wasBalanced wasPartitioned).
Proof.
  revert data a b limit wasBalanced wasPartitioned.
  induction fuel as [|fuel IH]; intros data a b limit wasBalanced wasPartitioned Hfuel.
  - lia.
  - cbn [pdqsort_loop].
    destruct (Z.leb_spec (b - a) 12) as [_|Hlen]; [by eexists|].
    destruct (limit =? 0); [by eexists|].
    destruct (if negb wasBalanced then _ else _) as [data1 limit1].
    destruct (choosePivot_func less data1 a b) as [pivot hint].
    destruct (match hint with decreasingHint => _ | _ => _ end)
      as [[data2 pivot2] hint2].
    destruct (match hint2 with increasingHint => _ | _ => _ end) as [data3 sorted].
    destruct sorted; [by eexists|].
    destruct (_ && _).
    + pose proof (partitionEqual_func_bounds data3 a b pivot2) as Hmid.
      destruct (partitionEqual_func less data3 a b pivot2) as [data4 mid].
      simpl in Hmid. apply IH. lia.
    + pose proof (partition_func_bounds data3 a b pivot2 ltac:(lia)) as Hmid.
      destruct (partition_func less data3 a b pivot2) as [[data4 mid] alreadyPartitioned].
      simpl in Hmid.
      destruct (mid - a <? b - mid).
      * destruct (IH data4 a mid limit1 true true ltac:(lia)) as [data5 ->].
        apply IH. lia.
      * destruct (IH data4 (mid + 1) b limit1 true true ltac:(lia)) as [data5 ->].
        apply IH. lia.
Qed.

(** [Slice] never runs out of fuel. *)
Lemma Slice_returns (x : list A) :
  pdqsort_func less Next (S (length x)) x 0 (GoInt.len x) (bitsLen (GoInt.len x))
  = Some (Slice less Next x).
Proof.
  unfold Slice.
  destruct (pdqsort_loop_returns (S (length x)) x 0 (GoInt.len x)
              (bitsLen (GoInt.len x)) true true) as [out Hout].
  { unfold GoInt.len. lia. }
  unfold pdqsort_func. by rewrite Hout.
Qed.

Lemma Swap_perm (data : list A) i j : Swap data i j ≡ₚ data.
Proof.
  unfold Swap, elemAt. destruct (i <? 0); [done|]. destruct (j <? 0).
  { by destruct (data !! Z.to_nat i). }
  destruct (data !! Z.to_nat i) as [x|] eqn:Hi; [|done].
  destruct (data !! Z.to_nat j) as [y|] eqn:Hj; [|done].
  by apply Permutation_insert_swap.
Qed.

Lemma fold_left_perm {B} (step : list A -> B -> list A) (l : list B) data :
  (∀ data i, step data i ≡ₚ data) → fold_left step l data ≡ₚ data.
Proof.
  intros Hstep. revert data. induction l as [|i l IH]; intros data; [done|].
  simpl. by rewrite IH.
Qed.

Lemma fold_left_state_perm {B S} (step : list A * S -> B -> list A * S)
    (l : list B) st :
  (∀ st i, (step st i).1 ≡ₚ st.1) → (fold_left step l st).1 ≡ₚ st.1.
Proof.
  intros Hstep. revert st. induction l as [|i l IH]; intros st; [done|].
  simpl. by rewrite IH.
Qed.

Lemma insertionSort_inner_perm rounds (data : list A) a j :
  insertionSort_inner less rounds data a j ≡ₚ data.
Proof.
  revert data j. induction rounds as [|rounds IH]; intros data j; simpl; [done|].
  destruct (_ && _); [|done]. by rewrite IH, Swap_perm.
Qed.

Lemma insertionSort_func_perm (data : list A) a b :
  insertionSort_func less data a b ≡ₚ data.
Proof.
  unfold insertionSort_func. apply fold_left_perm.
  intros. apply insertionSort_inner_perm.
Qed.

Lemma siftDown_func_perm (data : list A) lo hi first :
  siftDown_func less data lo hi first ≡ₚ data.
Proof.
  unfold siftDown_func. generalize (Z.to_nat hi). intros rounds.
  revert data lo. induction rounds as [|rounds IH]; intros data root; simpl; [done|].
  destruct (_ >=? _); [done|]. destruct (negb _); [done|].
  by rewrite IH, Swap_perm.
Qed.

Lemma heapSort_func_perm (data : list A) a b : heapSort_func less data a b ≡ₚ data.
Proof.
  unfold heapSort_func. cbv zeta. rewrite fold_left_perm.
  - apply fold_left_perm. intros. apply siftDown_func_perm.
  - intros. by rewrite siftDown_func_perm, Swap_perm.
Qed.

Lemma partition_loop_perm rounds (data : list A) a i j :
  (partition_loop less rounds data a i j).1 ≡ₚ data.
Proof.
  revert data i j. induction rounds as [|rounds IH]; intros data i j; simpl; [done|].
  destruct (_ >? _); [done|]. by rewrite IH, Swap_perm.
Qed.

Lemma partition_func_perm (data : list A) a b pivot :
  (partition_func less data a b pivot).1.1 ≡ₚ data.
Proof.
  unfold partition_func. cbv zeta.
  destruct (_ >? _); cbn [fst]; [by rewrite !Swap_perm|].
  match goal with
  | |- context [partition_loop less ?r ?d ?a ?i ?j] =>
      pose proof (partition_loop_perm r d a i j) as Hloop;
      destruct (partition_loop less r d a i j) as [data2 j2]
  end.
  cbn [fst] in *. by rewrite Swap_perm, Hloop, !Swap_perm.
Qed.

Lemma partitionEqual_func_perm (data : list A) a b pivot :
  (partitionEqual_func less data a b pivot).1 ≡ₚ data.
Proof.
  unfold partitionEqual_func. cbv zeta.
  generalize (S (Z.to_nat (b - 1 + 1 - (a + 1)))). intros rounds.
  rewrite <- (Swap_perm data a pivot) at 2.
  generalize (Swap data a pivot) (a + 1) (b - 1). clear data.
  induction rounds as [|rounds IH]; intros data i j; simpl; [done|].
  destruct (_ >? _); [done|]. by rewrite IH, Swap_perm.
Qed.

Lemma partialInsertionSort_left_perm rounds (data : list A) j :
  partialInsertionSort_left less rounds data j ≡ₚ data.
Proof.
  revert data j. induction rounds as [|rounds IH]; intros data j; simpl; [done|].
  destruct (_ >=? _); [|done]. destruct (negb _); [done|].
  by rewrite IH, Swap_perm.
Qed.

Lemma partialInsertionSort_right_perm rounds (data : list A) j b :
  partialInsertionSort_right less rounds data j b ≡ₚ data.
Proof.
  revert data j. induction rounds as [|rounds IH]; intros data j; simpl; [done|].
  destruct (_ <? _); [|done]. destruct (negb _); [done|].
  by rewrite IH, Swap_perm.
Qed.

Lemma partialInsertionSort_func_perm (data : list A) a b :
  (partialInsertionSort_func less data a b).1 ≡ₚ data.
Proof.
  unfold partialInsertionSort_func. generalize 5%nat (a + 1). intros steps.
  revert data. induction steps as [|steps IH]; intros data i; simpl; [done|].
  destruct (_ =? _); [done|]. destruct (_ <? _); [done|].
  rewrite IH.
  assert (∀ (c : bool) (d d' : list A), d ≡ₚ d' → (if c then d else d') ≡ₚ d') as Hif
    by (by intros []).
  rewrite Hif by apply partialInsertionSort_right_perm.
  rewrite Hif by apply partialInsertionSort_left_perm.
  apply Swap_perm.
Qed.

Lemma breakPatterns_func_perm (data : list A) a b :
  breakPatterns_func Next data a b ≡ₚ data.
Proof.
  unfold breakPatterns_func. cbv zeta. destruct (_ >=? _); [|done].
  apply (fold_left_state_perm _ _ (data, b - a)).
  intros [d random] i. apply Swap_perm.
Qed.

Lemma reverseRange_func_perm (data : list A) a b : reverseRange_func data a b ≡ₚ data.
Proof.
  unfold reverseRange_func. generalize (Z.to_nat (b - a)) (b - 1). intros rounds.
  revert data a. induction rounds as [|rounds IH]; intros data i j; simpl; [done|].
  destruct (_ <? _); [|done]. by rewrite IH, Swap_perm.
Qed.

Lemma pdqsort_loop_perm fuel (data out : list A) a b limit wasBalanced wasPartitioned :
  pdqsort_loop less Next fuel data a b limit wasBalanced wasPartitioned = Some out →
  out ≡ₚ data.
Proof.
  revert data out a b limit wasBalanced wasPartitioned.
  induction fuel as [|fuel IH]; intros data out a b limit wasBalanced wasPartitioned;
    [done|].
  cbn [pdqsort_loop].
  destruct (_ <=? 12); [intros [= <-]; apply insertionSort_func_perm|].
  destruct (limit =? 0); [intros [= <-]; apply heapSort_func_perm|].
  assert ((if negb wasBalanced then (breakPatterns_func Next data a b, limit - 1)
           else (data, limit)).1 ≡ₚ data) as H1.
  { destruct (negb wasBalanced); [apply breakPatterns_func_perm|done]. }
  destruct (if negb wasBalanced then _ else _) as [data1 limit1]. simpl in H1.
  destruct (choosePivot_func less data1 a b) as [pivot hint].
  assert ((match hint with
           | decreasingHint =>
               (reverseRange_func data1 a b, b - 1 - (pivot - a), increasingHint)
           | _ => (data1, pivot, hint)
           end).1.1 ≡ₚ data1) as H2.
  { destruct hint; [done..|apply reverseRange_func_perm]. }
  destruct (match hint with decreasingHint => _ | _ => _ end)
    as [[data2 pivot2] hint2]. simpl in H2.
  assert ((match hint2 with
           | increasingHint =>
               if wasBalanced && wasPartitioned
               then partialInsertionSort_func less data2 a b else (data2, false)
           | _ => (data2, false)
           end).1 ≡ₚ data2) as H3.
  { destruct hint2; [done| |done].
    destruct (_ && _); [apply partialInsertionSort_func_perm|done]. }
  destruct (match hint2 with increasingHint => _ | _ => _ end) as [data3 sorted].
  simpl in H3.
  assert (data3 ≡ₚ data) as H4 by (by rewrite H3, H2, H1).
  destruct sorted; [by intros [= <-]|].
  destruct (_ && _).
  - pose proof (partitionEqual_func_perm data3 a b pivot2) as Hp.
    destruct (partitionEqual_func less data3 a b pivot2) as [data4 mid].
    simpl in Hp. intros ->%IH. by rewrite Hp.
  - pose proof (partition_func_perm data3 a b pivot2) as Hp.
    destruct (partition_func less data3 a b pivot2) as [[data4 mid] alreadyPartitioned].
    simpl in Hp.
    destruct (_ <? _).
    + destruct (pdqsort_loop less Next fuel data4 a mid limit1 true true)
        as [data5|] eqn:H5; [|done].
      apply IH in H5. intros ->%IH. by rewrite H5, Hp.
    + destruct (pdqsort_loop less Next fuel data4 (mid + 1) b limit1 true true)
        as [data5|] eqn:H5; [|done].
      apply IH in H5. intros ->%IH. by rewrite H5, Hp.
Qed.

(** What [sort.Slice] leaves in the slice is a rearrangement of what was
    there. *)
Lemma Slice_perm (x : list A) : x ≡ₚ Slice less Next x.
Proof.
  symmetry. eapply pdqsort_loop_perm. apply Slice_returns.
Qed.

(** On a slice of at most 12 elements [sort.Slice] is the insertion sort
    [insertionSort]. *)
Lemma elemAt_nat (data : list A) (n : nat) : elemAt data (Z.of_nat n) = data !! n.
Proof.
  unfold elemAt. destruct (Z.ltb_spec (Z.of_nat n) 0); [lia|]. by rewrite Nat2Z.id.
Qed.

Lemma adjacent_elems (pre : list A) y x suffix :
  elemAt (pre ++ y :: x :: suffix) (Z.of_nat (S (length pre))) = Some x
  ∧ elemAt (pre ++ y :: x :: suffix) (Z.of_nat (S (length pre)) - 1) = Some y.
Proof.
  replace (Z.of_nat (S (length pre)) - 1) with (Z.of_nat (length pre)) by lia.
  rewrite !elemAt_nat. split.
  - rewrite lookup_app_r by lia. by replace (S (length pre) - length pre)%nat with 1%nat by lia.
  - by rewrite list_lookup_middle.
Qed.

Lemma Swap_adjacent (pre : list A) y x suffix :
  Swap (pre ++ y :: x :: suffix) (Z.of_nat (S (length pre))) (Z.of_nat (S (length pre)) - 1)
  = pre ++ x :: y :: suffix.
Proof.
  unfold Swap. destruct (adjacent_elems pre y x suffix) as [-> ->].
  replace (Z.to_nat (Z.of_nat (S (length pre)) - 1)) with (length pre) by lia.
  rewrite Nat2Z.id.
  rewrite (insert_app_r_alt pre _ (S (length pre))) by lia.
  replace (S (length pre) - length pre)%nat with 1%nat by lia. simpl.
  rewrite (insert_app_r_alt pre _ (length pre)) by lia.
  by rewrite Nat.sub_diag.
Qed.

Lemma insertionSort_inner_sink (before : list A) x suffix rounds :
  (length before <= rounds)%nat →
  insertionSort_inner less rounds (rev before ++ x :: suffix) 0 (Z.of_nat (length before))
  = rev (sink less x before) ++ suffix.
Proof.
  revert rounds suffix. induction before as [|y before IH]; intros rounds suffix Hrounds.
  - destruct rounds; done.
  - destruct rounds as [|rounds]; [simpl in Hrounds; lia|].
    cbn [insertionSort_inner rev sink length]. rewrite <- app_assoc. cbn [app].
    rewrite <- (length_rev before).
    unfold Less. destruct (adjacent_elems (rev before) y x suffix) as [-> ->].
    destruct (Z.gtb_spec (Z.of_nat (S (length (rev before)))) 0); [|lia]. cbn [andb].
    destruct (less x y).
    + rewrite Swap_adjacent.
      replace (Z.of_nat (S (length (rev before))) - 1) with (Z.of_nat (length before))
        by (rewrite length_rev; lia).
      rewrite IH by (simpl in Hrounds; lia). cbn [rev]. by rewrite <- app_assoc.
    + cbn [rev]. by rewrite <- !app_assoc.
Qed.

Lemma sink_length (x : A) before : length (sink less x before) = S (length before).
Proof.
  induction before as [|y before IH]; [done|]. simpl.
  destruct (less x y); simpl; by rewrite ?IH.
Qed.

Lemma insertionSort_func_sink (rest before : list A) :
  fold_left (fun data i => insertionSort_inner less (Z.to_nat (i - 0)) data 0 i)
    (seqZ (Z.of_nat (length before)) (Z.of_nat (length rest))) (rev before ++ rest)
  = rev (fold_left (fun before x => sink less x before) rest before).
Proof.
  revert before. induction rest as [|x rest IH]; intros before.
  - simpl. by rewrite app_nil_r.
  - rewrite seqZ_cons by (simpl; lia). cbn [fold_left].
    rewrite insertionSort_inner_sink by lia.
    replace (Z.succ (Z.of_nat (length before)))
      with (Z.of_nat (length (sink less x before))) by (rewrite sink_length; lia).
    replace (Z.pred (Z.of_nat (length (x :: rest)))) with (Z.of_nat (length rest))
      by (simpl; lia).
    apply IH.
Qed.

Lemma insertionSort_func_whole (x : list A) :
  insertionSort_func less x 0 (GoInt.len x) = insertionSort less x.
Proof.
  unfold insertionSort_func, insertionSort, GoInt.len.
  destruct x as [|y rest]; [done|].
  replace (Z.of_nat (length (y :: rest)) - (0 + 1)) with (Z.of_nat (length rest))
    by (simpl; lia).
  apply (insertionSort_func_sink rest [y]).
Qed.

Lemma Slice_short (x : list A) :
  (length x <= 12)%nat → Slice less Next x = insertionSort less x.
Proof.
  intros Hlen. unfold Slice, pdqsort_func. cbn [pdqsort_loop].
  destruct (Z.leb_spec (GoInt.len x - 0) 12) as [_|H]; [|unfold GoInt.len in H; lia].
  simpl. apply insertionSort_func_whole.
Qed.

End PackageSortReturns.

(** On the three sample results [sort.Slice] runs insertion sort only. *)
Lemma sample_Slice_ranking (Next : Z -> Z) :
  Slice resultLess Next [resultA; resultB; resultC]
  = insertionSort resultLess [resultA; resultB; resultC]
  ∧ rankResults (Slice resultLess Next) [resultA; resultB; resultC] 1
    = [resultC; resultB; resultA].
Proof. by vm_compute. Qed.

(** The collector can return the thirteen movies of the one friend [u]. *)
Lemma thirteenMovies_collected : collectMoviesParallel ["u"] [] thirteenMovies.
Proof.
  unfold collectMoviesParallel.
  eapply rtc_l; [apply (step_acquire _ _ [] "u" [] [] [] []); by vm_compute|].
  eapply rtc_l.
  { apply (step_finish _ _ [] [] "u" [] [] [] thirteenMovies).
    exists thirteenNet, 1%nat, []. eexists. by vm_compute. }
  eapply rtc_l; [apply (step_receive _ _ [] [] _ [] [])|].
  simpl. apply rtc_refl.
Qed.

(** [main] hands [showResults] the results in ascending order of their
    URLs.  For the thirteen movies of one friend, the first twelve tied and
    the last one rated higher, [sort.Slice] runs its quicksort: the first
    partition takes the movie in the middle, [/film/g/], for the pivot and
    puts it first, then [/film/m/] moves in front of it and [/film/b/]
    goes to the end.  The tied movies [/film/g/] and [/film/c/] now stand
    against the order of their URLs, and insertion sort on the rest leaves
    them so: the ranking does not order ties by URL. *)
Lemma rankResults_ties_not_by_URL :
  collectMoviesParallel ["u"] [] thirteenMovies
  ∧ ∀ Next : Z -> Z,
      let moviesList :=
        processResults (mergeMovies (Slice urlLess Next) thirteenMovies) in
      resURL <$> moviesList
      = ["/film/a/"; "/film/b/"; "/film/c/"; "/film/d/"; "/film/e/"; "/film/f/";
         "/film/g/"; "/film/h/"; "/film/i/"; "/film/j/"; "/film/k/"; "/film/l/";
         "/film/m/"]
      ∧ pdqsort_func resultLess Next 14 (filterByThreshold moviesList 1) 0 13 4
        = Some (rankResults (Slice resultLess Next) moviesList 1)
      ∧ resURL <$> rankResults (Slice resultLess Next) moviesList 1
        = ["/film/m/"; "/film/g/"; "/film/c/"; "/film/d/"; "/film/e/"; "/film/f/";
           "/film/a/"; "/film/h/"; "/film/i/"; "/film/j/"; "/film/k/"; "/film/l/";
           "/film/b/"]
      ∧ ¬ tiesByURL (rankResults (Slice resultLess Next) moviesList 1).
Proof.
  split; [exact thirteenMovies_collected|]. intros Next moviesList.
  split; [by vm_compute|]. split; [by vm_compute|]. split; [by vm_compute|].
  intros H.
  specialize (H 1%nat 2%nat (mkResult (Float64.of_int 8) 1 "/film/g/" [8])
                (mkResult (Float64.of_int 8) 1 "/film/c/" [8])).
  assert (String.ltb "/film/c/" "/film/g/" = true) as Hlt by (by vm_compute).
  simpl resURL in H. rewrite H in Hlt; [done|lia|by vm_compute..].
Qed.

(** ** Fetching *)

Section FetchProperties.

Variable net : Network.

Lemma replicate_S_snoc (log : Log) (j : nat) (url : string) :
  log ++ replicate (S j) url = (log ++ [url]) ++ replicate j url.
Proof. by rewrite <- app_assoc. Qed.

Lemma getPage_retry_failed remaining url log :
  (∀ j, (j < remaining)%nat → failed (net (log ++ replicate j url) url)) →
  getPage_retry net remaining url log = (None, log ++ replicate remaining url).
Proof.
  revert log. induction remaining as [|remaining IH]; intros log Hfail; simpl.
  - by rewrite app_nil_r.
  - pose proof (Hfail 0%nat ltac:(lia)) as H0. simpl in H0. rewrite app_nil_r in H0.
    assert (getPage_retry net remaining url (log ++ [url])
            = (None, log ++ url :: replicate remaining url)) as Hrest.
    { rewrite IH; [by rewrite <- app_assoc|].
      intros j Hj. rewrite <- replicate_S_snoc. apply Hfail. lia. }
    destruct (net log url) as [|code body]; [done|].
    simpl in H0. destruct (Z.eqb_spec code 200); done.
Qed.


Lemma getPage_retry_attempts remaining url log :
  ∃ attempts : nat,
    (attempts <= remaining)%nat ∧ (0 < remaining → 0 < attempts)%nat
    ∧ (getPage_retry net remaining url log).2 = log ++ replicate attempts url.
Proof.
  revert log. induction remaining as [|remaining IH]; intros log; simpl.
  - exists 0%nat. simpl. rewrite app_nil_r. repeat split; lia.
  - destruct (IH (log ++ [url])) as (k & Hk & _ & Hlog).
    assert (∃ attempts : nat, (attempts <= S remaining)%nat
              ∧ (0 < S remaining → 0 < attempts)%nat
              ∧ (getPage_retry net remaining url (log ++ [url])).2
                = log ++ replicate attempts url) as Hretry.
    { exists (S k). rewrite Hlog, replicate_S_snoc. repeat split; lia. }
    destruct (net log url) as [|code body]; [done|].
    destruct (code =? 200); [|done].
    exists 1%nat. repeat split; lia.
Qed.

Lemma ratedStep_flag_one excludeMap movies flag s :
  (ratedStep excludeMap (movies, flag) s).2
  = flag || (bool_decide (is_Some (dataTargetLink s))
             && bool_decide (is_Some (ratingElem s))).
Proof.
  unfold ratedStep.
  destruct (dataTargetLink s) as [newTitle|]; simpl; [|by rewrite orb_false_r].
  destruct (ratingElem s) as [[ratingClass|]|]; simpl;
    [| by rewrite orb_true_r | by rewrite orb_false_r].
  destruct (Atoi _) as [rating [err|]]; [by rewrite orb_true_r|].
  destruct (negb _); by rewrite orb_true_r.
Qed.

Lemma ratedStep_flag excludeMap posters movies flag :
  (fold_left (ratedStep excludeMap) posters (movies, flag)).2
  = flag || existsb (fun s => bool_decide (is_Some (dataTargetLink s))
                              && bool_decide (is_Some (ratingElem s))) posters.
Proof.
  revert movies flag. induction posters as [|s posters IH]; intros movies flag.
  - simpl. by rewrite orb_false_r.
  - cbn [fold_left existsb].
    pose proof (ratedStep_flag_one excludeMap movies flag s) as Hone.
    destruct (ratedStep excludeMap (movies, flag) s) as [movies' flag'].
    simpl in Hone. rewrite IH, Hone. by rewrite orb_assoc.
Qed.

Lemma getRatedMovies_loop_page fuel excludeMap url movies log doc log' :
  getPage net url log = (Some doc, log') →
  getRatedMovies_loop net (S fuel) excludeMap url movies log
  = if negb (ratedOnPage doc) then Some (pageMovies excludeMap doc movies, log')
    else match paginationNext doc with
         | None => Some (pageMovies excludeMap doc movies, log')
         | Some nextLink =>
             getRatedMovies_loop net fuel excludeMap
               ("https://letterboxd.com" +:+ nextLink)
               (pageMovies excludeMap doc movies) log'
         end.
Proof.
  intros Hpage. simpl. rewrite Hpage. unfold pageMovies, ratedOnPage.
  pose proof (ratedStep_flag excludeMap (posterContainers doc) movies false) as Hflag.
  destruct (fold_left _ _ _) as [movies' moviesOnPage]. simpl in *.
  by rewrite Hflag.
Qed.

End FetchProperties.


(** ** The crawl of the rated movies *)

(** C6, as the code has it: the crawl stops at the first page without a
    rated entry (no poster with a target link and a rating element), with
    or without a next link on that page.  When pages 1 and 2 hold a rated
    entry and a next link and page 3 holds no rated entry, the crawl returns
    after page 3, and every request it sent went to one of the three pages. *)
Theorem getRatedMovies_stops_at_unrated_page
    (net : Network) (excludeMap : gmap string bool) (fuel : nat)
    (url1 : string) (movies : list Movie) (log0 log1 log2 log3 : Log)
    (d1 d2 d3 : Document) (next1 next2 : string) :
  getPage net url1 log0 = (Some d1, log1) →
  ratedOnPage d1 = true → paginationNext d1 = Some next1 →
  getPage net ("https://letterboxd.com" +:+ next1) log1 = (Some d2, log2) →
  ratedOnPage d2 = true → paginationNext d2 = Some next2 →
  getPage net ("https://letterboxd.com" +:+ next2) log2 = (Some d3, log3) →
  ratedOnPage d3 = false →
  getRatedMovies_loop net (3 + fuel) excludeMap url1 movies log0
  = Some (pageMovies excludeMap d3
            (pageMovies excludeMap d2 (pageMovies excludeMap d1 movies)), log3)
  ∧ pageMovies excludeMap d3 (pageMovies excludeMap d2 (pageMovies excludeMap d1 movies))
    = pageMovies excludeMap d2 (pageMovies excludeMap d1 movies)
  ∧ ∃ k1 k2 k3 : nat,
      log3 = log0 ++ replicate k1 url1
               ++ replicate k2 ("https://letterboxd.com" +:+ next1)
               ++ replicate k3 ("https://letterboxd.com" +:+ next2).
Proof.
  intros Hp1 Hr1 Hn1 Hp2 Hr2 Hn2 Hp3 Hr3.
  split; [|split].
  - change (3 + fuel)%nat with (S (S (S fuel))).
    rewrite (getRatedMovies_loop_page net _ _ _ _ _ _ _ Hp1), Hr1, Hn1. simpl negb.
    rewrite (getRatedMovies_loop_page net _ _ _ _ _ _ _ Hp2), Hr2, Hn2. simpl negb.
    rewrite (getRatedMovies_loop_page net _ _ _ _ _ _ _ Hp3), Hr3. done.
  - generalize (pageMovies excludeMap d2 (pageMovies excludeMap d1 movies)).
    intros acc. unfold pageMovies, ratedOnPage in *.
    revert acc. induction (posterContainers d3) as [|s posters IH]; intros acc; [done|].
    simpl in Hr3. apply orb_false_iff in Hr3 as [Hs Hposters].
    cbn [fold_left]. unfold ratedStep at 2.
    destruct (dataTargetLink s) as [newTitle|]; [|by apply IH].
    destruct (ratingElem s) as [class|]; [|by apply IH].
    rewrite !bool_decide_eq_true_2 in Hs by eauto. done.
  - destruct (getPage_retry_attempts net 10 url1 log0) as (k1 & _ & _ & H1).
    destruct (getPage_retry_attempts net 10 ("https://letterboxd.com" +:+ next1) log1)
      as (k2 & _ & _ & H2).
    destruct (getPage_retry_attempts net 10 ("https://letterboxd.com" +:+ next2) log2)
      as (k3 & _ & _ & H3).
    fold (getPage net url1 log0) in H1. rewrite Hp1 in H1.
    fold (getPage net ("https://letterboxd.com" +:+ next1) log1) in H2. rewrite Hp2 in H2.
    fold (getPage net ("https://letterboxd.com" +:+ next2) log2) in H3. rewrite Hp3 in H3.
    simpl in H1, H2, H3. exists k1, k2, k3. rewrite H3, H2, H1.
    by rewrite <- !app_assoc.
Qed.

Example sample_crawl :
  getRatedMovies (sampleNet page3unrated) 3 "u" [] []
  = Some ([mkMovie "/film/a/" 8; mkMovie "/film/b/" 6],
          ["https://letterboxd.com/u/films/by/member-rating/";
           "https://letterboxd.com/u/films/by/member-rating/page/2/";
           "https://letterboxd.com/u/films/by/member-rating/page/2/";
           "https://letterboxd.com/u/films/by/member-rating/page/3/"]).
Proof. vm_compute. reflexivity. Qed.

Lemma getRatedMovies_stops_at_unrated_page_witness :
  paginationNext page3unrated = Some "/u/films/by/member-rating/page/4/"
  ∧ getRatedMovies_loop (sampleNet page3unrated) 3 ∅
      "https://letterboxd.com/u/films/by/member-rating/" [] []
    = Some ([mkMovie "/film/a/" 8; mkMovie "/film/b/" 6],
            ["https://letterboxd.com/u/films/by/member-rating/";
             "https://letterboxd.com/u/films/by/member-rating/page/2/";
             "https://letterboxd.com/u/films/by/member-rating/page/2/";
             "https://letterboxd.com/u/films/by/member-rating/page/3/"]).
Proof.
  split; [reflexivity|].
  refine (eq_trans
    (proj1 (getRatedMovies_stops_at_unrated_page (sampleNet page3unrated) ∅ 0
       "https://letterboxd.com/u/films/by/member-rating/" [] []
       ["https://letterboxd.com/u/films/by/member-rating/"]
       ["https://letterboxd.com/u/films/by/member-rating/";
        "https://letterboxd.com/u/films/by/member-rating/page/2/";
        "https://letterboxd.com/u/films/by/member-rating/page/2/"]
       ["https://letterboxd.com/u/films/by/member-rating/";
        "https://letterboxd.com/u/films/by/member-rating/page/2/";
        "https://letterboxd.com/u/films/by/member-rating/page/2/";
        "https://letterboxd.com/u/films/by/member-rating/page/3/"]
       page1 page2 page3unrated
       "/u/films/by/member-rating/page/2/" "/u/films/by/member-rating/page/3/"
       _ _ _ _ _ _ _ _)) _);
    vm_compute; reflexivity.
Defined.

(** Page 3 holds one rated entry, which is excluded: the page adds no movie
    and has a next link, and the crawl goes on to page 4. *)
Lemma getRatedMovies_goes_past_empty_page :
  pageMovies (makeExcludeMap ["/film/c/"]) page3excluded
    [mkMovie "/film/a/" 8; mkMovie "/film/b/" 6]
  = [mkMovie "/film/a/" 8; mkMovie "/film/b/" 6]
  ∧ paginationNext page3excluded = Some "/u/films/by/member-rating/page/4/"
  ∧ getRatedMovies (sampleNet page3excluded) 4 "u" ["/film/c/"] []
    = Some ([mkMovie "/film/a/" 8; mkMovie "/film/b/" 6],
            ["https://letterboxd.com/u/films/by/member-rating/";
             "https://letterboxd.com/u/films/by/member-rating/page/2/";
             "https://letterboxd.com/u/films/by/member-rating/page/2/";
             "https://letterboxd.com/u/films/by/member-rating/page/3/";
             "https://letterboxd.com/u/films/by/member-rating/page/4/"]).
Proof. vm_compute. done. Qed.


(** ** The excluded movies *)

Lemma makeExcludeMap_from excludeMovies (start : gmap string bool) k :
  fold_left (fun excludeMap m => <[m := true]> excludeMap) excludeMovies start !! k
  = if bool_decide (k ∈ excludeMovies) then Some true else start !! k.
Proof.
  revert start. induction excludeMovies as [|m l IH]; intros start; [done|].
  cbn [fold_left].
  - rewrite IH. destruct (decide (k ∈ l)) as [Hin|Hnotin].
    + rewrite !bool_decide_eq_true_2; [done| |done]. by apply elem_of_cons; right.
    + rewrite (bool_decide_eq_false_2 (k ∈ l)) by done.
      destruct (decide (k = m)) as [->|Hne].
      * rewrite lookup_insert_eq, bool_decide_eq_true_2; [done|]. by apply elem_of_cons; left.
      * rewrite lookup_insert_ne by done.
        rewrite bool_decide_eq_false_2; [done|].
        intros [?|?]%elem_of_cons; done.
Qed.

Lemma excluded_spec excludeMovies k :
  excluded (makeExcludeMap excludeMovies) k = true ↔ k ∈ excludeMovies.
Proof.
  unfold excluded, makeExcludeMap. rewrite makeExcludeMap_from, lookup_empty.
  case_bool_decide; simpl; split; done.
Qed.

Lemma ratedStep_noneExcluded excludeMovies st s :
  noneExcluded excludeMovies st.1 →
  noneExcluded excludeMovies (ratedStep (makeExcludeMap excludeMovies) st s).1.
Proof.
  destruct st as [movies flag]. unfold ratedStep, noneExcluded. simpl. intros H.
  destruct (dataTargetLink s) as [newTitle|]; [|done].
  destruct (ratingElem s) as [[ratingClass|]|]; [|done..].
  destruct (Atoi _) as [rating [err|]]; [done|].
  destruct (excluded _ newTitle) eqn:E; simpl; [done|].
  apply Forall_app. split; [done|]. constructor; [|constructor]. simpl.
  intros Hin%excluded_spec. congruence.
Qed.

Lemma pageMovies_noneExcluded excludeMovies posters st :
  noneExcluded excludeMovies st.1 →
  noneExcluded excludeMovies
    (fold_left (ratedStep (makeExcludeMap excludeMovies)) posters st).1.
Proof.
  revert st. induction posters as [|s posters IH]; intros st H; [done|].
  cbn [fold_left]. apply IH. by apply ratedStep_noneExcluded.
Qed.

Lemma getRatedMovies_loop_noneExcluded net fuel excludeMovies url movies log out log' :
  noneExcluded excludeMovies movies →
  getRatedMovies_loop net fuel (makeExcludeMap excludeMovies) url movies log
  = Some (out, log') →
  noneExcluded excludeMovies out.
Proof.
  revert url movies log. induction fuel as [|fuel IH]; intros url movies log Hm; [done|].
  destruct (getPage net url log) as [[doc|] log1] eqn:Hpage.
  - rewrite (getRatedMovies_loop_page net _ _ _ _ _ _ _ Hpage).
    assert (noneExcluded excludeMovies
              (pageMovies (makeExcludeMap excludeMovies) doc movies)) as Hpm
      by by apply (pageMovies_noneExcluded _ _ (movies, false)).
    destruct (negb (ratedOnPage doc)); [by intros [= <- _]|].
    destruct (paginationNext doc) as [nextLink|]; [|by intros [= <- _]].
    by apply IH.
  - simpl. rewrite Hpage. by intros [= <- _].
Qed.

Lemma ratedMoviesOf_noneExcluded username excludeMovies movies :
  ratedMoviesOf username excludeMovies movies → noneExcluded excludeMovies movies.
Proof.
  intros (net & fuel & log & log' & H).
  eapply getRatedMovies_loop_noneExcluded; [|exact H]. constructor.
Qed.

Lemma collectorStep_inv capacity excludeMovies st st' :
  collectorStep capacity excludeMovies st st' →
  collectorInv capacity excludeMovies st → collectorInv capacity excludeMovies st'.
Proof.
  unfold collectorInv, GoInt.len.
  destruct 1 as [w1 u w2 r c a Hcap|w r1 u r2 c a movies Hmovies|w r movies c a];
    simpl; intros (Hc & Ha & Hr).
  - repeat split; [done..|]. unfold GoInt.len in Hcap. simpl. lia.
  - repeat split; [|done|].
    + apply Forall_app. split; [done|].
      constructor; [|constructor]. by eapply ratedMoviesOf_noneExcluded.
    + rewrite length_app in *. simpl in Hr. lia.
  - apply Forall_cons in Hc as [Hmovies Hc].
    repeat split; [done| |done]. by apply Forall_app.
Qed.

Lemma collector_rtc_inv capacity excludeMovies st st' :
  rtc (collectorStep capacity excludeMovies) st st' →
  collectorInv capacity excludeMovies st → collectorInv capacity excludeMovies st'.
Proof.
  induction 1 as [|st1 st2 st3 Hstep _ IH]; [done|].
  intros Hinv. apply IH. by eapply collectorStep_inv.
Qed.

(** C9: whatever the friends and the excluded movies, no movie that
    [collectMoviesParallel] returns has an excluded URL. *)
Theorem collectMoviesParallel_excludes
    (friends excludeMovies : list string) (out : list Movie) :
  collectMoviesParallel friends excludeMovies out →
  ∀ m, m ∈ out → URL m ∉ excludeMovies.
Proof.
  intros Hrun.
  apply collector_rtc_inv in Hrun as (_ & Hout & _).
  - simpl in Hout. unfold noneExcluded in Hout. by rewrite Forall_forall in Hout.
  - unfold collectorInv, noneExcluded, GoInt.len. simpl.
    repeat split; [constructor..|lia].
Qed.

(** One friend, whose third page holds an excluded movie. *)
Lemma sample_collect :
  collectMoviesParallel ["u"] ["/film/c/"]
    [mkMovie "/film/a/" 8; mkMovie "/film/b/" 6].
Proof.
  unfold collectMoviesParallel.
  eapply rtc_l; [apply (step_acquire _ _ [] "u" [] [] [] []); by vm_compute|].
  eapply rtc_l.
  { apply (step_finish _ _ [] [] "u" [] [] []
             [mkMovie "/film/a/" 8; mkMovie "/film/b/" 6]).
    exists (sampleNet page3excluded), 4%nat, [].
    eexists. by vm_compute. }
  eapply rtc_l; [apply (step_receive _ _ [] [] _ [] [])|].
  simpl. apply rtc_refl.
Qed.

Lemma collectMoviesParallel_excludes_witness :
  collectMoviesParallel ["u"] ["/film/c/"]
    [mkMovie "/film/a/" 8; mkMovie "/film/b/" 6]
  ∧ ∀ m, m ∈ [mkMovie "/film/a/" 8; mkMovie "/film/b/" 6] →
         URL m ∉ ["/film/c/"].
Proof.
  split; [exact sample_collect|].
  exact (collectMoviesParallel_excludes _ _ _ sample_collect).
Defined.

(** * Further properties *)

(** ** [getPage] *)

(** X1: what [getPage] returns is the body of the first answer with status
    200 among its at most 10 attempts, and nothing is requested after that
    answer; it returns no document exactly when that body cannot be parsed or
    when all 10 attempts fail. *)
Theorem getPage_outcome (net : Network) (url : string) (log : Log) :
  (∃ (k : nat) body,
     (k < 10)%nat
     ∧ (∀ j, (j < k)%nat → failed (net (log ++ replicate j url) url))
     ∧ net (log ++ replicate k url) url = Reply 200 body
     ∧ getPage net url log = (body, log ++ replicate (S k) url))
  ∨ ((∀ j, (j < 10)%nat → failed (net (log ++ replicate j url) url))
     ∧ getPage net url log = (None, log ++ replicate 10 url)).
Proof.
  unfold getPage. generalize 10%nat. intros remaining.
  revert log. induction remaining as [|remaining IH]; intros log.
  - right. split; [intros j Hj; lia|]. simpl. by rewrite app_nil_r.
  - assert (failed (net log url) →
            getPage_retry net (S remaining) url log
            = getPage_retry net remaining url (log ++ [url])) as Hretry.
    { simpl. destruct (net log url) as [|code body]; [done|].
      simpl. intros Hne. by destruct (Z.eqb_spec code 200). }
    assert (failed (net log url) → ∀ (k : nat),
              (∀ j, (j < k)%nat → failed (net ((log ++ [url]) ++ replicate j url) url)) →
              ∀ j, (j < S k)%nat → failed (net (log ++ replicate j url) url)) as Hshift.
    { intros H0 k Hk [|j] Hj.
      - simpl. by rewrite app_nil_r.
      - rewrite replicate_S_snoc. apply Hk. lia. }
    assert (failed (net log url) ∨ ¬ failed (net log url)) as [H0|Hok].
    { destruct (net log url) as [|code body]; simpl; [by left|].
      destruct (decide (code = 200)); [right|left]; auto. }
    + rewrite (Hretry H0).
      destruct (IH (log ++ [url])) as [(k & body & Hk & Hbefore & Hat & Hres)|[Hall Hres]].
      * left. exists (S k), body. split; [lia|]. split; [by apply Hshift|].
        split; [by rewrite replicate_S_snoc|].
        rewrite Hres. by rewrite <- (replicate_S_snoc log (S k)).
      * right. split; [by apply Hshift|].
        rewrite Hres. by rewrite <- (replicate_S_snoc log remaining).
    + left. destruct (net log url) as [|code body] eqn:E; [by destruct Hok|].
      simpl in Hok. assert (code = 200) as -> by (destruct (decide (code = 200)); done).
      exists 0%nat, body. split; [lia|]. split; [intros j Hj; lia|].
      simpl. rewrite app_nil_r. split; [done|]. by rewrite E.
Qed.

(** ** [checkUser] *)

Lemma replaceFrom_char (c : ascii) s :
  replaceFrom (String c EmptyString) EmptyString O s
  = filterString (fun a => negb (Ascii.eqb a c)) s.
Proof.
  induction s as [|a s IH]; [done|].
  cbn [replaceFrom filterString String.prefix String.length].
  destruct (ascii_dec c a) as [->|Hne].
  - rewrite Ascii.eqb_refl. destruct s; simpl; exact IH.
  - assert (Ascii.eqb a c = false) as -> by (apply Ascii.eqb_neq; congruence).
    simpl. by rewrite IH.
Qed.

Lemma allString_filterString f g s :
  allString f (filterString g s) = allString (fun c => f c || negb (g c)) s.
Proof.
  induction s as [|a s IH]; [done|]. simpl.
  destruct (g a); simpl; rewrite IH.
  - by rewrite orb_false_r.
  - by rewrite orb_true_r.
Qed.

Lemma checked_name username :
  allString isAlnum (ReplaceAll username "_" "") = validName username.
Proof.
  unfold ReplaceAll, validName. rewrite replaceFrom_char, allString_filterString.
  induction username as [|a s IH]; [done|]. simpl. rewrite IH.
  by rewrite negb_involutive.
Qed.

(** X2: [checkUser] sends no request for a name that holds anything but
    letters, digits and underscores, and answers [false]; for any other name
    it fetches the profile page once and answers [true] exactly when the
    page comes and has a header section.  The name comes back unchanged. *)
Theorem checkUser_answer (net : Network) (username : string) (log : Log) :
  checkUser net username log
  = if validName username
    then
      let '(page, log') := getPage net ("https://letterboxd.com/" +:+ username) log in
      ((username,
        match page with
        | Some doc => bool_decide (headerSections doc ≠ 0)
        | None => false
        end), log')
    else ((username, false), log).
Proof.
  unfold checkUser. rewrite checked_name.
  destruct (validName username); [|done]. simpl.
  destruct (getPage net _ log) as [[doc|] log']; [|done].
  destruct (Z.eqb_spec (headerSections doc) 0) as [H|H].
  - by rewrite bool_decide_eq_false_2 by (intros ?; done).
  - by rewrite bool_decide_eq_true_2.
Qed.

(** ** The crawls along the next links *)

Lemma following_fold persons following :
  fold_left followingStep persons following
  = following ++ ((fun href => ReplaceAll href "/" "") <$> omap id persons).
Proof.
  rewrite (fold_left_appends _
    (fun href => match href with Some h => [ReplaceAll h "/" ""] | None => [] end)).
  - f_equal. induction persons as [|[h|] l IH]; simpl; [done|by rewrite IH|done].
  - intros acc [h|]; simpl; [done|by rewrite app_nil_r].
Qed.

Lemma allMovies_fold posters movies :
  fold_left allMoviesStep posters movies = movies ++ omap dataTargetLink posters.
Proof.
  rewrite (fold_left_appends _
    (fun s => match dataTargetLink s with Some link => [link] | None => [] end)).
  - f_equal. induction posters as [|s l IH]; [done|]. simpl.
    destruct (dataTargetLink s); simpl; by rewrite IH.
  - intros acc s. unfold allMoviesStep.
    destruct (dataTargetLink s); [done|by rewrite app_nil_r].
Qed.

Lemma findFollowing_loop_step net fuel url following log :
  findFollowing_loop net (S fuel) url following log
  = match getPage net url log with
    | (None, log') => Some (following, log')
    | (Some doc, log') =>
        match paginationNext doc with
        | None => Some (following ++ pageFollowing doc, log')
        | Some nextLink =>
            findFollowing_loop net fuel ("https://letterboxd.com" +:+ nextLink)
              (following ++ pageFollowing doc) log'
        end
    end.
Proof.
  simpl. destruct (getPage net url log) as [[doc|] log']; [|done].
  by rewrite following_fold.
Qed.

Lemma getAllMovies_loop_step net fuel url movies log :
  getAllMovies_loop net (S fuel) url movies log
  = match getPage net url log with
    | (None, log') => Some (movies, log')
    | (Some doc, log') =>
        match paginationNext doc with
        | None => Some (movies ++ pageLinks doc, log')
        | Some nextLink =>
            getAllMovies_loop net fuel ("https://letterboxd.com" +:+ nextLink)
              (movies ++ pageLinks doc) log'
        end
    end.
Proof.
  simpl. destruct (getPage net url log) as [[doc|] log']; [|done].
  by rewrite allMovies_fold.
Qed.

(** X3: [findFollowing] returns the names of all persons on all pages of the
    next-link chain, in order and with the slashes of the link removed; a
    page without persons does not end it, only a page without next link or
    a page that cannot be fetched does. *)
Theorem findFollowing_chain (net : Network) (url : string) (log log' : Log)
    (following out : list string) :
  (∀ docs fuel,
     PageChain net url log docs log' → (length docs < fuel)%nat →
     findFollowing_loop net fuel url following log
     = Some (following ++ flat_map pageFollowing docs, log'))
  ∧ (∀ fuel,
       findFollowing_loop net fuel url following log = Some (out, log') →
       ∃ docs, PageChain net url log docs log'
               ∧ out = following ++ flat_map pageFollowing docs).
Proof.
  split.
  - intros docs fuel Hchain. revert fuel following.
    induction Hchain as [url log log' Hp|url log doc log' Hp Hn
                        |url log doc log1 nextLink docs log' Hp Hn _ IH];
      intros fuel following Hfuel; (destruct fuel as [|fuel]; [simpl in Hfuel; lia|]);
      rewrite findFollowing_loop_step, Hp.
    + simpl. by rewrite app_nil_r.
    + rewrite Hn. simpl. by rewrite app_nil_r.
    + rewrite Hn, IH by (simpl in Hfuel; lia). simpl. by rewrite <- app_assoc.
  - intros fuel. revert url log following.
    induction fuel as [|fuel IH]; intros url log following; [done|].
    rewrite findFollowing_loop_step.
    destruct (getPage net url log) as [[doc|] log1] eqn:Hp.
    + destruct (paginationNext doc) as [nextLink|] eqn:Hn.
      * intros (docs & Hchain & ->)%IH. exists (doc :: docs).
        split; [by eapply chain_next|]. simpl. by rewrite <- app_assoc.
      * intros [= <- <-]. exists [doc]. split; [by apply chain_last|].
        simpl. by rewrite app_nil_r.
    + intros [= <- <-]. exists []. split; [by apply chain_unreachable|].
      simpl. by rewrite app_nil_r.
Qed.

Lemma findFollowing_chain_witness :
  findFollowing_loop memberNet 3 "https://letterboxd.com/u/following/" [] []
  = Some (["alice"; "bob_1"; "carol"],
          ["https://letterboxd.com/u/following/";
           "https://letterboxd.com/u/following/page/2/";
           "https://letterboxd.com/u/following/page/3/"])
  ∧ ∃ docs,
      PageChain memberNet "https://letterboxd.com/u/following/" [] docs
        ["https://letterboxd.com/u/following/";
         "https://letterboxd.com/u/following/page/2/";
         "https://letterboxd.com/u/following/page/3/"]
      ∧ ["alice"; "bob_1"; "carol"] = [] ++ flat_map pageFollowing docs.
Proof.
  assert (findFollowing_loop memberNet 3 "https://letterboxd.com/u/following/" [] []
          = Some (["alice"; "bob_1"; "carol"],
                  ["https://letterboxd.com/u/following/";
                   "https://letterboxd.com/u/following/page/2/";
                   "https://letterboxd.com/u/following/page/3/"])) as Hrun
    by (vm_compute; reflexivity).
  split; [exact Hrun|].
  exact (proj2 (findFollowing_chain memberNet _ _ _ _ _) 3%nat Hrun).
Defined.

(** X4: [getAllMovies] returns the target links of all posters on all pages
    of the next-link chain, in order; posters without link are skipped, and
    a page without posters does not end the crawl. *)
Theorem getAllMovies_chain (net : Network) (url : string) (log log' : Log)
    (movies out : list string) :
  (∀ docs fuel,
     PageChain net url log docs log' → (length docs < fuel)%nat →
     getAllMovies_loop net fuel url movies log
     = Some (movies ++ flat_map pageLinks docs, log'))
  ∧ (∀ fuel,
       getAllMovies_loop net fuel url movies log = Some (out, log') →
       ∃ docs, PageChain net url log docs log'
               ∧ out = movies ++ flat_map pageLinks docs).
Proof.
  split.
  - intros docs fuel Hchain. revert fuel movies.
    induction Hchain as [url log log' Hp|url log doc log' Hp Hn
                        |url log doc log1 nextLink docs log' Hp Hn _ IH];
      intros fuel movies Hfuel; (destruct fuel as [|fuel]; [simpl in Hfuel; lia|]);
      rewrite getAllMovies_loop_step, Hp.
    + simpl. by rewrite app_nil_r.
    + rewrite Hn. simpl. by rewrite app_nil_r.
    + rewrite Hn, IH by (simpl in Hfuel; lia). simpl. by rewrite <- app_assoc.
  - intros fuel. revert url log movies.
    induction fuel as [|fuel IH]; intros url log movies; [done|].
    rewrite getAllMovies_loop_step.
    destruct (getPage net url log) as [[doc|] log1] eqn:Hp.
    + destruct (paginationNext doc) as [nextLink|] eqn:Hn.
      * intros (docs & Hchain & ->)%IH. exists (doc :: docs).
        split; [by eapply chain_next|]. simpl. by rewrite <- app_assoc.
      * intros [= <- <-]. exists [doc]. split; [by apply chain_last|].
        simpl. by rewrite app_nil_r.
    + intros [= <- <-]. exists []. split; [by apply chain_unreachable|].
      simpl. by rewrite app_nil_r.
Qed.

Lemma getAllMovies_chain_witness :
  getAllMovies_loop (sampleNet page3unrated) 4
    "https://letterboxd.com/u/films/by/member-rating/" [] []
  = Some (["/film/a/"; "/film/b/"; "/film/e/"; "/film/c/"; "/film/d/"],
          ["https://letterboxd.com/u/films/by/member-rating/";
           "https://letterboxd.com/u/films/by/member-rating/page/2/";
           "https://letterboxd.com/u/films/by/member-rating/page/2/";
           "https://letterboxd.com/u/films/by/member-rating/page/3/";
           "https://letterboxd.com/u/films/by/member-rating/page/4/"])
  ∧ ∃ docs,
      PageChain (sampleNet page3unrated)
        "https://letterboxd.com/u/films/by/member-rating/" [] docs
        ["https://letterboxd.com/u/films/by/member-rating/";
         "https://letterboxd.com/u/films/by/member-rating/page/2/";
         "https://letterboxd.com/u/films/by/member-rating/page/2/";
         "https://letterboxd.com/u/films/by/member-rating/page/3/";
         "https://letterboxd.com/u/films/by/member-rating/page/4/"]
      ∧ ["/film/a/"; "/film/b/"; "/film/e/"; "/film/c/"; "/film/d/"]
        = [] ++ flat_map pageLinks docs.
Proof.
  assert (getAllMovies_loop (sampleNet page3unrated) 4
            "https://letterboxd.com/u/films/by/member-rating/" [] []
          = Some (["/film/a/"; "/film/b/"; "/film/e/"; "/film/c/"; "/film/d/"],
                  ["https://letterboxd.com/u/films/by/member-rating/";
                   "https://letterboxd.com/u/films/by/member-rating/page/2/";
                   "https://letterboxd.com/u/films/by/member-rating/page/2/";
                   "https://letterboxd.com/u/films/by/member-rating/page/3/";
                   "https://letterboxd.com/u/films/by/member-rating/page/4/"]))
    as Hrun by (vm_compute; reflexivity).
  split; [exact Hrun|].
  exact (proj2 (getAllMovies_chain (sampleNet page3unrated) _ _ _ _ _) 4%nat Hrun).
Defined.

(** X5: [getRatedMovies] gathers the movies of the pages of the next-link
    chain up to and including the first page that has no rated entry, has
    no next link, or is followed by a page that cannot be fetched: with
    enough fuel it returns what the pages of the chain add, and whatever it
    returns comes from such a chain. *)
Theorem getRatedMovies_chain (net : Network) (excludeMap : gmap string bool)
    (url : string) (log log' : Log) (movies out : list Movie) :
  (∀ docs fuel,
     RatedChain net url log docs log' → (length docs < fuel)%nat →
     getRatedMovies_loop net fuel excludeMap url movies log
     = Some (foldl (fun acc doc => pageMovies excludeMap doc acc) movies docs, log'))
  ∧ (∀ fuel,
       getRatedMovies_loop net fuel excludeMap url movies log = Some (out, log') →
       ∃ docs, RatedChain net url log docs log'
               ∧ out = foldl (fun acc doc => pageMovies excludeMap doc acc) movies docs).
Proof.
  split.
  - intros docs fuel Hchain. revert fuel movies.
    induction Hchain as [url log log' Hp|url log doc log' Hp Hr
                        |url log doc log' Hp Hr Hn
                        |url log doc log1 nextLink docs log' Hp Hr Hn _ IH];
      intros fuel movies Hfuel; (destruct fuel as [|fuel]; [simpl in Hfuel; lia|]).
    + simpl. by rewrite Hp.
    + by rewrite (getRatedMovies_loop_page net _ _ _ _ _ _ _ Hp), Hr.
    + by rewrite (getRatedMovies_loop_page net _ _ _ _ _ _ _ Hp), Hr, Hn.
    + rewrite (getRatedMovies_loop_page net _ _ _ _ _ _ _ Hp), Hr, Hn. simpl negb.
      cbv iota. rewrite IH by (simpl in Hfuel; lia). done.
  - intros fuel. revert url log movies.
    induction fuel as [|fuel IH]; intros url log movies; [done|].
    destruct (getPage net url log) as [[doc|] log1] eqn:Hp.
    + rewrite (getRatedMovies_loop_page net _ _ _ _ _ _ _ Hp).
      destruct (ratedOnPage doc) eqn:Hr; simpl negb; cbv iota.
      * destruct (paginationNext doc) as [nextLink|] eqn:Hn.
        -- intros (docs & Hchain & ->)%IH. exists (doc :: docs).
           split; [by eapply rated_next|done].
        -- intros [= <- <-]. exists [doc]. split; [by apply rated_last|done].
      * intros [= <- <-]. exists [doc]. split; [by apply rated_unrated|done].
    + simpl. rewrite Hp. intros [= <- <-]. exists [].
      split; [by apply rated_unreachable|done].
Qed.

Lemma getRatedMovies_chain_witness :
  getRatedMovies_loop (sampleNet page3excluded) 4 (makeExcludeMap ["/film/c/"])
    "https://letterboxd.com/u/films/by/member-rating/" [] []
  = Some ([mkMovie "/film/a/" 8; mkMovie "/film/b/" 6],
          ["https://letterboxd.com/u/films/by/member-rating/";
           "https://letterboxd.com/u/films/by/member-rating/page/2/";
           "https://letterboxd.com/u/films/by/member-rating/page/2/";
           "https://letterboxd.com/u/films/by/member-rating/page/3/";
           "https://letterboxd.com/u/films/by/member-rating/page/4/"])
  ∧ ∃ docs,
      RatedChain (sampleNet page3excluded)
        "https://letterboxd.com/u/films/by/member-rating/" [] docs
        ["https://letterboxd.com/u/films/by/member-rating/";
         "https://letterboxd.com/u/films/by/member-rating/page/2/";
         "https://letterboxd.com/u/films/by/member-rating/page/2/";
         "https://letterboxd.com/u/films/by/member-rating/page/3/";
         "https://letterboxd.com/u/films/by/member-rating/page/4/"]
      ∧ [mkMovie "/film/a/" 8; mkMovie "/film/b/" 6]
        = foldl (fun acc doc => pageMovies (makeExcludeMap ["/film/c/"]) doc acc) [] docs.
Proof.
  assert (getRatedMovies_loop (sampleNet page3excluded) 4 (makeExcludeMap ["/film/c/"])
            "https://letterboxd.com/u/films/by/member-rating/" [] []
          = Some ([mkMovie "/film/a/" 8; mkMovie "/film/b/" 6],
                  ["https://letterboxd.com/u/films/by/member-rating/";
                   "https://letterboxd.com/u/films/by/member-rating/page/2/";
                   "https://letterboxd.com/u/films/by/member-rating/page/2/";
                   "https://letterboxd.com/u/films/by/member-rating/page/3/";
                   "https://letterboxd.com/u/films/by/member-rating/page/4/"]))
    as Hrun by (vm_compute; reflexivity).
  split; [exact Hrun|].
  exact (proj2 (getRatedMovies_chain (sampleNet page3excluded) _ _ _ _ _ _) 4%nat Hrun).
Defined.

(** ** Exclusion does not steer the crawl *)

Lemma excluded_empty k : excluded ∅ k = false.
Proof. unfold excluded. by rewrite lookup_empty. Qed.

Lemma ratedStep_filter excludeMovies movies flag s :
  ratedStep (makeExcludeMap excludeMovies)
    (filter (fun m => URL m ∉ excludeMovies) movies, flag) s
  = (filter (fun m => URL m ∉ excludeMovies) (ratedStep ∅ (movies, flag) s).1,
     (ratedStep ∅ (movies, flag) s).2).
Proof.
  unfold ratedStep.
  destruct (dataTargetLink s) as [newTitle|]; [|done].
  destruct (ratingElem s) as [[ratingClass|]|]; [|done..].
  destruct (Atoi _) as [rating [err|]]; [done|].
  rewrite excluded_empty. simpl.
  rewrite filter_app, filter_cons, filter_nil. simpl.
  destruct (excluded (makeExcludeMap excludeMovies) newTitle) eqn:E; simpl.
  - apply excluded_spec in E. rewrite decide_False by auto. by rewrite app_nil_r.
  - rewrite decide_True; [done|]. intros Hin%excluded_spec. congruence.
Qed.

Lemma pageMovies_filter excludeMovies posters movies flag :
  fold_left (ratedStep (makeExcludeMap excludeMovies)) posters
    (filter (fun m => URL m ∉ excludeMovies) movies, flag)
  = (filter (fun m => URL m ∉ excludeMovies)
       (fold_left (ratedStep ∅) posters (movies, flag)).1,
     (fold_left (ratedStep ∅) posters (movies, flag)).2).
Proof.
  revert movies flag. induction posters as [|s posters IH]; intros movies flag; [done|].
  cbn [fold_left]. rewrite ratedStep_filter.
  destruct (ratedStep ∅ (movies, flag) s) as [movies1 flag1]. apply IH.
Qed.

Lemma getRatedMovies_loop_filter net fuel excludeMovies url movies log :
  getRatedMovies_loop net fuel (makeExcludeMap excludeMovies) url
    (filter (fun m => URL m ∉ excludeMovies) movies) log
  = (fun r : list Movie * Log => (filter (fun m => URL m ∉ excludeMovies) r.1, r.2))
      <$> getRatedMovies_loop net fuel ∅ url movies log.
Proof.
  revert url movies log. induction fuel as [|fuel IH]; intros url movies log; [done|].
  cbn [getRatedMovies_loop].
  destruct (getPage net url log) as [[doc|] log1]; [|done].
  rewrite pageMovies_filter.
  destruct (fold_left (ratedStep ∅) (posterContainers doc) (movies, false))
    as [movies1 moviesOnPage]. cbn [fst snd].
  destruct moviesOnPage; simpl negb; cbv iota; [|done].
  destruct (paginationNext doc) as [nextLink|]; [|done]. apply IH.
Qed.

(** X6: excluding movies changes neither the requests that [getRatedMovies]
    sends nor the page at which it stops: its result is the result without
    exclusion, less the movies with an excluded URL. *)
Theorem getRatedMovies_exclusion (net : Network) (fuel : nat) (username : string)
    (excludeMovies : list string) (log : Log) :
  getRatedMovies net fuel username excludeMovies log
  = (fun r : list Movie * Log => (filter (fun m => URL m ∉ excludeMovies) r.1, r.2))
      <$> getRatedMovies net fuel username [] log.
Proof.
  unfold getRatedMovies.
  change (makeExcludeMap []) with (∅ : gmap string bool).
  by rewrite <- getRatedMovies_loop_filter.
Qed.

(** ** The requests of a crawl *)

Lemma getPage_log net url log :
  ∃ attempts : nat,
    (1 <= attempts <= 10)%nat ∧ (getPage net url log).2 = log ++ replicate attempts url.
Proof.
  destruct (getPage_retry_attempts net 10 url log) as (k & Hk & Hpos & Hlog).
  exists k. split; [lia|done].
Qed.

Lemma prefix_append s t : String.prefix s (s +:+ t) = true.
Proof.
  induction s as [|a s IH]; simpl; [by destruct t|].
  destruct (ascii_dec a a); [done|congruence].
Qed.

Lemma RatedChain_visits net url log docs log' :
  RatedChain net url log docs log' →
  ∃ visits : list (string * nat),
    log' = log ++ requestsOf visits
    ∧ Forall (fun v => (1 <= v.2 <= 10)%nat) visits
    ∧ (1 <= length visits)%nat
    ∧ (length docs <= length visits <= S (length docs))%nat
    ∧ visits.*1 `prefix_of` pageAddresses url docs.
Proof.
  assert (∀ url log r log1, getPage net url log = (r, log1) →
            ∃ attempts : nat, (1 <= attempts <= 10)%nat
                              ∧ log1 = log ++ replicate attempts url) as Hone.
  { intros u l r l1 Hp. destruct (getPage_log net u l) as (k & Hk & Hlog).
    rewrite Hp in Hlog. by exists k. }
  induction 1 as [url log log' Hp|url log doc log' Hp Hr
                 |url log doc log' Hp Hr Hn
                 |url log doc log1 nextLink docs log' Hp Hr Hn _ IH].
  1-3: destruct (Hone _ _ _ _ Hp) as (k & Hk & ->); exists [(url, k)];
       unfold requestsOf, pageAddresses; simpl; rewrite app_nil_r;
       (split; [done|]); (split; [by apply Forall_singleton|]); (split; [lia|]);
       (split; [lia|]); apply prefix_cons, prefix_nil.
  destruct (Hone _ _ _ _ Hp) as (k & Hk & ->).
  destruct IH as (visits & -> & Hbound & Hpos & Hlen & Hpre).
  exists ((url, k) :: visits). unfold requestsOf. simpl.
  split; [by rewrite app_assoc|]. split; [by constructor|]. split; [lia|].
  split; [lia|]. unfold pageAddresses. simpl. rewrite Hn. simpl.
  by apply prefix_cons.
Qed.

(** X7: a crawl of the rated movies that ends has gone from page to page
    and has sent between 1 and 10 requests, all to the same address, for
    each page it asked for, the page that ended it included, and nothing
    else.  The first address is the start address, and each later one is
    [https://letterboxd.com] with the next link of the page before appended
    as it stands, whatever that link is. *)
Theorem getRatedMovies_requests (net : Network) (fuel : nat)
    (excludeMap : gmap string bool) (url : string) (movies out : list Movie)
    (log log' : Log) :
  getRatedMovies_loop net fuel excludeMap url movies log = Some (out, log') →
  ∃ docs (visits : list (string * nat)),
    RatedChain net url log docs log'
    ∧ (length docs <= fuel)%nat
    ∧ log' = log ++ requestsOf visits
    ∧ Forall (fun v => (1 <= v.2 <= 10)%nat) visits
    ∧ (1 <= length visits)%nat
    ∧ (length docs <= length visits <= S (length docs))%nat
    ∧ visits.*1 `prefix_of` pageAddresses url docs.
Proof.
  intros Hrun.
  assert (∃ docs, RatedChain net url log docs log' ∧ (length docs <= fuel)%nat)
    as (docs & Hchain & Hlen).
  { revert url movies log Hrun.
    induction fuel as [|fuel IH]; intros url movies log; [done|].
    destruct (getPage net url log) as [[doc|] log1] eqn:Hp.
    - rewrite (getRatedMovies_loop_page net _ _ _ _ _ _ _ Hp).
      destruct (ratedOnPage doc) eqn:Hr; simpl negb; cbv iota.
      + destruct (paginationNext doc) as [nextLink|] eqn:Hn.
        * intros (docs & Hchain & Hlen)%IH. exists (doc :: docs).
          split; [by eapply rated_next|simpl; lia].
        * intros [= _ <-]. exists [doc]. split; [by apply rated_last|simpl; lia].
      + intros [= _ <-]. exists [doc]. split; [by apply rated_unrated|simpl; lia].
    - simpl. rewrite Hp. intros [= _ <-]. exists [].
      split; [by apply rated_unreachable|simpl; lia]. }
  destruct (RatedChain_visits _ _ _ _ _ Hchain)
    as (visits & Hlog & Hbound & Hpos & Hvisits & Hpre).
  by exists docs, visits.
Qed.

Lemma getRatedMovies_requests_witness :
  getRatedMovies_loop (sampleNet page3unrated) 3 ∅
    "https://letterboxd.com/u/films/by/member-rating/" [] []
  = Some ([mkMovie "/film/a/" 8; mkMovie "/film/b/" 6],
          ["https://letterboxd.com/u/films/by/member-rating/";
           "https://letterboxd.com/u/films/by/member-rating/page/2/";
           "https://letterboxd.com/u/films/by/member-rating/page/2/";
           "https://letterboxd.com/u/films/by/member-rating/page/3/"])
  ∧ ∃ docs (visits : list (string * nat)),
      RatedChain (sampleNet page3unrated)
        "https://letterboxd.com/u/films/by/member-rating/" [] docs
        ["https://letterboxd.com/u/films/by/member-rating/";
         "https://letterboxd.com/u/films/by/member-rating/page/2/";
         "https://letterboxd.com/u/films/by/member-rating/page/2/";
         "https://letterboxd.com/u/films/by/member-rating/page/3/"]
      ∧ (length docs <= 3)%nat
      ∧ ["https://letterboxd.com/u/films/by/member-rating/";
         "https://letterboxd.com/u/films/by/member-rating/page/2/";
         "https://letterboxd.com/u/films/by/member-rating/page/2/";
         "https://letterboxd.com/u/films/by/member-rating/page/3/"]
        = [] ++ requestsOf visits
      ∧ Forall (fun v => (1 <= v.2 <= 10)%nat) visits
      ∧ (1 <= length visits)%nat
      ∧ (length docs <= length visits <= S (length docs))%nat
      ∧ visits.*1
        `prefix_of` pageAddresses "https://letterboxd.com/u/films/by/member-rating/" docs.
Proof.
  assert (getRatedMovies_loop (sampleNet page3unrated) 3 ∅
            "https://letterboxd.com/u/films/by/member-rating/" [] []
          = Some ([mkMovie "/film/a/" 8; mkMovie "/film/b/" 6],
                  ["https://letterboxd.com/u/films/by/member-rating/";
                   "https://letterboxd.com/u/films/by/member-rating/page/2/";
                   "https://letterboxd.com/u/films/by/member-rating/page/2/";
                   "https://letterboxd.com/u/films/by/member-rating/page/3/"]))
    as Hrun by (vm_compute; reflexivity).
  split; [exact Hrun|].
  exact (getRatedMovies_requests (sampleNet page3unrated) 3 _ _ _ _ _ _ Hrun).
Defined.

(** ** [strconv.Atoi] as [main.go] uses it *)

Lemma parseDigits_range s n :
  0 <= n < 2 ^ 64 →
  match parseDigits s n with
  | inl un => 0 <= un < 2 ^ 64
  | inr _ => True
  end.
Proof.
  revert n. induction s as [|c s IH]; intros n Hn; simpl; [done|].
  unfold isDigit. set (d := Z.of_N (N_of_ascii c)).
  destruct (Z.leb_spec 48 d), (Z.leb_spec d 57); simpl; try done.
  destruct (Z.geb_spec (n * 10 + (d - 48)) (2 ^ 64)); [done|].
  apply IH. lia.
Qed.

Lemma Atoi_range s : GoInt.min_int <= (Atoi s).1 <= GoInt.max_int.
Proof.
  unfold Atoi, GoInt.min_int, GoInt.max_int.
  match goal with |- context [let '(_, _) := ?E in _] => destruct E as [neg digits] end.
  destruct digits as [|c digits]; [simpl; lia|].
  pose proof (parseDigits_range (String c digits) 0 ltac:(lia)) as Hun.
  destruct (parseDigits (String c digits) 0) as [un|[]].
  - destruct neg; simpl.
    + destruct (Z.gtb_spec un (2 ^ 63)); simpl; lia.
    + destruct (Z.geb_spec un (2 ^ 63)); simpl; lia.
  - simpl. lia.
  - destruct neg; simpl; lia.
Qed.

Lemma Atoi_digits_nonneg c s : isDigit c = true → 0 <= (Atoi (String c s)).1.
Proof.
  intros Hc. unfold Atoi.
  assert (match String c s with
          | String "-"%char rest => (true, rest)
          | String "+"%char rest => (false, rest)
          | _ => (false, String c s)
          end = (false, String c s)) as ->.
  { destruct c as [[] [] [] [] [] [] [] []]; try done; by vm_compute in Hc. }
  pose proof (parseDigits_range (String c s) 0 ltac:(lia)) as Hun.
  destruct (parseDigits (String c s) 0) as [un|[]]; simpl;
    unfold GoInt.max_int; try lia.
  destruct (Z.geb_spec un (2 ^ 63)); simpl; lia.
Qed.

Lemma filterString_head f s :
  match filterString f s with
  | EmptyString => True
  | String c _ => f c = true
  end.
Proof.
  induction s as [|a s IH]; simpl; [done|]. by destruct (f a) eqn:E.
Qed.

Lemma countOnPage_range doc count :
  countOnPage doc = Some count → 0 <= count <= GoInt.max_int.
Proof.
  unfold countOnPage. destruct (_ <? 2); [done|].
  pose proof (filterString_head isDigit (nth 1 (Split (replaceIfYouText doc) "has") "")) as Hd.
  destruct (filterString isDigit _) as [|c numb]; [done|].
  simpl. intros [= <-]. split; [by apply Atoi_digits_nonneg|apply Atoi_range].
Qed.

(** ** [getMovieCount] *)

Lemma movieCountStep_keeps net movieCount log i friend :
  let st := movieCountStep net (movieCount, log) (i, friend) in
  length st.1 = length movieCount
  ∧ (Forall (fun c => 0 <= c <= GoInt.max_int) movieCount →
     Forall (fun c => 0 <= c <= GoInt.max_int) st.1)
  ∧ ((∀ log url, failed (net log url)) → st.1 = movieCount)
  ∧ ∃ attempts : nat, (1 <= attempts <= 10)%nat
      ∧ st.2 = log ++ replicate attempts
                 ("https://letterboxd.com/" +:+ friend +:+ "/films/rated/.5-5/").
Proof.
  unfold movieCountStep.
  set (url := "https://letterboxd.com/" +:+ friend +:+ "/films/rated/.5-5/").
  destruct (getPage_log net url log) as (k & Hk & Hlog).
  assert ((∀ log url, failed (net log url)) → (getPage net url log).1 = None) as Hdead.
  { intros Hall. unfold getPage. by rewrite getPage_retry_failed. }
  destruct (getPage net url log) as [[doc|] log1]; simpl in *.
  - destruct (countOnPage doc) as [count|] eqn:Hcount; simpl.
    + rewrite length_insert. split; [done|]. split.
      * intros Hall. apply Forall_insert; [done|]. by eapply countOnPage_range.
      * split; [intros Hall; by specialize (Hdead Hall)|]. by exists k.
    + repeat split; [done|]. by exists k.
  - repeat split; [done|]. by exists k.
Qed.

Lemma movieCount_fold net (pairs : list (nat * string)) movieCount log :
  let st := fold_left (movieCountStep net) pairs (movieCount, log) in
  length st.1 = length movieCount
  ∧ (Forall (fun c => 0 <= c <= GoInt.max_int) movieCount →
     Forall (fun c => 0 <= c <= GoInt.max_int) st.1)
  ∧ (∃ extra, st.2 = log ++ extra
              ∧ (length pairs <= length extra <= 10 * length pairs)%nat)
  ∧ ((∀ log url, failed (net log url)) → st.1 = movieCount).
Proof.
  revert movieCount log.
  induction pairs as [|[i friend] pairs IH]; intros movieCount l.
  - simpl. repeat split; [done|]. exists []. simpl. by rewrite app_nil_r.
  - cbn [fold_left].
    destruct (movieCountStep_keeps net movieCount l i friend)
      as (Hlen & Hrange & Hdead & k & Hk & Hlog).
    destruct (movieCountStep net (movieCount, l) (i, friend)) as [mc1 l1].
    simpl in Hlen, Hrange, Hdead, Hlog.
    destruct (IH mc1 l1) as (Hlen' & Hrange' & (extra & Hlog' & Hex) & Hdead').
    split; [lia|]. split; [auto|]. split.
    + exists (replicate k ("https://letterboxd.com/" +:+ friend +:+ "/films/rated/.5-5/")
              ++ extra).
      rewrite Hlog', Hlog, length_app, length_replicate, app_assoc. simpl.
      split; [done|lia].
    + intros Hall. rewrite Hdead', Hdead; done.
Qed.

Lemma getMovieCount_length net friends log :
  length (getMovieCount net friends log).1 = length friends.
Proof.
  unfold getMovieCount.
  destruct (movieCount_fold net (zip (seq 0 (length friends)) friends)
              (replicate (length friends) 0) log) as [Hlen _].
  by rewrite length_replicate in Hlen.
Qed.



(** ** What the aggregation hands to the ranking *)

Lemma Grouped_nonempty movies groups :
  Grouped movies groups → Forall (fun g => mwrRatings g ≠ []) groups.
Proof. induction 1; constructor; done. Qed.

Lemma ratingsOf_length url movies : (length (ratingsOf url movies) <= length movies)%nat.
Proof. unfold ratingsOf. rewrite length_fmap. apply length_filter. Qed.

Lemma processResults_invariants sort movies :
  SortsSlice urlLess sort →
  Forall (fun r => VoteCount r = GoInt.len (resRatings r)
                   ∧ 1 <= VoteCount r <= GoInt.len movies
                   ∧ AvgRating r = avg (resRatings r)
                   ∧ resRatings r ≡ₚ ratingsOf (resURL r) movies
                   ∧ resURL r ∈ URL <$> movies)
    (processResults (mergeMovies sort movies))
  ∧ resURL <$> processResults (mergeMovies sort movies)
    = mwrURL <$> mergeMovies sort movies.
Proof.
  intros Hsort.
  destruct (mergeMovies_spec sort movies Hsort) as (HG & Hs & Hk & Hr).
  pose proof (Grouped_nonempty _ _ HG) as Hne.
  rewrite processResults_fmap. split.
  - rewrite Forall_fmap. rewrite Forall_forall in Hr, Hne |- *.
    intros g Hg. specialize (Hr g Hg). specialize (Hne g Hg). simpl.
    split; [done|]. split; [|split; [done|split; [done|]]].
    + pose proof (ratingsOf_length (mwrURL g) movies) as Hlen.
      rewrite <- (Permutation_length Hr) in Hlen. unfold GoInt.len.
      destruct (mwrRatings g); [done|]. simpl in *. lia.
    + apply Hk. by apply list_elem_of_fmap_2.
  - rewrite <- list_fmap_compose. done.
Qed.

(** X9: every result of the aggregation counts the ratings it carries, has
    at least one and at most as many as there are observations, has their
    mean as its score, and carries the ratings that the observations hold
    for its URL; the results come in strictly ascending order of their URLs,
    one for each URL of the observations. *)
Theorem processResults_groups (sort : list Movie -> list Movie) (movies : list Movie) :
  SortsSlice urlLess sort →
  Forall (fun r => VoteCount r = GoInt.len (resRatings r)
                   ∧ 1 <= VoteCount r <= GoInt.len movies
                   ∧ AvgRating r = avg (resRatings r)
                   ∧ resRatings r ≡ₚ ratingsOf (resURL r) movies)
    (processResults (mergeMovies sort movies))
  ∧ StronglySorted (fun a b => String.ltb a b = true)
      (resURL <$> processResults (mergeMovies sort movies))
  ∧ length (processResults (mergeMovies sort movies))
    = length (remove_dups (URL <$> movies)).
Proof.
  intros Hsort.
  destruct (processResults_invariants sort movies Hsort) as [Hinv Hkeys].
  destruct (mergeMovies_spec sort movies Hsort) as (_ & Hs & Hk & _).
  split; [|split].
  - eapply Forall_impl; [exact Hinv|]. simpl. tauto.
  - by rewrite Hkeys.
  - rewrite <- (length_fmap resURL), Hkeys. apply Permutation_length.
    apply NoDup_Permutation; [by apply ltb_sorted_NoDup|apply NoDup_remove_dups|].
    intros k. by rewrite Hk, elem_of_remove_dups.
Qed.

Lemma processResults_groups_witness :
  SortsSlice urlLess (insertionSort urlLess)
  ∧ StronglySorted (fun a b => String.ltb a b = true)
      (resURL <$> processResults (mergeMovies (insertionSort urlLess) sampleMovies))
  ∧ length (processResults (mergeMovies (insertionSort urlLess) sampleMovies))
    = length (remove_dups (URL <$> sampleMovies)).
Proof.
  split; [apply insertionSort_sorts|].
  exact (proj2 (processResults_groups (insertionSort urlLess) sampleMovies
                  (insertionSort_sorts urlLess))).
Defined.

(** X10: on the results of the aggregation a threshold of at most 1 keeps
    everything, and a threshold above the number of observations keeps
    nothing. *)
Theorem threshold_extremes (sort : list Movie -> list Movie) (movies : list Movie)
    (threshold : Z) :
  SortsSlice urlLess sort →
  (threshold <= 1 →
   filterByThreshold (processResults (mergeMovies sort movies)) threshold
   = processResults (mergeMovies sort movies))
  ∧ (GoInt.len movies < threshold →
     filterByThreshold (processResults (mergeMovies sort movies)) threshold = []).
Proof.
  intros Hsort.
  destruct (processResults_invariants sort movies Hsort) as [Hinv _].
  rewrite filterByThreshold_filter. split; intros Ht.
  - apply filter_all. eapply Forall_impl; [exact Hinv|]. simpl. intros r ?. lia.
  - apply filter_none. eapply Forall_impl; [exact Hinv|]. simpl. intros r ?. lia.
Qed.

Lemma threshold_extremes_witness :
  SortsSlice urlLess (insertionSort urlLess)
  ∧ GoInt.len sampleMovies < 4
  ∧ filterByThreshold (processResults (mergeMovies (insertionSort urlLess) sampleMovies)) 4
    = [].
Proof.
  assert (GoInt.len sampleMovies < 4) as Hlen by (by vm_compute).
  split; [apply insertionSort_sorts|]. split; [exact Hlen|].
  exact (proj2 (threshold_extremes (insertionSort urlLess) sampleMovies 4
                  (insertionSort_sorts urlLess)) Hlen).
Defined.

(** ** From the collector to the ranking *)

Lemma rankResults_sorted sort moviesList threshold :
  SortsSlice resultLess sort → Forall scoreIsNumber moviesList →
  StronglySorted ranksBefore (rankResults sort moviesList threshold).
Proof.
  intros Hsort Hnum. unfold rankResults.
  pose proof (filterByThreshold_scoreIsNumber _ threshold Hnum) as Hnum'.
  destruct (Hsort (filterByThreshold moviesList threshold)) as [Hperm Hsorted].
  specialize (Hsorted (resultLess_orders _ Hnum')).
  rewrite Hperm in Hnum'. clear Hperm.
  induction Hsorted as [|r l _ IH Hr]; [constructor|].
  apply Forall_cons in Hnum' as [Hr' Hl].
  constructor; [by apply IH|].
  rewrite Forall_forall in Hr, Hl |- *. intros x Hx.
  apply notAfter_ranksBefore; auto.
Qed.

Lemma collect_noneExcluded friends excludeMovies out :
  collectMoviesParallel friends excludeMovies out → noneExcluded excludeMovies out.
Proof.
  intros Hrun. apply collector_rtc_inv in Hrun as (_ & Hout & _); [done|].
  unfold collectorInv, noneExcluded, GoInt.len. simpl.
  repeat split; [constructor..|lia].
Qed.

(** X11: what [main] shows for the movies that the collector returns: every
    row has a URL that some friend rated and that is not excluded, has at
    least [threshold] votes, no URL has two rows, and the rows stand by
    score descending, then votes descending. *)
Theorem ranking_of_collected
    (sortMovies : list Movie -> list Movie) (sortResults : list Result -> list Result)
    (friends excludeMovies : list string) (allMovies : list Movie) (threshold : Z) :
  collectMoviesParallel friends excludeMovies allMovies →
  SortsSlice urlLess sortMovies → SortsSlice resultLess sortResults →
  let ranking :=
    rankResults sortResults (processResults (mergeMovies sortMovies allMovies)) threshold in
  (∀ r, r ∈ ranking →
        (resURL r ∉ excludeMovies)
        ∧ (∃ m, m ∈ allMovies ∧ URL m = resURL r)
        ∧ (threshold <= VoteCount r))
  ∧ NoDup (resURL <$> ranking)
  ∧ StronglySorted ranksBefore ranking.
Proof.
  intros Hrun Hsm Hsr ranking.
  pose proof (collect_noneExcluded _ _ _ Hrun) as Hex.
  destruct (processResults_invariants sortMovies allMovies Hsm) as [Hinv Hkeys].
  destruct (mergeMovies_spec sortMovies allMovies Hsm) as (_ & Hs & _ & _).
  destruct (Hsr (filterByThreshold (processResults (mergeMovies sortMovies allMovies))
                   threshold)) as [Hperm _].
  fold (rankResults sortResults (processResults (mergeMovies sortMovies allMovies))
          threshold) in Hperm. fold ranking in Hperm.
  split; [|split].
  - intros r Hr. rewrite <- Hperm, filterByThreshold_filter in Hr.
    apply list_elem_of_filter in Hr as [Ht Hr].
    rewrite Forall_forall in Hinv. destruct (Hinv r Hr) as (_ & _ & _ & _ & Hin).
    apply list_elem_of_fmap in Hin as (m & Hm & Hin).
    split; [|split; [by exists m|done]].
    unfold noneExcluded in Hex. rewrite Forall_forall in Hex.
    rewrite Hm. by apply Hex.
  - rewrite <- Hperm, filterByThreshold_filter.
    eapply sublist_NoDup; [|apply fmap_sublist, sublist_filter].
    rewrite Hkeys. by apply ltb_sorted_NoDup.
  - apply rankResults_sorted; [done|]. apply processResults_scoreIsNumber.
Qed.

Lemma ranking_of_collected_witness :
  collectMoviesParallel ["u"] ["/film/c/"] [mkMovie "/film/a/" 8; mkMovie "/film/b/" 6]
  ∧ SortsSlice urlLess (insertionSort urlLess)
  ∧ SortsSlice resultLess (insertionSort resultLess)
  ∧ StronglySorted ranksBefore
      (rankResults (insertionSort resultLess)
         (processResults (mergeMovies (insertionSort urlLess)
                            [mkMovie "/film/a/" 8; mkMovie "/film/b/" 6])) 1).
Proof.
  split; [exact sample_collect|]. split; [apply insertionSort_sorts|].
  split; [apply insertionSort_sorts|].
  exact (proj2 (proj2 (ranking_of_collected (insertionSort urlLess)
                         (insertionSort resultLess) ["u"] ["/film/c/"] _ 1
                         sample_collect (insertionSort_sorts urlLess)
                         (insertionSort_sorts resultLess)))).
Defined.

(** ** The collector *)

Lemma numWorkers_range n :
  0 <= n → 0 <= numWorkers n <= 12 ∧ numWorkers n <= n ∧ (1 <= n → 1 <= numWorkers n).
Proof.
  intros Hn. unfold numWorkers. rewrite Z.quot_div_nonneg by lia.
  destruct (Z.gtb_spec (n / 3 + 1) 12).
  - destruct (Z.ltb_spec 12 2); Z.to_euclidean_division_equations; lia.
  - destruct (Z.ltb_spec (n / 3 + 1) 2); Z.to_euclidean_division_equations; lia.
Qed.

(** X12: the worker count is never negative, never above 12 and never above
    the number of friends, it is at least 1 as soon as there is a friend,
    and it does not shrink when friends are added. *)
Theorem numWorkers_bounds (n m : Z) :
  0 <= n →
  (0 <= numWorkers n <= 12 ∧ numWorkers n <= n ∧ (1 <= n → 1 <= numWorkers n))
  ∧ (n <= m → numWorkers n <= numWorkers m).
Proof.
  intros Hn. split; [by apply numWorkers_range|]. intros Hnm.
  unfold numWorkers. rewrite !Z.quot_div_nonneg by lia.
  destruct (Z.gtb_spec (n / 3 + 1) 12), (Z.gtb_spec (m / 3 + 1) 12);
    repeat match goal with
           | |- context [?a <? ?b] => destruct (Z.ltb_spec a b)
           end; Z.to_euclidean_division_equations; lia.
Qed.

Lemma numWorkers_bounds_witness :
  0 <= 7 ∧ 7 <= 40 ∧ numWorkers 7 <= numWorkers 40.
Proof.
  assert (0 <= 7) as H0 by lia. assert (7 <= 40) as H1 by lia.
  split; [exact H0|]. split; [exact H1|].
  exact (proj2 (numWorkers_bounds 7 40 H0) H1).
Defined.

(** X13: at no moment do more goroutines hold a slot of the semaphore than
    [numWorkers] allows, which is at most 12 and at most the number of
    friends. *)
Theorem collector_concurrency (friends excludeMovies : list string) (st : Collector) :
  rtc (collectorStep (numWorkers (GoInt.len friends)) excludeMovies)
    (mkCollector friends [] [] []) st →
  GoInt.len (running st) <= numWorkers (GoInt.len friends)
  ∧ numWorkers (GoInt.len friends) <= 12
  ∧ numWorkers (GoInt.len friends) <= GoInt.len friends.
Proof.
  intros Hrun.
  assert (0 <= GoInt.len friends) as Hn by (unfold GoInt.len; lia).
  destruct (numWorkers_range _ Hn) as ([H0 H12] & Hle & _).
  apply collector_rtc_inv in Hrun as (_ & _ & Hr).
  - split; [lia|done].
  - unfold collectorInv, noneExcluded, GoInt.len. simpl.
    repeat split; [constructor..|lia].
Qed.

Lemma collector_concurrency_witness :
  rtc (collectorStep (numWorkers (GoInt.len ["u"; "v"])) [])
    (mkCollector ["u"; "v"] [] [] []) (mkCollector ["u"] ["v"] [] [])
  ∧ GoInt.len (running (mkCollector ["u"] ["v"] [] []))
    <= numWorkers (GoInt.len ["u"; "v"]).
Proof.
  assert (rtc (collectorStep (numWorkers (GoInt.len ["u"; "v"])) [])
            (mkCollector ["u"; "v"] [] [] []) (mkCollector ["u"] ["v"] [] [])) as Hrun.
  { apply rtc_once. apply (step_acquire _ _ ["u"] "v" [] [] [] []). by vm_compute. }
  split; [exact Hrun|].
  exact (proj1 (collector_concurrency ["u"; "v"] [] _ Hrun)).
Defined.

Lemma collector_waiting_inv capacity excludeMovies st st' :
  rtc (collectorStep capacity excludeMovies) st st' →
  (length (waiting st') <= length (waiting st) + length (running st))%nat.
Proof.
  induction 1 as [|st1 st2 st3 Hstep _ IH]; [lia|].
  destruct Hstep; simpl in *; rewrite ?length_app in *; simpl in *; lia.
Qed.

(** A crawl against a remote side that never answers ends with nothing. *)
Lemma ratedMoviesOf_nil username excludeMovies :
  ratedMoviesOf username excludeMovies [].
Proof.
  exists deadNet, 1%nat, [].
  pose proof (getPage_retry_failed deadNet 10
    ("https://letterboxd.com/" +:+ username +:+ "/films/by/member-rating/") [])
    as Hdead.
  eexists. unfold getRatedMovies. cbn [getRatedMovies_loop]. unfold getPage.
  rewrite Hdead; [done|]. intros; exact I.
Qed.

Lemma collector_drain capacity excludeMovies w a :
  (w ≠ [] → 1 <= capacity) →
  rtc (collectorStep capacity excludeMovies)
    (mkCollector w [] [] a) (mkCollector [] [] [] a).
Proof.
  induction w as [|u w IH]; intros Hcap; [apply rtc_refl|].
  eapply rtc_l; [apply (step_acquire _ _ [] u w [] [] a)|].
  { unfold GoInt.len. simpl. specialize (Hcap ltac:(done)). lia. }
  eapply rtc_l; [apply (step_finish _ _ w [] u [] [] a []), ratedMoviesOf_nil|].
  eapply rtc_l; [apply (step_receive _ _ w [] [] [] a)|].
  simpl. rewrite app_nil_r. apply IH. intros _. apply Hcap. done.
Qed.

(** X14: the collector cannot get stuck on its semaphore: whenever a
    goroutine waits, the semaphore has at least one slot, so that with
    nobody running the next goroutine gets in; and for every list of
    friends there is a run that ends. *)
Theorem collector_progress (friends excludeMovies : list string) :
  (∀ st,
     rtc (collectorStep (numWorkers (GoInt.len friends)) excludeMovies)
       (mkCollector friends [] [] []) st →
     waiting st ≠ [] →
     1 <= numWorkers (GoInt.len friends)
     ∧ (running st = [] →
        ∃ st', collectorStep (numWorkers (GoInt.len friends)) excludeMovies st st'
               ∧ length (running st') = 1%nat))
  ∧ ∃ out, collectMoviesParallel friends excludeMovies out.
Proof.
  assert (friends ≠ [] → 1 <= numWorkers (GoInt.len friends)) as Hcap.
  { intros Hne. apply numWorkers_range; unfold GoInt.len; [lia|].
    destruct friends; [done|]. simpl. lia. }
  split.
  - intros st Hrun Hw.
    apply collector_waiting_inv in Hrun. simpl in Hrun.
    assert (friends ≠ []) as Hne.
    { intros ->. destruct (waiting st); [done|]. simpl in Hrun. lia. }
    split; [by apply Hcap|]. intros Hr.
    destruct st as [w r c a]. simpl in *. subst r.
    destruct w as [|u w]; [done|].
    exists (mkCollector w [u] c a). split; [|done].
    apply (step_acquire _ _ [] u w [] c a).
    specialize (Hcap Hne). unfold GoInt.len in *. simpl. lia.
  - exists []. by apply collector_drain.
Qed.

Lemma collector_progress_witness :
  waiting (mkCollector ["u"; "v"] [] [] []) ≠ []
  ∧ 1 <= numWorkers (GoInt.len ["u"; "v"]).
Proof.
  assert (waiting (mkCollector ["u"; "v"] [] [] []) ≠ []) as Hwaiting by done.
  split; [exact Hwaiting|].
  exact (proj1 (proj1 (collector_progress ["u"; "v"] []) _ (rtc_refl _ _) Hwaiting)).
Defined.

Lemma collector_fan_in_inv capacity excludeMovies friends st st' :
  rtc (collectorStep capacity excludeMovies) st st' →
  (∃ sent received : list (string * list Movie),
     waiting st ++ running st ++ sent.*1 ++ received.*1 ≡ₚ friends
     ∧ moviesChan st = sent.*2
     ∧ allMovies st = concat received.*2
     ∧ Forall (fun p => ratedMoviesOf p.1 excludeMovies p.2) (sent ++ received)) →
  ∃ sent received : list (string * list Movie),
    waiting st' ++ running st' ++ sent.*1 ++ received.*1 ≡ₚ friends
    ∧ moviesChan st' = sent.*2
    ∧ allMovies st' = concat received.*2
    ∧ Forall (fun p => ratedMoviesOf p.1 excludeMovies p.2) (sent ++ received).
Proof.
  induction 1 as [|st1 st2 st3 Hstep _ IH]; [done|].
  intros (sent & received & Hperm & Hchan & Hall & Hok). apply IH. clear IH.
  destruct Hstep as [w1 u w2 r c a Hcap|w r1 u r2 c a movies Hmovies|w r movies c a];
    simpl in *.
  - exists sent, received. repeat split; [|done..].
    rewrite <- Hperm. rewrite <- !app_assoc. simpl.
    by rewrite <- !Permutation_middle.
  - exists (sent ++ [(u, movies)]), received. rewrite !fmap_app. simpl.
    repeat split; [|by rewrite Hchan|done|].
    + rewrite <- Hperm. rewrite <- !app_assoc. simpl.
      by rewrite <- !Permutation_middle.
    + rewrite <- app_assoc. apply Forall_app in Hok as [Hs Hr].
      apply Forall_app. split; [done|]. by constructor.
  - destruct sent as [|[u movies'] sent]; [done|]. simpl in Hchan.
    injection Hchan as <- ->.
    exists sent, (received ++ [(u, movies)]). rewrite !fmap_app. simpl.
    split; [|split; [reflexivity|split]].
    + rewrite <- Hperm. simpl. by rewrite <- !Permutation_middle, app_nil_r.
    + rewrite concat_app, Hall. simpl. by rewrite app_nil_r.
    + apply Forall_cons in Hok as [Hu Hok]. apply Forall_app in Hok as [Hs Hr].
      rewrite app_assoc. apply Forall_app. split; [by apply Forall_app|].
      by constructor.
Qed.

(** X15: what the collector returns is the concatenation of one crawl result
    per friend, in the order in which the results were received: no friend
    is left out and none is collected twice. *)
Theorem collector_fan_in (friends excludeMovies : list string) (out : list Movie) :
  collectMoviesParallel friends excludeMovies out →
  ∃ results : list (string * list Movie),
    results.*1 ≡ₚ friends
    ∧ Forall (fun p => ratedMoviesOf p.1 excludeMovies p.2) results
    ∧ out = concat results.*2.
Proof.
  intros Hrun.
  apply (collector_fan_in_inv _ _ friends) in Hrun
    as (sent & received & Hperm & Hchan & Hall & Hok).
  - simpl in *. destruct sent; [|done]. simpl in *.
    exists received. done.
  - exists [], []. simpl. rewrite app_nil_r. repeat split; [done..|constructor].
Qed.

Lemma collector_fan_in_witness :
  collectMoviesParallel ["u"] ["/film/c/"] [mkMovie "/film/a/" 8; mkMovie "/film/b/" 6]
  ∧ ∃ results : list (string * list Movie),
      results.*1 ≡ₚ ["u"]
      ∧ Forall (fun p => ratedMoviesOf p.1 ["/film/c/"] p.2) results
      ∧ [mkMovie "/film/a/" 8; mkMovie "/film/b/" 6] = concat results.*2.
Proof.
  split; [exact sample_collect|].
  exact (collector_fan_in ["u"] ["/film/c/"] _ sample_collect).
Defined.

(** ** The three scores *)

Lemma weighted_avg lst : weighted lst = avg (weightedList lst).
Proof.
  unfold weighted. destruct (GoInt.len lst =? 0) eqn:E; [|done].
  by rewrite (len_zero_nil _ E).
Qed.

Lemma sumSquares_sumInts lst : sumSquares lst = sumInts ((fun v => mulInt v v) <$> lst).
Proof.
  unfold sumSquares, sumInts. generalize 0.
  induction lst as [|v lst IH]; intros s; [done|]. simpl. apply IH.
Qed.

Lemma leastSquare_perm l1 l2 : l1 ≡ₚ l2 → leastSquare l1 = leastSquare l2.
Proof.
  intros H. unfold leastSquare, GoInt.len.
  rewrite !sumSquares_sumInts, !sumInts_wrap.
  assert ((fun v => mulInt v v) <$> l1 ≡ₚ (fun v => mulInt v v) <$> l2) as Hsq
    by by rewrite H.
  by rewrite (exactSum_perm _ _ Hsq), (Permutation_length H).
Qed.

(** X16: [avg] and [weighted] never return NaN, whatever the ratings are,
    and [weighted], like [avg], does not depend on the order of the
    ratings. *)
Theorem scores_are_numbers (lst lst' : list Z) :
  Float64.is_nan (avg lst) = false
  ∧ Float64.is_nan (weighted lst) = false
  ∧ (lst ≡ₚ lst' → avg lst = avg lst' ∧ weighted lst = weighted lst').
Proof.
  split; [apply avg_is_number|]. split.
  - rewrite weighted_avg. apply avg_is_number.
  - intros H. split; [by apply avg_perm|].
    rewrite !weighted_avg. apply avg_perm.
    rewrite !weightedList_flat_map. by apply Permutation_flat_map.
Qed.

Lemma scores_are_numbers_witness :
  [7; 15; 2] ≡ₚ [2; 7; 15] ∧ weighted [7; 15; 2] = weighted [2; 7; 15].
Proof.
  assert ([7; 15; 2] ≡ₚ [2; 7; 15]) as H.
  { etrans; [apply perm_skip, perm_swap|]. apply perm_swap. }
  split; [exact H|].
  exact (proj2 (proj2 (proj2 (scores_are_numbers [7; 15; 2] [2; 7; 15])) H)).
Defined.

(** The sign that rounding keeps. *)
Lemma binary_round_aux_sign s m e l :
  0 <= m →
  match binary_round_aux Float64.prec Float64.emax s m e l with
  | S754_zero s' | S754_infinity s' | S754_finite s' _ _ => s' = s
  | S754_nan => False
  end.
Proof.
  intros Hm. unfold binary_round_aux.
  pose proof (shr_fexp_nonneg m e l Hm) as H1.
  destruct (shr_fexp Float64.prec Float64.emax m e l) as [mrs' e']. simpl in H1.
  pose proof (round_nearest_even_bounds (shr_m mrs') (loc_of_shr_record mrs')) as Hr.
  pose proof (shr_fexp_nonneg (round_nearest_even (shr_m mrs') (loc_of_shr_record mrs'))
                e' loc_Exact ltac:(lia)) as H2.
  destruct (shr_fexp Float64.prec Float64.emax _ e' loc_Exact) as [mrs'' e''].
  simpl in H2.
  destruct (shr_m mrs''); try lia; try reflexivity.
  destruct (e'' <=? Float64.emax - Float64.prec); reflexivity.
Qed.

Lemma of_int_notNegative n : 0 <= n → notNegative (Float64.of_int n).
Proof.
  intros Hn. unfold Float64.of_int, binary_normalize.
  destruct n as [|p|p]; [done| |lia].
  unfold binary_round. destruct (shl_align p 0 _) as [mz ez].
  apply (binary_round_aux_sign false (Z.pos mz)). lia.
Qed.

Lemma div_notNegative x y :
  notNegative x → notNegative y →
  match x with S754_zero _ | S754_finite _ _ _ => True | _ => False end →
  match y with S754_finite _ _ _ | S754_infinity _ => True | _ => False end →
  notNegative (Float64.div x y).
Proof.
  destruct x as [sx|sx| |sx mx ex], y as [sy|sy| |sy my ey]; simpl; try done;
    intros -> -> _ _; try done.
  unfold SFdiv_core_binary.
  set (m' := match _ - _ - _ with Z0 => _ | Z.pos _ => _ | Z.neg _ => _ end).
  assert (0 <= m') as Hm'.
  { unfold m'. destruct (_ - _ - _); [lia| |lia]. apply Z.shiftl_nonneg. lia. }
  pose proof (Z.div_pos m' (Z.pos my) Hm' ltac:(lia)) as Hq.
  unfold Z.div in Hq. destruct (Z.div_eucl m' (Z.pos my)) as [q r].
  by apply (binary_round_aux_sign false).
Qed.

Lemma sqrt_notNegative x :
  notNegative x → notNegative (SFsqrt Float64.prec Float64.emax x).
Proof.
  destruct x as [sx|sx| |sx mx ex]; simpl; try done.
  - by intros ->.
  - intros ->. unfold SFsqrt_core_binary.
    set (m' := match _ - _ with Z0 => _ | Z.pos _ => _ | Z.neg _ => _ end).
    assert (0 <= m') as Hm'.
    { unfold m'. destruct (_ - _); [lia| |lia]. apply Z.shiftl_nonneg. lia. }
    pose proof (Z.sqrtrem_spec m' Hm') as Hs.
    destruct (Z.sqrtrem m') as [q r].
    apply (binary_round_aux_sign false). nia.
Qed.

Lemma notNegative_number x : notNegative x → Float64.is_nan x = false.
Proof. by destruct x. Qed.

(** X17: [leastSquare] is 0 for no ratings and does not depend on the order
    of the ratings; it returns a number that is not negative whenever the
    sum of the squares, as [int] arithmetic computes it, is not negative,
    which is so for ratings between 0 and 10 in any slice of feasible
    length.  A square that leaves [int] can make it NaN: there is a single
    rating, a valid [int], for which it is. *)
Theorem leastSquare_number (lst lst' : list Z) :
  leastSquare [] = Float64.zero
  ∧ (lst ≡ₚ lst' → leastSquare lst = leastSquare lst')
  ∧ (0 <= sumSquares lst → notNegative (leastSquare lst))
  ∧ (Forall (fun v => 0 <= v <= 10) lst → 100 * Z.of_nat (length lst) <= GoInt.max_int →
     sumSquares lst = exactSum ((fun v => v * v) <$> lst) ∧ 0 <= sumSquares lst)
  ∧ ∃ v, 0 <= v <= GoInt.max_int ∧ Float64.is_nan (leastSquare [v]) = true.
Proof.
  split; [done|]. split; [apply leastSquare_perm|].
  split; [|split; [|exists 3037000500; by vm_compute]].
  - intros Hsum. unfold leastSquare, GoInt.len.
    destruct (Z.eqb_spec (Z.of_nat (length lst)) 0); [done|].
    apply sqrt_notNegative, div_notNegative.
    + by apply of_int_notNegative.
    + apply of_int_notNegative. lia.
    + apply of_int_finite. rewrite sumSquares_sumInts, sumInts_wrap. apply wrap_range.
    + apply of_int_positive. lia.
  - intros Hdom Hlen.
    assert ((fun v => mulInt v v) <$> lst = (fun v => v * v) <$> lst) as Hsq.
    { apply Forall_fmap_ext. eapply Forall_impl; [exact Hdom|].
      intros v Hv. simpl in *. apply wrap_small.
      assert (0 <= v * v <= 100) by nia.
      unfold GoInt.min_int, GoInt.max_int. lia. }
    assert (Forall (fun w => 0 <= w <= 100) ((fun v => v * v) <$> lst)) as Hb.
    { rewrite Forall_fmap. eapply Forall_impl; [exact Hdom|].
      intros v Hv. simpl in *. nia. }
    pose proof (exactSum_bounds _ Hb) as Hex. rewrite length_fmap in Hex.
    rewrite sumSquares_sumInts, Hsq, sumInts_wrap, wrap_small;
      unfold GoInt.min_int, GoInt.max_int in *; lia.
Qed.

Lemma leastSquare_number_witness :
  0 <= sumSquares [7; 8] ∧ notNegative (leastSquare [7; 8]).
Proof.
  assert (0 <= sumSquares [7; 8]) as H by (by vm_compute).
  split; [exact H|].
  exact (proj1 (proj2 (proj2 (leastSquare_number [7; 8] []))) H).
Defined.

(** ** The prompts *)

Lemma isAnswer_false line :
  isAnswer line = false → String.eqb line "n" = false ∧ String.eqb line "y" = false.
Proof. unfold isAnswer. by intros [??]%orb_false_elim. Qed.

Lemma askExcludeWatched_silent fuel stdin :
  Forall (fun line => isAnswer line = false) stdin →
  askExcludeWatched fuel stdin = None.
Proof.
  revert stdin. induction fuel as [|fuel IH]; intros stdin Hno; [done|].
  destruct stdin as [|line stdin]; simpl.
  - apply IH. constructor.
  - apply Forall_cons in Hno as [[-> ->]%isAnswer_false Hno]. by apply IH.
Qed.

(** X18: [askExcludeWatched] answers with the first line that is [y] or [n]
    among the lines that its reader hands out, whatever was typed before it
    and whatever comes after it; when no such line comes, the end of the
    input included, it asks again for ever. *)
Theorem askExcludeWatched_answer (others : list string) (answer : string)
    (rest : Stdin) :
  Forall (fun line => isAnswer line = false) others →
  (isAnswer answer = true →
   ∀ fuel, (length others < fuel)%nat →
     askExcludeWatched fuel (others ++ answer :: rest) = Some (String.eqb answer "y"))
  ∧ (∀ fuel, askExcludeWatched fuel others = None).
Proof.
  intros Hno. split; [|intros fuel; by apply askExcludeWatched_silent].
  intros Hanswer. induction Hno as [|line others [Hn Hy]%isAnswer_false _ IH];
    intros fuel Hfuel; (destruct fuel as [|fuel]; [simpl in Hfuel; lia|]); simpl.
  - unfold isAnswer in Hanswer. destruct (String.eqb answer "n") eqn:En.
    + apply String.eqb_eq in En as ->. done.
    + simpl in Hanswer. by rewrite Hanswer.
  - rewrite Hn, Hy. apply IH. simpl in Hfuel. lia.
Qed.

Lemma askExcludeWatched_answer_witness :
  Forall (fun line => isAnswer line = false) ["yes"; ""]
  ∧ isAnswer "y" = true
  ∧ askExcludeWatched 3 (["yes"; ""] ++ "y" :: ["n"]) = Some true.
Proof.
  assert (Forall (fun line => isAnswer line = false) ["yes"; ""]) as Hno
    by (repeat constructor).
  split; [exact Hno|]. split; [reflexivity|].
  exact (proj1 (askExcludeWatched_answer ["yes"; ""] "y" ["n"] Hno) eq_refl 3%nat
           ltac:(simpl; lia)).
Defined.

Lemma checkUser_true net username log validUser log' :
  checkUser net username log = ((validUser, true), log') →
  validUser = username ∧ validName username = true
  ∧ ∃ doc, getPage net ("https://letterboxd.com/" +:+ username) log = (Some doc, log')
           ∧ headerSections doc ≠ 0.
Proof.
  unfold checkUser. rewrite checked_name.
  destruct (validName username); simpl; [|done].
  destruct (getPage net _ log) as [[doc|] log1]; [|done].
  destruct (Z.eqb_spec (headerSections doc) 0); [done|].
  intros [= <- <-]. eauto.
Qed.

Lemma checkUser_log net username log :
  log `prefix_of` (checkUser net username log).2.
Proof.
  unfold checkUser. destruct (negb _); [done|].
  destruct (getPage_log net ("https://letterboxd.com/" +:+ username) log)
    as (k & _ & Hlog).
  destruct (getPage net _ log) as [[doc|] log1]; simpl in *.
  - destruct (headerSections doc =? 0); simpl; rewrite Hlog; by eexists.
  - rewrite Hlog; by eexists.
Qed.

Lemma checkUser_name net username log : (checkUser net username log).1.1 = username.
Proof.
  unfold checkUser. destruct (negb _); [done|].
  destruct (getPage net _ log) as [[doc|] log1]; [|done].
  by destruct (headerSections doc =? 0).
Qed.

(** X19: the name that [getUser] returns is one of the lines that its
    reader hands out, is not empty and holds only letters, digits and
    underscores, and the last page fetched is the profile of that name,
    which has a header section; every line before it is empty or a name
    that [checkUser] turned down. *)
Theorem getUser_valid (net : Network) (fuel : nat) (stdin : Stdin)
    (log log' : Log) (user : string) :
  getUser net fuel stdin log = Some (user, log') →
  user ≠ "" ∧ validName user = true
  ∧ (∃ skipped rest,
       stdin = skipped ++ user :: rest ∧ (length skipped < fuel)%nat
       ∧ Forall (fun line =>
                   line = "" ∨ ∃ log0, (checkUser net line log0).1 = (line, false))
           skipped)
  ∧ ∃ log1 doc,
      log `prefix_of` log1
      ∧ getPage net ("https://letterboxd.com/" +:+ user) log1 = (Some doc, log')
      ∧ headerSections doc ≠ 0.
Proof.
  revert stdin log. induction fuel as [|fuel IH]; intros stdin log; [done|].
  simpl. destruct stdin as [|line stdin0]; simpl.
  - intros (Hne & Hvalid & (skipped & rest & Hin & Hlen & Hskipped) & Hpage)%IH.
    split; [done|]. split; [done|]. split; [|done].
    exists skipped, rest. split; [done|]. split; [lia|done].
  - destruct (String.eqb_spec line "") as [->|Hline].
    + intros (Hne & Hvalid & (skipped & rest & -> & Hlen & Hskipped) & Hpage)%IH.
      split; [done|]. split; [done|]. split; [|done].
      exists ("" :: skipped), rest. split; [done|]. split; [simpl; lia|].
      constructor; [by left|done].
    + pose proof (checkUser_log net line log) as Hpre.
      pose proof (checkUser_name net line log) as Hname.
      destruct (checkUser net line log) as [[validUser [|]] log1] eqn:Hcheck.
      * apply checkUser_true in Hcheck as (-> & Hvalid & doc & Hpage & Hheader).
        intros [= <- <-]. split; [done|]. split; [done|]. split.
        -- exists [], stdin0. split; [done|]. split; [simpl; lia|constructor].
        -- by exists log, doc.
      * simpl in Hname. subst validUser.
        intros (Hne & Hvalid & (skipped & rest & -> & Hlen & Hskipped)
                & log2 & doc & Hpre2 & Hpage)%IH.
        split; [done|]. split; [done|]. split.
        -- exists (line :: skipped), rest. split; [done|]. split; [simpl; lia|].
           constructor; [|done]. right. exists log. by rewrite Hcheck.
        -- exists log2, doc. split; [|done]. by etrans.
Qed.

Lemma getUser_valid_witness :
  getUser memberNet 4 [""; "no such"; "ghost"; "u"; "alice"] []
  = Some ("u", replicate 10 "https://letterboxd.com/ghost" ++ ["https://letterboxd.com/u"])
  ∧ validName "u" = true.
Proof.
  assert (getUser memberNet 4 [""; "no such"; "ghost"; "u"; "alice"] []
          = Some ("u", replicate 10 "https://letterboxd.com/ghost"
                       ++ ["https://letterboxd.com/u"])) as Hrun
    by (vm_compute; reflexivity).
  split; [exact Hrun|].
  exact (proj1 (proj2 (getUser_valid memberNet 4 _ _ _ _ Hrun))).
Defined.




(** ** The threshold dialogue *)

Lemma askThreshold_nonzero fuel friendsNr threshold stdin :
  threshold ≠ 0 → askThreshold fuel friendsNr threshold stdin = Some (threshold, stdin).
Proof.
  intros Hne. destruct fuel; simpl; by destruct (Z.eqb_spec threshold 0).
Qed.

Lemma askThreshold_round fuel friendsNr line stdin :
  askThreshold (S fuel) friendsNr 0 (line :: stdin)
  = match Atoi line with
    | (threshold, None) =>
        if (threshold =? 0) || (threshold >? friendsNr)
        then askThreshold fuel friendsNr 0 stdin
        else Some (threshold, stdin)
    | (_, Some _) => askThreshold fuel friendsNr 0 stdin
    end.
Proof.
  cbn [askThreshold Z.eqb readLine]. unfold checkNumber.
  destruct (Atoi line) as [threshold [err|]]; [done|].
  destruct (Z.gtb_spec threshold friendsNr); [by rewrite orb_true_r|].
  rewrite orb_false_r. destruct (Z.eqb_spec threshold 0) as [->|Hne]; [done|].
  by apply askThreshold_nonzero.
Qed.

Lemma askThreshold_end fuel friendsNr : askThreshold fuel friendsNr 0 [] = None.
Proof.
  induction fuel as [|fuel IH]; [done|].
  cbn [askThreshold Z.eqb readLine]. exact IH.
Qed.

Lemma askThreshold_sound fuel friendsNr stdin threshold stdin' :
  askThreshold fuel friendsNr 0 stdin = Some (threshold, stdin') →
  accepted friendsNr threshold
  ∧ ∃ before line,
      stdin = before ++ line :: stdin'
      ∧ Atoi line = (threshold, None)
      ∧ Forall (rejected friendsNr) before.
Proof.
  revert stdin. induction fuel as [|fuel IH]; intros stdin; [done|].
  destruct stdin as [|line stdin]; [by rewrite askThreshold_end|].
  rewrite askThreshold_round.
  assert (rejected friendsNr line →
          askThreshold fuel friendsNr 0 stdin = Some (threshold, stdin') →
          accepted friendsNr threshold
          ∧ ∃ before line0,
              line :: stdin = before ++ line0 :: stdin'
              ∧ Atoi line0 = (threshold, None)
              ∧ Forall (rejected friendsNr) before) as Hnext.
  { intros Hrej (Hacc & before & line0 & -> & Hline0 & Hbefore)%IH.
    split; [done|]. exists (line :: before), line0.
    split; [done|]. split; [done|by constructor]. }
  unfold rejected in Hnext.
  destruct (Atoi line) as [t [err|]] eqn:Hline; [by apply Hnext|].
  destruct (Z.eqb_spec t 0) as [->|Hne]; [apply Hnext; by left|].
  destruct (Z.gtb_spec t friendsNr) as [Hgt|Hle]; simpl; [apply Hnext; right; lia|].
  intros [= <- <-]. split; [split; [done|lia]|].
  exists [], line. split; [done|]. split; [done|constructor].
Qed.

(** X21: the loop [for threshold == 0] of [showResults] skips every line
    that is not a number, is 0 or is above the number of friends, and leaves
    with the first other number, which need not be positive: any number
    that is not 0 and not above the number of friends is taken, a negative
    one too.  At the end of the input it asks for ever. *)
Theorem askThreshold_accepts (friendsNr : Z) :
  (∀ fuel stdin threshold stdin',
     askThreshold fuel friendsNr 0 stdin = Some (threshold, stdin') →
     accepted friendsNr threshold
     ∧ ∃ before line,
         stdin = before ++ line :: stdin'
         ∧ Atoi line = (threshold, None)
         ∧ Forall (rejected friendsNr) before)
  ∧ (∀ before line threshold rest fuel,
       Forall (rejected friendsNr) before →
       Atoi line = (threshold, None) → accepted friendsNr threshold →
       (length before < fuel)%nat →
       askThreshold fuel friendsNr 0 (before ++ line :: rest) = Some (threshold, rest))
  ∧ (∀ before fuel,
       Forall (rejected friendsNr) before →
       askThreshold fuel friendsNr 0 before = None).
Proof.
  split; [intros fuel stdin threshold stdin'; apply askThreshold_sound|]. split.
  - intros before line threshold rest fuel Hbefore Hline [Hne Hle].
    revert fuel. induction Hbefore as [|l before Hl _ IH]; intros fuel Hfuel;
      (destruct fuel as [|fuel]; [simpl in Hfuel; lia|]); simpl app;
      rewrite askThreshold_round.
    + rewrite Hline. destruct (Z.eqb_spec threshold 0); [done|].
      destruct (Z.gtb_spec threshold friendsNr); [lia|done].
    + unfold rejected in Hl. simpl in Hfuel.
      destruct (Atoi l) as [t [err|]]; [apply IH; lia|].
      destruct (Z.eqb_spec t 0); [apply IH; lia|].
      destruct (Z.gtb_spec t friendsNr); [apply IH|]; lia.
  - intros before fuel Hbefore. revert fuel.
    induction Hbefore as [|l before Hl _ IH]; intros fuel;
      [apply askThreshold_end|].
    destruct fuel as [|fuel]; [done|]. rewrite askThreshold_round.
    unfold rejected in Hl. destruct (Atoi l) as [t [err|]]; [apply IH|].
    destruct (Z.eqb_spec t 0); [apply IH|].
    destruct (Z.gtb_spec t friendsNr); [apply IH|lia].
Qed.

Lemma askThreshold_accepts_witness :
  Forall (rejected 3) ["two"; "0"; "7"]
  ∧ Atoi "-2" = (-2, None) ∧ accepted 3 (-2)
  ∧ askThreshold 4 3 0 (["two"; "0"; "7"] ++ "-2" :: ["s"]) = Some (-2, ["s"]).
Proof.
  assert (Forall (rejected 3) ["two"; "0"; "7"]) as Hbefore.
  { apply Forall_cons. split; [exact I|].
    apply Forall_cons. split; [left; reflexivity|].
    apply Forall_cons. split; [right; reflexivity|]. apply Forall_nil_2. }
  assert (accepted 3 (-2)) as Hacc by (split; lia).
  split; [exact Hbefore|]. split; [reflexivity|]. split; [exact Hacc|].
  exact (proj1 (proj2 (askThreshold_accepts 3)) ["two"; "0"; "7"] "-2" (-2) ["s"] 4%nat
           Hbefore eq_refl Hacc ltac:(simpl; lia)).
Defined.

(** ** [showResults] *)

Lemma table_rows (ranking : list Result) :
  take (Z.to_nat (Z.min (GoInt.len ranking) 15)) ranking = take 15 ranking.
Proof.
  unfold GoInt.len. destruct (Z.le_gt_cases (Z.of_nat (length ranking)) 15) as [H|H].
  - rewrite Z.min_l, Nat2Z.id by done. rewrite !take_ge; [done|lia|done].
  - rewrite Z.min_r by lia. done.
Qed.

Lemma showResults_loop_events fuel sort moviesList friendsNr threshold stdin
    events events' stdin' :
  showResults_loop fuel sort moviesList friendsNr threshold stdin events
  = Some (events', stdin') →
  threshold = 0 ∨ accepted friendsNr threshold →
  ∃ thresholds t final,
    events' = events ++ (tableFor sort moviesList <$> thresholds) ++ [final]
    ∧ last thresholds = Some t
    ∧ Forall (accepted friendsNr) thresholds
    ∧ (final = Ended ∨ final = Saved (rankResults sort moviesList t) t).
Proof.
  revert threshold stdin events.
  induction fuel as [|fuel IH]; intros threshold stdin events; [done|].
  cbn [showResults_loop]. intros Hrun Hthreshold.
  destruct (askThreshold fuel friendsNr threshold stdin) as [[t stdin1]|] eqn:Hask;
    [|done].
  assert (accepted friendsNr t) as Hacc.
  { destruct Hthreshold as [->|Hacc].
    - by apply askThreshold_sound in Hask as [Hacc _].
    - rewrite askThreshold_nonzero in Hask by apply Hacc. by injection Hask as <- _. }
  rewrite table_rows in Hrun.
  change (Shown (GoInt.len (rankResults sort moviesList t)) t
            (take 15 (rankResults sort moviesList t)))
    with (tableFor sort moviesList t) in Hrun.
  assert (∀ threshold' stdin2,
            showResults_loop fuel sort moviesList friendsNr threshold' stdin2
              (events ++ [tableFor sort moviesList t]) = Some (events', stdin') →
            threshold' = 0 ∨ accepted friendsNr threshold' →
            ∃ thresholds t final,
              events' = events ++ (tableFor sort moviesList <$> thresholds) ++ [final]
              ∧ last thresholds = Some t
              ∧ Forall (accepted friendsNr) thresholds
              ∧ (final = Ended ∨ final = Saved (rankResults sort moviesList t) t))
    as Hnext.
  { intros threshold' stdin2 Hrun' Ht'.
    destruct (IH _ _ _ Hrun' Ht') as (thresholds & t' & final & -> & Hlast & Hall & Hfinal).
    exists (t :: thresholds), t', final. rewrite <- app_assoc.
    split; [done|]. split; [|split; [by constructor|done]].
    destruct thresholds; [done|]. done. }
  destruct (readLine stdin1) as [question stdin2].
  destruct (String.eqb question "x").
  - destruct (readLine stdin2) as [r stdin3]. destruct (String.eqb r "y").
    + injection Hrun as <- <-. exists [t], t, Ended. rewrite <- app_assoc.
      split; [done|]. split; [done|]. split; [by constructor|by left].
    + eapply Hnext; [exact Hrun|by right].
  - destruct (String.eqb question "s").
    + injection Hrun as <- <-. exists [t], t, (Saved (rankResults sort moviesList t) t).
      rewrite <- app_assoc.
      split; [done|]. split; [done|]. split; [by constructor|by right].
    + eapply Hnext; [exact Hrun|by left].
Qed.

(** X22: a run of [showResults] that ends has printed one table after the
    other, each for a threshold that is not 0 and not above the number of
    friends, each holding the number of movies that pass the threshold and
    the first 15 of their ranking; then it has either ended without saving
    or handed the complete ranking for the threshold of the last table,
    not only its 15 rows, to [saveResults]. *)
Theorem showResults_events (sort : list Result -> list Result)
    (moviesList : list Result) (friendsNr : Z) (fuel : nat) (stdin stdin' : Stdin)
    (events : list ShowEvent) :
  showResults fuel sort moviesList friendsNr stdin = Some (events, stdin') →
  ∃ thresholds t final,
    events = (tableFor sort moviesList <$> thresholds) ++ [final]
    ∧ last thresholds = Some t
    ∧ Forall (accepted friendsNr) thresholds
    ∧ (final = Ended ∨ final = Saved (rankResults sort moviesList t) t).
Proof.
  unfold showResults. intros Hrun.
  apply showResults_loop_events in Hrun; [|by left]. exact Hrun.
Qed.

Lemma showResults_events_witness :
  let sort := insertionSort resultLess in
  let moviesList := [resultA; resultB; resultC] in
  showResults 4 sort moviesList 5 ["9"; "3"; "x"; "n"; "1"; "4"; "s"; "out.csv"]
  = Some ([tableFor sort moviesList 3; tableFor sort moviesList 3;
           tableFor sort moviesList 4; Saved [resultB] 4], ["out.csv"])
  ∧ ∃ thresholds t final,
      [tableFor sort moviesList 3; tableFor sort moviesList 3;
       tableFor sort moviesList 4; Saved [resultB] 4]
      = (tableFor sort moviesList <$> thresholds) ++ [final]
      ∧ last thresholds = Some t
      ∧ Forall (accepted 5) thresholds
      ∧ (final = Ended ∨ final = Saved (rankResults sort moviesList t) t).
Proof.
  intros sort moviesList.
  assert (showResults 4 sort moviesList 5
            ["9"; "3"; "x"; "n"; "1"; "4"; "s"; "out.csv"]
          = Some ([tableFor sort moviesList 3; tableFor sort moviesList 3;
                   tableFor sort moviesList 4; Saved [resultB] 4], ["out.csv"]))
    as Hrun by (vm_compute; reflexivity).
  split; [exact Hrun|].
  exact (showResults_events sort moviesList 5 4 _ _ _ Hrun).
Defined.

(** ** The order of the friends *)

Lemma countLess_orders l : OrdersElements countLess l.
Proof.
  unfold countLess. repeat split.
  - intros x _. rewrite Z.gtb_ltb. apply Z.ltb_irrefl.
  - intros x y z _ _ _. rewrite !Z.gtb_ltb, !Z.ltb_lt. lia.
  - intros x y z _ _ _. rewrite !Z.gtb_ltb, !Z.ltb_ge. lia.
Qed.

(** X23: [main] hands the friends to the collector in an order in which
    their movie counts do not rise: the list holds the same friends as
    before, each still paired with its own count. *)
Theorem sortFriends_order (sort : list (string * Z) -> list (string * Z))
    (net : Network) (friends : list string) (log : Log) :
  SortsSlice countLess sort →
  let movieCount := (getMovieCount net friends log).1 in
  sortFriends sort friends movieCount ≡ₚ friends
  ∧ ∃ counts,
      length counts = length friends
      ∧ zip (sortFriends sort friends movieCount) counts ≡ₚ zip friends movieCount
      ∧ counts ≡ₚ movieCount
      ∧ StronglySorted (fun a b => a >= b) counts.
Proof.
  intros Hsort movieCount.
  pose proof (getMovieCount_length net friends log) as Hlen.
  fold movieCount in Hlen. unfold sortFriends.
  destruct (Hsort (zip friends movieCount)) as [Hperm Hsorted].
  specialize (Hsorted (countLess_orders _)).
  split; [|exists (sort (zip friends movieCount)).*2; split; [|split; [|split]]].
  - rewrite <- Hperm. rewrite fst_zip; [done|lia].
  - rewrite length_fmap, <- (Permutation_length Hperm), length_zip_with. lia.
  - by rewrite zip_fst_snd.
  - rewrite <- Hperm. rewrite snd_zip; [done|lia].
  - clear Hperm. induction Hsorted as [|p l _ IH Hp]; [constructor|].
    simpl. constructor; [done|]. rewrite Forall_fmap.
    eapply Forall_impl; [exact Hp|]. intros q Hq.
    unfold notAfter, countLess in Hq. simpl.
    rewrite Z.gtb_ltb in Hq. apply Z.ltb_ge in Hq. lia.
Qed.

Lemma sortFriends_order_witness :
  SortsSlice countLess (insertionSort countLess)
  ∧ (getMovieCount memberNet ["alice"; "bob_1"] []).1 = [12; 1340]
  ∧ sortFriends (insertionSort countLess) ["alice"; "bob_1"] [12; 1340]
    = ["bob_1"; "alice"]
  ∧ sortFriends (insertionSort countLess) ["alice"; "bob_1"]
      (getMovieCount memberNet ["alice"; "bob_1"] []).1
    ≡ₚ ["alice"; "bob_1"].
Proof.
  split; [apply insertionSort_sorts|]. split; [by vm_compute|].
  split; [by vm_compute|].
  exact (proj1 (sortFriends_order (insertionSort countLess) memberNet
                  ["alice"; "bob_1"] [] (insertionSort_sorts countLess))).
Defined.

(** ** The rating of a poster *)

Lemma append_assoc (s t u : string) : (s +:+ t) +:+ u = s +:+ t +:+ u.
Proof.
  induction s as [|c s IH]; [done|].
  change (String c ((s +:+ t) +:+ u) = String c (s +:+ t +:+ u)). by f_equal.
Qed.

Lemma append_empty (s : string) : s +:+ "" = s.
Proof.
  induction s as [|c s IH]; [done|]. change (String c (s +:+ "") = String c s).
  by f_equal.
Qed.

Lemma splitFrom_never_empty sep skip cur s : splitFrom sep skip cur s ≠ [].
Proof.
  revert skip cur. induction s as [|c s IH]; intros skip cur; cbn [splitFrom]; [done|].
  destruct skip; [|apply IH]. destruct (String.prefix sep (String c s)); [done|apply IH].
Qed.

Lemma prefix_blank c s :
  String.prefix " " (String c s) = Ascii.eqb c " ".
Proof.
  cbn [String.prefix]. destruct (ascii_dec " " c) as [<-|Hne].
  - by destruct s.
  - symmetry. apply Ascii.eqb_neq. congruence.
Qed.

Lemma splitFrom_token cur tok :
  noBlank tok = true → splitFrom " " 0 cur tok = [cur +:+ tok].
Proof.
  revert cur. induction tok as [|c tok IH]; intros cur Htok.
  - simpl. by rewrite append_empty.
  - apply andb_prop in Htok as [Hc Htok]. cbn [splitFrom]. rewrite prefix_blank.
    apply negb_true_iff in Hc. rewrite Hc, IH by done. by rewrite append_assoc.
Qed.

Lemma last_cons_nonempty {A} (x : A) l d : l ≠ [] → List.last (x :: l) d = List.last l d.
Proof. by destruct l. Qed.

Lemma splitFrom_last cur pre tok :
  noBlank tok = true →
  List.last (splitFrom " " 0 cur (pre +:+ " " +:+ tok)) "" = tok.
Proof.
  intros Htok. revert cur. induction pre as [|c pre IH]; intros cur.
  - change ("" +:+ " " +:+ tok) with (String " " tok). cbn [splitFrom].
    rewrite prefix_blank. simpl Ascii.eqb. cbv iota.
    change (String.length " " - 1)%nat with 0%nat.
    by rewrite (splitFrom_token "" tok Htok).
  - change (String c pre +:+ " " +:+ tok) with (String c (pre +:+ " " +:+ tok)).
    cbn [splitFrom]. rewrite prefix_blank. destruct (Ascii.eqb c " ").
    + change (String.length " " - 1)%nat with 0%nat.
      rewrite last_cons_nonempty by apply splitFrom_never_empty. apply IH.
    + apply IH.
Qed.

Lemma replaceFrom_skip old new skip s t :
  String.length s = skip → replaceFrom old new skip (s +:+ t) = replaceFrom old new 0 t.
Proof.
  revert skip. induction s as [|c s IH]; intros skip <-; [done|]. simpl. by apply IH.
Qed.

Lemma replaceFrom_digits old c0 old' digits :
  old = String c0 old' → isDigit c0 = false →
  allString isDigit digits = true → replaceFrom old "" 0 digits = digits.
Proof.
  intros -> Hc0. induction digits as [|c digits IH]; [done|].
  intros [Hc Hrest]%andb_prop. cbn [replaceFrom String.prefix].
  destruct (ascii_dec c0 c) as [->|_]; [congruence|]. by rewrite IH.
Qed.

Lemma decimal_ge digits n :
  allString isDigit digits = true → 0 <= n → n <= decimal digits n.
Proof.
  revert n. induction digits as [|c digits IH]; intros n; simpl; [lia|].
  intros [Hc Hrest]%andb_prop Hn. unfold isDigit in Hc.
  apply andb_prop in Hc as [H1%Z.leb_le H2%Z.leb_le].
  etrans; [|apply IH; [done|lia]]. lia.
Qed.

Lemma parseDigits_decimal digits n :
  allString isDigit digits = true → 0 <= n → decimal digits n < 2 ^ 64 →
  parseDigits digits n = inl (decimal digits n).
Proof.
  revert n. induction digits as [|c digits IH]; intros n; simpl; [done|].
  intros [Hc Hrest]%andb_prop Hn Hlt. rewrite Hc.
  unfold isDigit in Hc. apply andb_prop in Hc as [H1%Z.leb_le H2%Z.leb_le].
  pose proof (decimal_ge digits (n * 10 + (Z.of_N (N_of_ascii c) - 48)) Hrest
                ltac:(lia)) as Hge.
  destruct (Z.geb_spec (n * 10 + (Z.of_N (N_of_ascii c) - 48)) (2 ^ 64)); [lia|].
  apply IH; [done|lia|done].
Qed.

Lemma Atoi_decimal digits :
  digits ≠ "" → allString isDigit digits = true → decimal digits 0 < 2 ^ 63 →
  Atoi digits = (decimal digits 0, None).
Proof.
  intros Hne Hdigits Hlt. destruct digits as [|c digits]; [done|].
  unfold Atoi.
  assert (match String c digits with
          | String "-"%char rest => (true, rest)
          | String "+"%char rest => (false, rest)
          | _ => (false, String c digits)
          end = (false, String c digits)) as ->.
  { apply andb_prop in Hdigits as [Hc _].
    destruct c as [[] [] [] [] [] [] [] []]; try done; by vm_compute in Hc. }
  rewrite parseDigits_decimal by (done || lia). cbn [negb andb].
  change (decimal digits (0 * 10 + (Z.of_N (N_of_ascii c) - 48)))
    with (decimal (String c digits) 0).
  destruct (Z.geb_spec (decimal (String c digits) 0) (2 ^ 63)); [lia|done].
Qed.

Lemma digits_noBlank digits : allString isDigit digits = true → noBlank digits = true.
Proof.
  unfold noBlank. induction digits as [|c digits IH]; [done|].
  intros [Hc Hrest]%andb_prop. cbn [allString]. rewrite IH by done.
  rewrite andb_true_r. apply negb_true_iff, Ascii.eqb_neq. by intros ->.
Qed.

(** X24: for a poster with a target link whose rating element has a class
    that ends in [rated-] and decimal digits, alone or after a blank,
    [getRatedMovies] takes the number that the digits write as the rating,
    whatever its size within [int]; it adds the movie unless its link is
    excluded, and counts the page as one with rated movies either way. *)
Theorem ratedStep_reads_rating (excludeMap : gmap string bool) (movies : list Movie)
    (moviesOnPage : bool) (link class digits : string) :
  digits ≠ "" → allString isDigit digits = true → decimal digits 0 < 2 ^ 63 →
  class = "rated-" +:+ digits
  ∨ (∃ pre, class = pre +:+ " " +:+ "rated-" +:+ digits) →
  ratedStep excludeMap (movies, moviesOnPage) (ratedPoster link class)
  = (if excluded excludeMap link then movies
     else movies ++ [mkMovie link (decimal digits 0)], true).
Proof.
  intros Hne Hdigits Hlt Hclass.
  assert (noBlank ("rated-" +:+ digits) = true) as Htok.
  { change (noBlank ("rated-" +:+ digits)) with (noBlank digits).
    by apply digits_noBlank. }
  assert (List.last (Split class " ") "" = "rated-" +:+ digits) as Hlast.
  { unfold Split. destruct Hclass as [->|[pre ->]].
    - by rewrite (splitFrom_token "" _ Htok).
    - by apply splitFrom_last. }
  assert (ReplaceAll ("rated-" +:+ digits) "rated-" "" = digits) as Hreplace.
  { unfold ReplaceAll.
    change ("rated-" +:+ digits) with (String "r" ("ated-" +:+ digits)).
    cbn [replaceFrom].
    change (String "r" ("ated-" +:+ digits)) with ("rated-" +:+ digits).
    rewrite (prefix_append "rated-" digits).
    change (String.length "rated-" - 1)%nat with 5%nat.
    change ("" +:+ replaceFrom "rated-" "" 5 ("ated-" +:+ digits))
      with (replaceFrom "rated-" "" 5 ("ated-" +:+ digits)).
    rewrite (replaceFrom_skip "rated-" "" 5 "ated-" digits eq_refl).
    by apply (replaceFrom_digits _ "r" "ated-"). }
  unfold ratedStep, ratedPoster. cbn [dataTargetLink ratingElem].
  rewrite Hlast, Hreplace, (Atoi_decimal digits Hne Hdigits Hlt).
  by destruct (excluded excludeMap link).
Qed.

Lemma ratedStep_reads_rating_witness :
  "17" ≠ "" ∧ allString isDigit "17" = true ∧ decimal "17" 0 < 2 ^ 63
  ∧ ratedStep ∅ ([], false) (ratedPoster "/film/a/" "rating -micro -darker rated-17")
    = ([mkMovie "/film/a/" 17], true).
Proof.
  assert ("17" ≠ "") as Hne by done.
  assert (decimal "17" 0 < 2 ^ 63) as Hlt by (by vm_compute).
  split; [exact Hne|]. split; [reflexivity|]. split; [exact Hlt|].
  exact (ratedStep_reads_rating ∅ [] false "/film/a/" "rating -micro -darker rated-17"
           "17" Hne eq_refl Hlt (or_intror (ex_intro _ "rating -micro -darker" eq_refl))).
Defined.
